(** * Bitwuzla: the normalization pass and the quantifier solver

    A shallow embedding of [src/preprocess/pass/normalize.cpp] (the
    AC-chain normalizer of the preprocessor) and of [src/bzlaslvquant.c]
    (the counterexample-guided quantifier loop), followed by the
    properties of these two files that the specification states.
    Further parts embed the functions around them, the C API of
    [src/api/c/bitwuzla.cpp] and the value generators of the unit tests
    ([test.h]), with properties read off the code.

    Conventions.
    - Terms are hash-consed: two nodes with the same kind, children,
      indices and payload are the same node, so a node is modelled by its
      structure and [==] on nodes is structural equality.  The identifier
      the node manager gave to a node is a parameter [id] of the
      development (identifiers depend on the order of creation).
    - Loops over work lists ([do ... while (!visit.empty())]) recurse on
      an explicit amount of fuel; running out of it is the error
      [OutOfFuel].
    - [assert] is checked unless the build defines [NDEBUG]; a failed
      assertion is the error [AssertionFailed].  [BZLA_ABORT] is always
      checked ([Aborted]).  Reading through a null pointer, [back()] on an
      empty vector and the like are the error [Undefined].
    - What the C++ standard leaves open is a parameter: the order in
      which [std::sort] leaves different elements that compare equal
      ([unstable_sort]), and what is built by walking unordered maps
      ([adder_results]).
    - Timers, log messages and memory management are not modelled. *)

From stdpp Require Import base list gmap.
From Stdlib Require Import ZArith String Ascii Lia.

Set Warnings "-register-all".
Open Scope Z_scope.

(** ** Errors *)

Inductive Err : Set := OutOfFuel | AssertionFailed | Aborted | Undefined.

Definition Res (A : Type) : Type := (Err + A)%type.

Definition ok {A : Type} (a : A) : Res A := inr a.
Definition fail {A : Type} (e : Err) : Res A := inl e.

#[global] Instance Res_ret : MRet Res := fun A a => inr a.
#[global] Instance Res_bind : MBind Res :=
  fun A B f m => match m with inl e => inl e | inr a => f a end.

(** [assert(c)] of <cassert>. *)
Definition c_assert (NDEBUG : bool) (c : bool) : Res unit :=
  if NDEBUG then ok tt else if c then ok tt else fail AssertionFailed.

(** [x = (x + 1) mod 2^64]: arithmetic on [uint64_t] and [size_t]. *)
Definition u64 (x : Z) : Z := x mod 2 ^ 64.
Definition u32 (x : Z) : Z := x mod 2 ^ 32.
Definition u8 (x : Z) : Z := x mod 2 ^ 8.

(** [std::sort] with a comparator [lt], where elements that compare equal
    are equal (nodes by their identifier, the entries of a map by their
    key): the result is the one ordered permutation, which this insertion
    sort computes. *)
Fixpoint sort_insert {A : Type} (lt : A -> A -> bool) (x : A) (l : list A)
  : list A :=
  match l with
  | [] => [x]
  | y :: r => if lt x y then x :: y :: r else y :: sort_insert lt x r
  end.

Definition std_sort {A : Type} (lt : A -> A -> bool) (l : list A) : list A :=
  fold_left (fun acc x => sort_insert lt x acc) l [].

(** ** Bit-vector values *)

Module BitVector.

(** Modelled from the spec: the bit-vector class (bv/bitvector.h) is not
    part of the sources.  A value is a width [size] and the unsigned
    integer [value] of its bits; every operation is modular in
    [2 ^ size]; the in-place mutators ([ibvadd], [ibvinc], ...) return
    the new value. *)
Record t : Set := mk { size : Z; value : Z }.

Definition norm (w v : Z) : t := mk w (v mod 2 ^ w).

Definition mk_zero (w : Z) : t := mk w 0.
Definition mk_one (w : Z) : t := norm w 1.
Definition mk_ones (w : Z) : t := norm w (-1).

Definition is_zero (a : t) : bool := value a =? 0.
Definition is_one (a : t) : bool := value a =? 1.
Definition is_ones (a : t) : bool := value a =? 2 ^ size a - 1.

Definition bvadd (a b : t) : t := norm (size a) (value a + value b).
Definition bvsub (a b : t) : t := norm (size a) (value a - value b).
Definition bvmul (a b : t) : t := norm (size a) (value a * value b).
Definition bvneg (a : t) : t := norm (size a) (- value a).
Definition bvinc (a : t) : t := norm (size a) (value a + 1).
Definition bvdec (a : t) : t := norm (size a) (value a - 1).

(** [a.compare(b)]: unsigned comparison, -1, 0 or 1. *)
Definition compare (a b : t) : Z :=
  match value a ?= value b with Lt => -1 | Eq => 0 | Gt => 1 end.

(** [a.to_uint64(true)]: the low 64 bits. *)
Definition to_uint64 (a : t) : Z := value a mod 2 ^ 64.

(** [a.count_leading_zeros()]: the zero bits above the most significant
    one bit; all [size] bits for the value zero. *)
Definition count_leading_zeros (a : t) : Z :=
  if value a =? 0 then size a else size a - (Z.log2 (value a) + 1).

(** [BitVector::fits_in_size(64, a.str(), 2)]. *)
Definition fits_in_64 (a : t) : bool := value a <? 2 ^ 64.

Definition eqb (a b : t) : bool := (size a =? size b) && (value a =? value b).

End BitVector.

(** ** Sorts and kinds *)

(** Modelled from the spec (section 3, Sort): the sort of a term. *)
Inductive Sort : Set :=
  | SBool
  | SBitVec (w : Z)
  | SFloatingPoint (e s : Z)
  | SRoundingMode
  | SArray (index element : Sort)
  | SFun (domain : list Sort) (codomain : Sort).

Fixpoint sort_eqb (a b : Sort) {struct a} : bool :=
  match a, b with
  | SBool, SBool => true
  | SBitVec w, SBitVec w' => w =? w'
  | SFloatingPoint e s, SFloatingPoint e' s' => (e =? e') && (s =? s')
  | SRoundingMode, SRoundingMode => true
  | SArray i e, SArray i' e' => sort_eqb i i' && sort_eqb e e'
  | SFun d c, SFun d' c' =>
      (fix all2 (l l' : list Sort) {struct l} : bool :=
         match l, l' with
         | [], [] => true
         | x :: r, y :: r' => sort_eqb x y && all2 r r'
         | _, _ => false
         end) d d' && sort_eqb c c'
  | _, _ => false
  end.

Definition bv_size (s : Sort) : Z :=
  match s with SBitVec w => w | _ => 0 end.

Inductive Kind : Set :=
  | NULL_NODE | CONSTANT | VALUE | VARIABLE | AND | OR | NOT | XOR | IFF
  | IMPLIES | ITE | EQUAL | DISTINCT | APPLY | LAMBDA | FORALL | EXISTS
  | ARRAY_SELECT | ARRAY_STORE | BV_ADD | BV_AND | BV_ASHR | BV_COMP
  | BV_CONCAT | BV_DEC | BV_INC | BV_MUL | BV_NAND | BV_NEG | BV_NOR
  | BV_NOT | BV_OR | BV_REDAND | BV_REDOR | BV_REDXOR | BV_ROL | BV_ROR
  | BV_SADD_OVERFLOW | BV_SDIV_OVERFLOW | BV_SDIV | BV_SGE | BV_SGT
  | BV_SHL | BV_SHR | BV_SLE | BV_SLT | BV_SMOD | BV_SMUL_OVERFLOW
  | BV_SREM | BV_SSUB_OVERFLOW | BV_SUB | BV_UADD_OVERFLOW | BV_UDIV
  | BV_UGE | BV_UGT | BV_ULE | BV_ULT | BV_UMUL_OVERFLOW | BV_UREM
  | BV_USUB_OVERFLOW | BV_XNOR | BV_XOR | BV_EXTRACT | BV_REPEAT | BV_ROLI
  | BV_RORI | BV_SIGN_EXTEND | BV_ZERO_EXTEND | FP_ABS | FP_ADD | FP_DIV
  | FP_EQ | FP_FMA | FP_FP | FP_GEQ | FP_GT | FP_IS_INF | FP_IS_NAN
  | FP_IS_NEG | FP_IS_NORMAL | FP_IS_POS | FP_IS_SUBNORMAL | FP_IS_ZERO
  | FP_LEQ | FP_LT | FP_MAX | FP_MIN | FP_MUL | FP_NEG | FP_REM | FP_RTI
  | FP_SQRT | FP_SUB | FP_TO_FP_FROM_BV | FP_TO_FP_FROM_FP
  | FP_TO_FP_FROM_SBV | FP_TO_FP_FROM_UBV | FP_TO_SBV | FP_TO_UBV.

Definition kind_tag (k : Kind) : positive :=
  match k with
  | NULL_NODE => 1 | CONSTANT => 2 | VALUE => 3 | VARIABLE => 4 | AND => 5
  | OR => 6 | NOT => 7 | XOR => 8 | IFF => 9 | IMPLIES => 10 | ITE => 11
  | EQUAL => 12 | DISTINCT => 13 | APPLY => 14 | LAMBDA => 15
  | FORALL => 16 | EXISTS => 17 | ARRAY_SELECT => 18 | ARRAY_STORE => 19
  | BV_ADD => 20 | BV_AND => 21 | BV_ASHR => 22 | BV_COMP => 23
  | BV_CONCAT => 24 | BV_DEC => 25 | BV_INC => 26 | BV_MUL => 27
  | BV_NAND => 28 | BV_NEG => 29 | BV_NOR => 30 | BV_NOT => 31
  | BV_OR => 32 | BV_REDAND => 33 | BV_REDOR => 34 | BV_REDXOR => 35
  | BV_ROL => 36 | BV_ROR => 37 | BV_SADD_OVERFLOW => 38
  | BV_SDIV_OVERFLOW => 39 | BV_SDIV => 40 | BV_SGE => 41 | BV_SGT => 42
  | BV_SHL => 43 | BV_SHR => 44 | BV_SLE => 45 | BV_SLT => 46
  | BV_SMOD => 47 | BV_SMUL_OVERFLOW => 48 | BV_SREM => 49
  | BV_SSUB_OVERFLOW => 50 | BV_SUB => 51 | BV_UADD_OVERFLOW => 52
  | BV_UDIV => 53 | BV_UGE => 54 | BV_UGT => 55 | BV_ULE => 56
  | BV_ULT => 57 | BV_UMUL_OVERFLOW => 58 | BV_UREM => 59
  | BV_USUB_OVERFLOW => 60 | BV_XNOR => 61 | BV_XOR => 62
  | BV_EXTRACT => 63 | BV_REPEAT => 64 | BV_ROLI => 65 | BV_RORI => 66
  | BV_SIGN_EXTEND => 67 | BV_ZERO_EXTEND => 68 | FP_ABS => 69
  | FP_ADD => 70 | FP_DIV => 71 | FP_EQ => 72 | FP_FMA => 73 | FP_FP => 74
  | FP_GEQ => 75 | FP_GT => 76 | FP_IS_INF => 77 | FP_IS_NAN => 78
  | FP_IS_NEG => 79 | FP_IS_NORMAL => 80 | FP_IS_POS => 81
  | FP_IS_SUBNORMAL => 82 | FP_IS_ZERO => 83 | FP_LEQ => 84 | FP_LT => 85
  | FP_MAX => 86 | FP_MIN => 87 | FP_MUL => 88 | FP_NEG => 89
  | FP_REM => 90 | FP_RTI => 91 | FP_SQRT => 92 | FP_SUB => 93
  | FP_TO_FP_FROM_BV => 94 | FP_TO_FP_FROM_FP => 95
  | FP_TO_FP_FROM_SBV => 96 | FP_TO_FP_FROM_UBV => 97 | FP_TO_SBV => 98
  | FP_TO_UBV => 99
  end%positive.

Definition kind_of_tag (p : positive) : Kind :=
  match p with
  | 1 => NULL_NODE | 2 => CONSTANT | 3 => VALUE | 4 => VARIABLE | 5 => AND
  | 6 => OR | 7 => NOT | 8 => XOR | 9 => IFF | 10 => IMPLIES | 11 => ITE
  | 12 => EQUAL | 13 => DISTINCT | 14 => APPLY | 15 => LAMBDA
  | 16 => FORALL | 17 => EXISTS | 18 => ARRAY_SELECT | 19 => ARRAY_STORE
  | 20 => BV_ADD | 21 => BV_AND | 22 => BV_ASHR | 23 => BV_COMP
  | 24 => BV_CONCAT | 25 => BV_DEC | 26 => BV_INC | 27 => BV_MUL
  | 28 => BV_NAND | 29 => BV_NEG | 30 => BV_NOR | 31 => BV_NOT
  | 32 => BV_OR | 33 => BV_REDAND | 34 => BV_REDOR | 35 => BV_REDXOR
  | 36 => BV_ROL | 37 => BV_ROR | 38 => BV_SADD_OVERFLOW
  | 39 => BV_SDIV_OVERFLOW | 40 => BV_SDIV | 41 => BV_SGE | 42 => BV_SGT
  | 43 => BV_SHL | 44 => BV_SHR | 45 => BV_SLE | 46 => BV_SLT
  | 47 => BV_SMOD | 48 => BV_SMUL_OVERFLOW | 49 => BV_SREM
  | 50 => BV_SSUB_OVERFLOW | 51 => BV_SUB | 52 => BV_UADD_OVERFLOW
  | 53 => BV_UDIV | 54 => BV_UGE | 55 => BV_UGT | 56 => BV_ULE
  | 57 => BV_ULT | 58 => BV_UMUL_OVERFLOW | 59 => BV_UREM
  | 60 => BV_USUB_OVERFLOW | 61 => BV_XNOR | 62 => BV_XOR
  | 63 => BV_EXTRACT | 64 => BV_REPEAT | 65 => BV_ROLI | 66 => BV_RORI
  | 67 => BV_SIGN_EXTEND | 68 => BV_ZERO_EXTEND | 69 => FP_ABS
  | 70 => FP_ADD | 71 => FP_DIV | 72 => FP_EQ | 73 => FP_FMA | 74 => FP_FP
  | 75 => FP_GEQ | 76 => FP_GT | 77 => FP_IS_INF | 78 => FP_IS_NAN
  | 79 => FP_IS_NEG | 80 => FP_IS_NORMAL | 81 => FP_IS_POS
  | 82 => FP_IS_SUBNORMAL | 83 => FP_IS_ZERO | 84 => FP_LEQ | 85 => FP_LT
  | 86 => FP_MAX | 87 => FP_MIN | 88 => FP_MUL | 89 => FP_NEG
  | 90 => FP_REM | 91 => FP_RTI | 92 => FP_SQRT | 93 => FP_SUB
  | 94 => FP_TO_FP_FROM_BV | 95 => FP_TO_FP_FROM_FP
  | 96 => FP_TO_FP_FROM_SBV | 97 => FP_TO_FP_FROM_UBV | 98 => FP_TO_SBV
  | 99 => FP_TO_UBV
  | _ => NULL_NODE
  end%positive.

Definition kind_eqb (a b : Kind) : bool := Pos.eqb (kind_tag a) (kind_tag b).

(** ** Nodes *)

(** A node of the term DAG.  [Null] is the default-constructed [Node()].
    A constant is a fresh symbol of its sort: [uid] tells two constants
    of one sort apart.  Values carry their bit-vector or Boolean. *)
Inductive Node : Set :=
  | Null
  | Const (sort : Sort) (uid : Z)
  | BvValue (v : BitVector.t)
  | BoolValue (b : bool)
  | Op (k : Kind) (children : list Node) (indices : list Z).

Definition kind (n : Node) : Kind :=
  match n with
  | Null => NULL_NODE
  | Const _ _ => CONSTANT
  | BvValue _ | BoolValue _ => VALUE
  | Op k _ _ => k
  end.

Definition children (n : Node) : list Node :=
  match n with Op _ cs _ => cs | _ => [] end.

Definition indices (n : Node) : list Z :=
  match n with Op _ _ ix => ix | _ => [] end.

Definition is_null (n : Node) : bool :=
  match n with Null => true | _ => false end.

(** [n[i]] *)
Definition child (n : Node) (i : nat) : Node := nth i (children n) Null.

Definition is_value (n : Node) : bool :=
  match n with BvValue _ | BoolValue _ => true | _ => false end.

(** [n.value<BitVector>()] *)
Definition value_bv (n : Node) : BitVector.t :=
  match n with BvValue v => v | _ => BitVector.mk_zero 0 end.

(** [n.is_inverted()]: the node is a negation. *)
Definition is_inverted (n : Node) : bool :=
  kind_eqb (kind n) NOT || kind_eqb (kind n) BV_NOT.

Fixpoint list_eqb {A : Type} (eqb : A -> A -> bool) (l l' : list A) : bool :=
  match l, l' with
  | [], [] => true
  | x :: r, y :: r' => eqb x y && list_eqb eqb r r'
  | _, _ => false
  end.

(** [a == b] on nodes. *)
Fixpoint node_eqb (a b : Node) {struct a} : bool :=
  match a, b with
  | Null, Null => true
  | Const s u, Const s' u' => sort_eqb s s' && (u =? u')
  | BvValue v, BvValue v' => BitVector.eqb v v'
  | BoolValue x, BoolValue y => Bool.eqb x y
  | Op k cs ix, Op k' cs' ix' =>
      kind_eqb k k'
      && (fix all2 (l l' : list Node) {struct l} : bool :=
            match l, l' with
            | [], [] => true
            | x :: r, y :: r' => node_eqb x y && all2 r r'
            | _, _ => false
            end) cs cs'
      && list_eqb Z.eqb ix ix'
  | _, _ => false
  end.

(** Modelled from the spec (section 3, well-sortedness; section 6.2): the
    sort the node manager computes for a node, [n.type()].  A Boolean
    operator or a predicate is Boolean; a bit-vector operator has the
    width of its first child unless it produces a different width
    (extract, concat, repeat, extension, comp, reduction).  The pass
    reads only the width of bit-vector terms from it. *)
Fixpoint type (n : Node) : Sort :=
  match n with
  | Null => SBool
  | Const s _ => s
  | BvValue v => SBitVec (BitVector.size v)
  | BoolValue _ => SBool
  | Op k cs ix =>
      let t0 := match cs with c :: _ => type c | [] => SBool end in
      let t1 := match cs with _ :: c :: _ => type c | _ => SBool end in
      match k with
      | ITE => t1
      | BV_EXTRACT =>
          match ix with u :: l :: _ => SBitVec (u - l + 1) | _ => t0 end
      | BV_CONCAT => SBitVec (bv_size t0 + bv_size t1)
      | BV_REPEAT =>
          match ix with r :: _ => SBitVec (r * bv_size t0) | _ => t0 end
      | BV_SIGN_EXTEND | BV_ZERO_EXTEND =>
          match ix with e :: _ => SBitVec (bv_size t0 + e) | _ => t0 end
      | BV_COMP | BV_REDAND | BV_REDOR | BV_REDXOR => SBitVec 1
      | BV_ADD | BV_AND | BV_ASHR | BV_DEC | BV_INC | BV_MUL | BV_NAND
      | BV_NEG | BV_NOR | BV_NOT | BV_OR | BV_ROL | BV_ROR | BV_SDIV
      | BV_SHL | BV_SHR | BV_SMOD | BV_SREM | BV_SUB | BV_UDIV | BV_UREM
      | BV_XNOR | BV_XOR | BV_ROLI | BV_RORI => t0
      | ARRAY_SELECT =>
          match t0 with SArray _ e => e | _ => SBool end
      | ARRAY_STORE => t0
      | APPLY =>
          match t0 with SFun _ c => c | _ => SBool end
      | LAMBDA => SFun [t0] t1
      | FP_ABS | FP_NEG | FP_REM | FP_MIN | FP_MAX => t0
      | FP_ADD | FP_SUB | FP_MUL | FP_DIV | FP_FMA | FP_SQRT | FP_RTI => t1
      | FP_FP =>
          match cs with
          | _ :: e :: s :: _ =>
              SFloatingPoint (bv_size (type e)) (bv_size (type s) + 1)
          | _ => SBool
          end
      | FP_TO_FP_FROM_BV | FP_TO_FP_FROM_FP | FP_TO_FP_FROM_SBV
      | FP_TO_FP_FROM_UBV =>
          match ix with e :: s :: _ => SFloatingPoint e s | _ => SBool end
      | FP_TO_SBV | FP_TO_UBV =>
          match ix with w :: _ => SBitVec w | _ => SBool end
      | _ => SBool
      end
  end.

(** The node manager, [NodeManager& nm]: by hash-consing,
    [nm.mk_node(k, children, indices)] and [nm.mk_value(v)] are the node
    with that tuple. *)
Module nm.
Definition mk_node (k : Kind) (cs : list Node) : Node := Op k cs [].
Definition mk_node_indexed (k : Kind) (cs : list Node) (ix : list Z) : Node :=
  Op k cs ix.
Definition mk_value (v : BitVector.t) : Node := BvValue v.
Definition mk_value_bool (b : bool) : Node := BoolValue b.
End nm.

(** ** Containers keyed by nodes *)

(** [std::unordered_map<Node, V>]: only looked up and updated by key in
    the code below, never iterated where the order would show. *)
Definition NodeMap (V : Type) : Type := list (Node * V).

Fixpoint nmap_find {V : Type} (m : NodeMap V) (k : Node) : option V :=
  match m with
  | [] => None
  | (k', v) :: r => if node_eqb k' k then Some v else nmap_find r k
  end.

(** [m[k] = v] *)
Fixpoint nmap_set {V : Type} (m : NodeMap V) (k : Node) (v : V) : NodeMap V :=
  match m with
  | [] => [(k, v)]
  | (k', v') :: r =>
      if node_eqb k' k then (k', v) :: r else (k', v') :: nmap_set r k v
  end.

(** [m.emplace(k, v)]: the map and whether the key was inserted. *)
Definition nmap_emplace {V : Type} (m : NodeMap V) (k : Node) (v : V)
  : NodeMap V * bool :=
  match nmap_find m k with
  | Some _ => (m, false)
  | None => (m ++ [(k, v)], true)
  end.

(** [std::unordered_set<Node>] *)
Definition NodeSet : Type := list Node.

Definition ns_mem (s : NodeSet) (k : Node) : bool := existsb (node_eqb k) s.

(** [s.insert(k)]: the set and whether the element was inserted. *)
Definition ns_insert (s : NodeSet) (k : Node) : NodeSet * bool :=
  if ns_mem s k then (s, false) else (k :: s, true).

(** [PassNormalize::ParentsMap]: node to number of parents ([uint64_t]). *)
Definition ParentsMap : Type := NodeMap Z.

(** [parents[k]] as an rvalue: [operator[]] inserts 0 for a new key. *)
Definition pm_index (m : ParentsMap) (k : Node) : Z * ParentsMap :=
  match nmap_find m k with
  | Some v => (v, m)
  | None => (0, m ++ [(k, 0)])
  end.

(** [parents[k] += 1] *)
Definition pm_incr (m : ParentsMap) (k : Node) : ParentsMap :=
  let '(v, m') := pm_index m k in nmap_set m' k (u64 (v + 1)).

(** [do body while (cond)] *)
Fixpoint do_while {S : Type} (fuel : nat) (body : S -> Res S)
  (cond : S -> bool) (s : S) : Res S :=
  match fuel with
  | O => fail OutOfFuel
  | Datatypes.S fuel' =>
      s' ← body s;
      if cond s' then do_while fuel' body cond s' else ok s'
  end.

(** [while (cond) body] *)
Fixpoint while_do {S : Type} (fuel : nat) (cond : S -> bool)
  (body : S -> Res S) (s : S) : Res S :=
  if cond s then
    match fuel with
    | O => fail OutOfFuel
    | Datatypes.S fuel' => s' ← body s; while_do fuel' cond body s'
    end
  else ok s.

(** [for (x : l) body] over a state that may fail. *)
Fixpoint for_each {A S : Type} (l : list A) (body : A -> S -> Res S) (s : S)
  : Res S :=
  match l with
  | [] => ok s
  | x :: r => s' ← body x s; for_each r body s'
  end.

Definition nonempty {A : Type} (l : list A) : bool :=
  match l with [] => false | _ => true end.

(** * The normalization pass, normalize.cpp *)

Section PassNormalize.

(** [n.id()], the identifier the node manager gave to a node; nodes are
    ordered by it ([operator<]). *)
Context (node_id : Node -> Z).
(** Whether the build defines [NDEBUG]. *)
Context (NDEBUG : bool).
(** Bound on the iterations of every work-list loop. *)
Context (fuel : nat).
(** Option [preprocess.normalize.share-aware]. *)
Context (d_share_aware : bool).

Definition node_lt (a b : Node) : bool := node_id a <? node_id b.

(** [PassNormalize::CoefficientsMap], a [std::map<Node, BitVector>]: the
    entries in ascending order of the keys. *)
Definition CoefficientsMap : Type := list (Node * BitVector.t).

Fixpoint cm_find (m : CoefficientsMap) (k : Node) : option BitVector.t :=
  match m with
  | [] => None
  | (k', v) :: r => if node_id k' =? node_id k then Some v else cm_find r k
  end.

(** [m.emplace(k, v)] *)
Fixpoint cm_emplace (m : CoefficientsMap) (k : Node) (v : BitVector.t)
  : CoefficientsMap * bool :=
  match m with
  | [] => ([(k, v)], true)
  | (k', v') :: r =>
      if node_id k <? node_id k' then ((k, v) :: m, true)
      else if node_id k' <? node_id k then
        let '(r', b) := cm_emplace r k v in ((k', v') :: r', b)
      else (m, false)
  end.

(** [it->second = f(it->second)] for the entry of [k]. *)
Fixpoint cm_alter (f : BitVector.t -> BitVector.t) (m : CoefficientsMap)
  (k : Node) : CoefficientsMap :=
  match m with
  | [] => []
  | (k', v) :: r =>
      if node_id k' =? node_id k then (k', f v) :: r
      else (k', v) :: cm_alter f r k
  end.

(** The idiom
    [auto [it, inserted] = m.emplace(k, v); if (!inserted) it->second = f(it->second);] *)
Definition cm_emplace_or (f : BitVector.t -> BitVector.t)
  (m : CoefficientsMap) (k : Node) (v : BitVector.t) : CoefficientsMap :=
  let '(m', inserted) := cm_emplace m k v in
  if inserted then m' else cm_alter f m' k.

Definition is_add_or_mul (k : Kind) : bool :=
  kind_eqb k BV_ADD || kind_eqb k BV_MUL.

(** ** [_count_parents] *)

Definition count_parents_step (k : Kind)
  (st : list Node * NodeSet * ParentsMap) : Res (list Node * NodeSet * ParentsMap) :=
  let '(visit, cache, parents) := st in
  match visit with
  | [] => fail Undefined
  | cur :: visit' =>
      let '(cache', inserted) := ns_insert cache cur in
      if inserted
         && (kind_eqb (kind cur) k
             || (kind_eqb k BV_ADD && is_inverted cur
                 && kind_eqb (kind (child cur 0)) k))
      then
        let '(visit'', parents') :=
          fold_left (fun '(v, p) c => (c :: v, pm_incr p c)) (children cur)
            (visit', parents) in
        ok (visit'', cache', parents')
      else ok (visit', cache', parents)
  end.

Definition _count_parents (nodes : list Node) (k : Kind) (parents : ParentsMap)
  : Res ParentsMap :=
  '(_, parents') ←
    for_each nodes
      (fun n '(cache, parents) =>
         '(_, cache', parents') ←
           do_while fuel (count_parents_step k)
             (fun '(visit, _, _) => nonempty visit)
             ([n], cache, pm_incr parents n);
         ok (cache', parents'))
      ([], parents);
  ok parents'.

(** ** [is_leaf] and [compute_coefficients] *)

Definition is_leaf (k : Kind) (node : Node)
  (parents parents_in_chain : ParentsMap) : bool :=
  if negb (kind_eqb (kind node) k) then true
  else
    match nmap_find parents node with
    | None => false
    | Some p =>
        match nmap_find parents_in_chain node with
        | None => false
        | Some pp => pp <? p
        end
    end.

(** The state of the first loop: the stack [visit] (its back first),
    [nodes], [intermediate] and [cfs]. *)
Definition collect_state : Type :=
  (list Node * list Node * NodeSet * NodeMap BitVector.t)%type.

Definition collect_step (d_parents : ParentsMap) (k : Kind)
  (parents : ParentsMap) (zero : BitVector.t) (st : collect_state)
  : Res collect_state :=
  let '(visit, nodes, intermediate, cfs) := st in
  match visit with
  | [] => fail Undefined
  | cur :: visit' =>
      let '(cfs', inserted) := nmap_emplace cfs cur zero in
      if inserted then
        let nodes' := nodes ++ [cur] in
        if kind_eqb (kind cur) k then
          if d_share_aware then
            _ ← c_assert NDEBUG (bool_decide (is_Some (nmap_find parents cur)));
            if is_leaf k cur d_parents parents
            then ok (visit', nodes', intermediate, cfs')
            else ok (rev (children cur) ++ visit', nodes',
                     cur :: intermediate, cfs')
          else ok (rev (children cur) ++ visit', nodes',
                   cur :: intermediate, cfs')
        else ok (visit', nodes', intermediate, cfs')
      else ok (visit', nodes, intermediate, cfs')
  end.

(** The second loop, for one node [cur] taken in descending order of id. *)
Definition push_step (k : Kind) (intermediate : NodeSet) (cur : Node)
  (st : NodeMap BitVector.t * CoefficientsMap)
  : Res (NodeMap BitVector.t * CoefficientsMap) :=
  let '(cfs, coeffs) := st in
  match nmap_find cfs cur with
  | None => fail Undefined
  | Some c =>
      if ns_mem intermediate cur then
        _ ← c_assert NDEBUG (kind_eqb (kind cur) k);
        cfs' ←
          for_each (children cur)
            (fun ch cfs =>
               match nmap_find cfs ch with
               | None => fail Undefined
               | Some cc => ok (nmap_set cfs ch (BitVector.bvadd cc c))
               end)
            cfs;
        ok (cfs', coeffs)
      else
        ok (cfs, cm_emplace_or (fun old => BitVector.bvadd old c) coeffs cur c)
  end.

(** [compute_coefficients(node, kind, parents, coeffs)]: the new [coeffs].
    [d_parents] is the member of that name. *)
Definition compute_coefficients (d_parents : ParentsMap) (node : Node)
  (k : Kind) (parents : ParentsMap) (coeffs : CoefficientsMap)
  : Res CoefficientsMap :=
  let zero := BitVector.mk_zero (bv_size (type node)) in
  '(_, nodes, intermediate, cfs) ←
    do_while fuel (collect_step d_parents k parents zero)
      (fun '(visit, _, _, _) => nonempty visit)
      ([node], [], [], []);
  let nodes := std_sort node_lt nodes in
  _ ← c_assert NDEBUG (node_eqb (List.last nodes Null) node);
  match nmap_find cfs node with
  | None => fail Undefined
  | Some c0 =>
      let cfs := nmap_set cfs node (BitVector.bvinc c0) in
      '(_, coeffs') ← for_each (rev nodes) (push_step k intermediate) (cfs, coeffs);
      ok coeffs'
  end.

(** ** [compute_common_coefficients] *)

(** The two maps after the subtraction and the common coefficients. *)
Definition compute_common_coefficients (lhs rhs : CoefficientsMap)
  : CoefficientsMap * CoefficientsMap * CoefficientsMap :=
  fold_left
    (fun '(lhs, rhs, common) k =>
       match cm_find lhs k, cm_find rhs k with
       | Some c0, Some c1 =>
           let occs := if BitVector.compare c0 c1 <=? 0 then c0 else c1 in
           if BitVector.is_zero occs then (lhs, rhs, common)
           else
             (cm_alter (fun c => BitVector.bvsub c occs) lhs k,
              cm_alter (fun c => BitVector.bvsub c occs) rhs k,
              fst (cm_emplace common k occs))
       | _, _ => (lhs, rhs, common)
       end)
    (map fst lhs) (lhs, rhs, []).

(** ** [PassNormalize::mk_node] *)

(** [coeff.is_one() ? node : nm.mk_node(Kind::BV_MUL, {nm.mk_value(coeff), node})] *)
Definition scaled (node : Node) (coeff : BitVector.t) : Node :=
  if BitVector.is_one coeff then node
  else nm.mk_node BV_MUL [nm.mk_value coeff; node].

(** [while (coeffs_vec.back().second.is_zero()) coeffs_vec.pop_back();]
    on the reversed vector. *)
Fixpoint pop_zero_back (rv : list (Node * BitVector.t))
  : Res (list (Node * BitVector.t)) :=
  match rv with
  | [] => fail Undefined
  | (n, c) :: r => if BitVector.is_zero c then pop_zero_back r else ok rv
  end.

(** The [for] loop of the multiplication case: [prev] is [coeffs_vec[i - 1]]
    as the previous iteration left it. *)
Fixpoint mul_pass (k : Kind) (prev : Node * BitVector.t)
  (rest : list (Node * BitVector.t)) : Res (list (Node * BitVector.t)) :=
  match rest with
  | [] => ok [prev]
  | (n, occs) :: rest' =>
      _ ← c_assert NDEBUG (0 <=? BitVector.compare (snd prev) occs);
      r ← mul_pass k (nm.mk_node k [fst prev; n], occs) rest';
      ok ((fst prev, BitVector.bvsub (snd prev) occs) :: r)
  end.

(** [std::sort] where different elements can compare equal, as the
    entries of [coeffs_vec] by their coefficient: the standard leaves the
    order of such elements open, so the sort of the standard library in
    use is a parameter.  (An insertion sort that keeps them in their
    order of arrival is [std_sort].) *)
Context (unstable_sort : forall A : Type, (A -> A -> bool) -> list A -> list A).

Definition mul_round (k : Kind) (v : list (Node * BitVector.t))
  : Res (list (Node * BitVector.t)) :=
  let v :=
    unstable_sort _ (fun a b => 0 <? BitVector.compare (snd a) (snd b)) v in
  rv ← pop_zero_back (rev v);
  match rev rv with
  | [] => fail Undefined
  | first :: rest => mul_pass k first rest
  end.

(** [mk_node(kind, coeffs)] *)
Definition mk_node (k : Kind) (coeffs : CoefficientsMap) : Res Node :=
  _ ← c_assert NDEBUG (is_add_or_mul k);
  match coeffs with
  | [] => ok Null
  | _ =>
      let coeffs_vec :=
        std_sort (fun a b => node_id (fst a) <? node_id (fst b)) coeffs in
      if kind_eqb k BV_ADD then
        match coeffs_vec with
        | [] => fail Undefined
        | (node, coeff) :: rest =>
            _ ← c_assert NDEBUG (negb (BitVector.is_zero coeff));
            ok (fold_left
                  (fun res '(node, coeff) =>
                     nm.mk_node BV_ADD [res; scaled node coeff])
                  rest (scaled node coeff))
        end
      else
        _ ← c_assert NDEBUG (kind_eqb k BV_MUL);
        v ← while_do fuel (fun v => 1 <? Z.of_nat (List.length v)) (mul_round k)
              coeffs_vec;
        match rev v with
        | [] => fail Undefined
        | (node, cf) :: _ =>
            _ ← c_assert NDEBUG
                  (BitVector.size cf - BitVector.count_leading_zeros cf <=? 64);
            ok (Nat.iter (Z.to_nat (BitVector.to_uint64 cf - 1))
                  (fun res => nm.mk_node k [res; node]) node)
        end
  end.

(** ** [normalize_add] *)

(** The state of one pass of the [for] loop over [coeffs]. *)
Record add_state : Type := AddState {
  as_coeffs : CoefficientsMap;
  as_value : BitVector.t;
  as_parents : ParentsMap;
  as_cache : NodeSet
}.

(** The third alternative, [else if (cur.is_inverted())]. *)
Definition add_inverted (bvzero : BitVector.t) (cur : Node)
  (cur_coeff : BitVector.t) (st : add_state) : add_state :=
  if is_inverted cur then
    match cm_find (as_coeffs st) (child cur 0) with
    | Some _ =>
        let value := BitVector.bvadd (as_value st) (BitVector.bvneg cur_coeff) in
        let coeffs :=
          cm_alter (fun c => BitVector.bvsub c cur_coeff) (as_coeffs st)
            (child cur 0) in
        let coeffs := cm_alter (fun _ => bvzero) coeffs cur in
        AddState coeffs value (as_parents st) (as_cache st)
    | None => st
    end
  else st.

(** The second alternative: [~x = -x - 1] for an inverted adder. *)
Definition add_push_neg (d_parents : ParentsMap) (bvzero : BitVector.t)
  (cur : Node) (cur_coeff : BitVector.t) (st : add_state) : Res add_state :=
  let '(cache, inserted) := ns_insert (as_cache st) cur in
  _ ← c_assert NDEBUG inserted;
  let coeff := BitVector.bvneg cur_coeff in
  let coeffs := cm_alter (fun _ => bvzero) (as_coeffs st) cur in
  cfs ← compute_coefficients d_parents (child cur 0) (kind (child cur 0))
          (as_parents st) [];
  let '(coeffs, value) :=
    fold_left
      (fun '(coeffs, value) '(c, cf) =>
         let cf := BitVector.bvmul cf coeff in
         if is_value c then
           (coeffs, BitVector.bvadd value (BitVector.bvmul (value_bv c) cf))
         else
           (cm_emplace_or (fun old => BitVector.bvadd old cf) coeffs c cf, value))
      cfs (coeffs, as_value st) in
  ok (AddState coeffs (BitVector.bvadd value coeff) (as_parents st) cache).

(** One pass of [for (auto it = coeffs.rbegin(); ...)] over the keys
    [keys]; the Boolean is [progress] (the pass ended in [break]). *)
Fixpoint add_pass (d_parents : ParentsMap) (push_neg : bool)
  (bvzero : BitVector.t) (keys : list Node) (st : add_state)
  : Res (add_state * bool) :=
  match keys with
  | [] => ok (st, false)
  | cur :: rest =>
      match cm_find (as_coeffs st) cur with
      | None => fail Undefined
      | Some cur_coeff =>
          if BitVector.is_zero cur_coeff then
            add_pass d_parents push_neg bvzero rest st
          else if is_value cur then
            add_pass d_parents push_neg bvzero rest
              (AddState
                 (cm_alter (fun _ => bvzero) (as_coeffs st) cur)
                 (BitVector.bvadd (as_value st)
                    (BitVector.bvmul (value_bv cur) cur_coeff))
                 (as_parents st) (as_cache st))
          else if push_neg && is_inverted cur
                  && kind_eqb (kind (child cur 0)) BV_ADD then
            let '(p, parents) := pm_index (as_parents st) (child cur 0) in
            let st := AddState (as_coeffs st) (as_value st) parents (as_cache st) in
            if p <=? 1 then
              st' ← add_push_neg d_parents bvzero cur cur_coeff st;
              ok (st', true)
            else
              add_pass d_parents push_neg bvzero rest
                (add_inverted bvzero cur cur_coeff st)
          else
            add_pass d_parents push_neg bvzero rest
              (add_inverted bvzero cur cur_coeff st)
      end
  end.

(** [normalize_add(node, coeffs, parents, keep_value, push_neg)]: the
    returned value with the new [coeffs] and [parents]. *)
Definition normalize_add (d_parents : ParentsMap) (node : Node)
  (coeffs : CoefficientsMap) (parents : ParentsMap)
  (keep_value push_neg : bool)
  : Res (BitVector.t * CoefficientsMap * ParentsMap) :=
  _ ← c_assert NDEBUG (kind_eqb (kind node) BV_ADD);
  let bv_size := bv_size (type node) in
  let bvzero := BitVector.mk_zero bv_size in
  '(st, _) ←
    do_while fuel
      (fun '(st, _) =>
         add_pass d_parents push_neg bvzero (rev (map fst (as_coeffs st))) st)
      (fun '(_, progress) => progress)
      (AddState coeffs bvzero parents [], false);
  let value := as_value st in
  if keep_value && negb (BitVector.is_zero value) then
    let val := nm.mk_value value in
    ok (value,
        cm_emplace_or BitVector.bvinc (as_coeffs st) val
          (BitVector.mk_one (BitVector.size value)),
        as_parents st)
  else ok (value, as_coeffs st, as_parents st).

(** ** [normalize_mul] *)

(** [normalize_mul(node, coeffs, keep_value)] *)
Definition normalize_mul (node : Node) (coeffs : CoefficientsMap)
  (keep_value : bool) : Res (BitVector.t * CoefficientsMap) :=
  _ ← c_assert NDEBUG (kind_eqb (kind node) BV_MUL);
  let bv_size := bv_size (type node) in
  let bvzero := BitVector.mk_zero bv_size in
  '(coeffs, value) ←
    for_each (map fst coeffs)
      (fun cur '(coeffs, value) =>
         if is_value cur then
           match cm_find coeffs cur with
           | None => fail Undefined
           | Some c =>
               _ ← c_assert NDEBUG (BitVector.fits_in_64 c);
               ok (cm_alter (fun _ => bvzero) coeffs cur,
                   Nat.iter (Z.to_nat (BitVector.to_uint64 c))
                     (fun v => BitVector.bvmul v (value_bv cur)) value)
           end
         else ok (coeffs, value))
      (coeffs, BitVector.mk_one bv_size);
  if keep_value && negb (BitVector.is_one value) then
    let val := nm.mk_value value in
    ok (value,
        cm_emplace_or BitVector.bvinc coeffs val
          (BitVector.mk_one (BitVector.size value)))
  else ok (value, coeffs).

(** ** [remove_zero_coeffs] and [normalize_common] *)

Definition remove_zero_coeffs (coeffs : CoefficientsMap) : CoefficientsMap :=
  List.filter (fun e => negb (BitVector.is_zero (snd e))) coeffs.

(** [normalize_common(kind, lhs, rhs)]: the pair [{left, right}] and the
    maps [lhs] and [rhs] as the call leaves them. *)
Definition normalize_common (k : Kind) (lhs rhs : CoefficientsMap)
  : Res (Node * Node * CoefficientsMap * CoefficientsMap) :=
  _ ← c_assert NDEBUG (nonempty lhs);
  _ ← c_assert NDEBUG (nonempty rhs);
  match lhs, rhs with
  | (l0, _) :: _, (r0, _) :: _ =>
      let lhs_size := bv_size (type l0) in
      let rhs_size := bv_size (type r0) in
      let '(lhs, rhs, common_coeffs) := compute_common_coefficients lhs rhs in
      common ← mk_node k common_coeffs;
      let '(lhs, rhs) :=
        if negb (is_null common) then
          (cm_emplace_or BitVector.bvinc lhs common (BitVector.mk_one lhs_size),
           cm_emplace_or BitVector.bvinc rhs common (BitVector.mk_one rhs_size))
        else (lhs, rhs) in
      let lhs := remove_zero_coeffs lhs in
      let rhs := remove_zero_coeffs rhs in
      left ←
        (if nonempty lhs then mk_node k lhs
         else ok (nm.mk_value (BitVector.mk_zero lhs_size)));
      right ←
        (if nonempty rhs then mk_node k rhs
         else ok (nm.mk_value (BitVector.mk_zero rhs_size)));
      ok (left, right, lhs, rhs)
  | _, _ => fail Undefined
  end.

(** ** [get_top] and [rebuild_top] *)

(** [k == BV_NOT || k == BV_SHL || k == BV_SHR || k == BV_EXTRACT] *)
Definition is_unary_wrapper (k : Kind) : bool :=
  kind_eqb k BV_NOT || kind_eqb k BV_SHL || kind_eqb k BV_SHR
  || kind_eqb k BV_EXTRACT.

(** [get_top(node)]: the loop moves to a child until it breaks. *)
Fixpoint get_top (node : Node) : Node :=
  match node with
  | Op k cs _ =>
      let top0 := match cs with c :: _ => get_top c | [] => Null end in
      let top1 := match cs with _ :: c :: _ => get_top c | _ => Null end in
      if is_unary_wrapper k then top0
      else if kind_eqb k BV_CONCAT && is_value (child node 0) then top1
      else if kind_eqb k BV_CONCAT && is_value (child node 1) then top0
      else node
  | _ => node
  end.

(** Modelled from the spec: [node::utils::rebuild_node] (node/node_utils.h)
    is not part of the sources.  It is the node of the same kind and
    indices over the given children. *)
Definition rebuild_node (cur : Node) (new_children : list Node) : Node :=
  if list_eqb node_eqb new_children (children cur) then cur
  else nm.mk_node_indexed (kind cur) new_children (indices cur).

(** The overload that reads the new children from a cache. *)
Definition rebuild_node_cached (cur : Node) (cache : NodeMap Node) : Res Node :=
  cs ←
    for_each (children cur)
      (fun c acc =>
         match nmap_find cache c with
         | None => fail Undefined
         | Some n => _ ← c_assert NDEBUG (negb (is_null n)); ok (acc ++ [n])
         end)
      [];
  ok (rebuild_node cur cs).

Definition rebuild_top_step (top normalized : Node)
  (st : list Node * NodeMap Node) : Res (list Node * NodeMap Node) :=
  let '(visit, cache) := st in
  match visit with
  | [] => fail Undefined
  | cur :: visit' =>
      let keep := fun (cache : NodeMap Node) (c : Node) =>
                    fst (nmap_emplace cache c c) in
      match nmap_find cache cur with
      | None =>
          let cache := nmap_set cache cur Null in
          let k := kind cur in
          if is_unary_wrapper k then
            ok (child cur 0 :: visit,
                fold_left keep (tail (children cur)) cache)
          else if kind_eqb k BV_CONCAT && is_value (child cur 0) then
            ok (child cur 1 :: visit, keep cache (child cur 0))
          else if kind_eqb k BV_CONCAT && is_value (child cur 1) then
            ok (child cur 0 :: visit, keep cache (child cur 1))
          else
            _ ← c_assert NDEBUG (node_eqb cur top);
            _ ← c_assert NDEBUG (sort_eqb (type normalized) (type cur));
            ok (visit', nmap_set cache cur normalized)
      | Some d =>
          if is_null d then
            r ← rebuild_node_cached cur cache;
            _ ← c_assert NDEBUG (sort_eqb (type r) (type cur));
            ok (visit', nmap_set cache cur r)
          else ok (visit', cache)
      end
  end.

(** [rebuild_top(node, top, normalized)] *)
Definition rebuild_top (node top normalized : Node) : Res Node :=
  _ ← c_assert NDEBUG (sort_eqb (type top) (type normalized));
  '(_, cache) ←
    do_while fuel (rebuild_top_step top normalized)
      (fun '(visit, _) => nonempty visit) ([node], []);
  match nmap_find cache node with
  | Some r => ok r
  | None => fail Undefined
  end.

(** ** [normalize_comm_assoc(parent_kind, node0, node1)] *)

(** What the call computes before it decides: the sizes of the two
    coefficient maps after [compute_coefficients], the two maps after
    [normalize_common], and the normalized sides. *)
Record comm_assoc_data : Type := CommAssoc {
  ca_top_lhs : Node;
  ca_top_rhs : Node;
  ca_lhs_coeff_size : Z;
  ca_rhs_coeff_size : Z;
  ca_lhs : CoefficientsMap;
  ca_rhs : CoefficientsMap;
  ca_left : Node;
  ca_right : Node
}.

Definition size_of {A : Type} (l : list A) : Z := Z.of_nat (List.length l).

(** The kind of chain the call normalizes, if any. *)
Definition comm_assoc_kind (top_lhs top_rhs : Node) : option Kind :=
  if is_add_or_mul (kind top_lhs) then Some (kind top_lhs)
  else if is_add_or_mul (kind top_rhs) then Some (kind top_rhs)
  else None.

Definition normalize_side (d_parents : ParentsMap) (top : Node)
  (coeffs : CoefficientsMap) (parents : ParentsMap)
  : Res (CoefficientsMap * ParentsMap) :=
  if kind_eqb (kind top) BV_ADD then
    '(_, coeffs, parents) ← normalize_add d_parents top coeffs parents true true;
    ok (coeffs, parents)
  else if kind_eqb (kind top) BV_MUL then
    '(_, coeffs) ← normalize_mul top coeffs true;
    ok (coeffs, parents)
  else ok (coeffs, parents).

Definition comm_assoc_compute (d_parents : ParentsMap) (k : Kind)
  (node0 node1 : Node) : Res comm_assoc_data :=
  let top_lhs := get_top node0 in
  let top_rhs := get_top node1 in
  parents ←
    (if d_share_aware then _count_parents [top_lhs; top_rhs] k []
     else ok []);
  lhs ← compute_coefficients d_parents top_lhs k parents [];
  rhs ← compute_coefficients d_parents top_rhs k parents [];
  let lhs_coeff_size := size_of lhs in
  let rhs_coeff_size := size_of rhs in
  '(lhs, parents) ← normalize_side d_parents top_lhs lhs parents;
  '(rhs, parents) ← normalize_side d_parents top_rhs rhs parents;
  '(left_, right_, lhs, rhs) ← normalize_common k lhs rhs;
  ok (CommAssoc top_lhs top_rhs lhs_coeff_size rhs_coeff_size lhs rhs
        left_ right_).

(** The test that keeps the original term. *)
Definition comm_assoc_keep (d : comm_assoc_data) : bool :=
  (ca_lhs_coeff_size d <=? size_of (ca_lhs d))
  && (ca_rhs_coeff_size d <=? size_of (ca_rhs d)).

Definition normalize_comm_assoc (d_parents : ParentsMap) (parent_kind : Kind)
  (node0 node1 : Node) : Res (Node * bool) :=
  match comm_assoc_kind (get_top node0) (get_top node1) with
  | None => ok (nm.mk_node parent_kind [node0; node1], false)
  | Some k =>
      d ← comm_assoc_compute d_parents k node0 node1;
      if comm_assoc_keep d then
        ok (nm.mk_node parent_kind [node0; node1], false)
      else
        rebuilt_left ← rebuild_top node0 (ca_top_lhs d) (ca_left d);
        rebuilt_right ← rebuild_top node1 (ca_top_rhs d) (ca_right d);
        ok (nm.mk_node parent_kind [rebuilt_left; rebuilt_right],
            negb (node_eqb rebuilt_left node0)
            || negb (node_eqb rebuilt_right node1))
  end.

(** ** The functions around the adder chains *)

(** [a.ibvand(b)]: the bitwise conjunction. *)
Definition bvand (a b : BitVector.t) : BitVector.t :=
  BitVector.norm (BitVector.size a) (Z.land (BitVector.value a) (BitVector.value b)).

(** [cmp_repr(node)]: the loop moves to a child while the node is a
    concatenation, an extraction or a negation. *)
Fixpoint cmp_repr (node : Node) : Node :=
  match node with
  | Op k cs _ =>
      let n0 := match cs with c :: _ => cmp_repr c | [] => Null end in
      let n1 := match cs with _ :: c :: _ => cmp_repr c | _ => Null end in
      if kind_eqb k BV_CONCAT || kind_eqb k BV_EXTRACT || kind_eqb k BV_NOT
      then if kind_eqb k BV_CONCAT then n1 else n0
      else node
  | _ => node
  end.

(** The [for] loop of [sort_cmp] over the common prefix of [va] and
    [vb]: the elements at the first index where they differ. *)
Fixpoint first_difference (va vb : list Z) : option (Z * Z) :=
  match va, vb with
  | x :: ra, y :: rb => if negb (x =? y) then Some (x, y) else first_difference ra rb
  | _, _ => None
  end.

(** [sort_cmp(a, va, b, vb)] *)
Definition sort_cmp (a : Node) (va : list Z) (b : Node) (vb : list Z) : bool :=
  if negb (list_eqb Z.eqb va vb) then
    match first_difference va vb with
    | Some (x, y) => x <? y
    | None =>
        if negb (size_of va =? size_of vb) then size_of vb <? size_of va
        else node_id a <? node_id b
    end
  else node_id a <? node_id b.

(** [normalize_and(node, coeffs)]: the returned value and the new
    [coeffs]. *)
Definition normalize_and (node : Node) (coeffs : CoefficientsMap)
  : BitVector.t * CoefficientsMap :=
  let bvzero := BitVector.mk_zero (bv_size (type node)) in
  let bvone := BitVector.mk_one (bv_size (type node)) in
  fold_left
    (fun '(value, done) '(cur, c) =>
       if is_value cur then (bvand value c, done ++ [(cur, bvzero)])
       else if 0 <? BitVector.compare c bvone then (value, done ++ [(cur, bvone)])
       else (value, done ++ [(cur, c)]))
    coeffs (bvone, []).

(** [normalize_comm_assoc(node)], the overload on one chain. *)
Definition normalize_comm_assoc_node (d_parents : ParentsMap) (node : Node)
  : Res (Node * bool) :=
  _ ← c_assert NDEBUG (kind_eqb (kind node) BV_ADD || kind_eqb (kind node) BV_MUL);
  let k := kind node in
  let parents : ParentsMap := [] in
  coeffs ←
    compute_coefficients d_parents node k parents [];
  let coeffs_size := size_of coeffs in
  coeffs ←
    (if kind_eqb k BV_ADD then
       '(_, coeffs, _) ←
         normalize_add d_parents node coeffs parents true true;
       ok coeffs
     else if kind_eqb k BV_MUL then
       '(_, coeffs) ← normalize_mul node coeffs true;
       ok coeffs
     else ok coeffs);
  let coeffs := remove_zero_coeffs coeffs in
  if coeffs_size <=? size_of coeffs then ok (node, false)
  else
    res ←
      (if negb (nonempty coeffs)
       then ok (nm.mk_value (BitVector.mk_zero (bv_size (type node))))
       else mk_node k coeffs);
    ok (res, negb (node_eqb res node)).

(** The state of the loop of [collect_adders]: the stack [visit] (its
    back first), [cache] and [adders]. *)
Definition adders_state : Type :=
  (list Node * NodeSet * NodeMap CoefficientsMap)%type.

Definition collect_adders_step (d_parents : ParentsMap) (st : adders_state)
  : Res adders_state :=
  let '(visit, cache, adders) := st in
  match visit with
  | [] => fail Undefined
  | cur :: visit' =>
      let '(cache', inserted) := ns_insert cache cur in
      if inserted then
        if kind_eqb (kind cur) BV_ADD then
          let '(adders', inserted) := nmap_emplace adders cur [] in
          _ ← c_assert NDEBUG inserted;
          match nmap_find adders' cur with
          | None => fail Undefined
          | Some cm =>
              cm ←
                compute_coefficients d_parents cur (kind cur) [] cm;
              ok (rev (map fst cm) ++ visit', cache', nmap_set adders' cur cm)
          end
        else ok (rev (children cur) ++ visit', cache', adders)
      else ok (visit', cache', adders)
  end.

(** [collect_adders(assertions, adders)]: the new [adders]. *)
Definition collect_adders (d_parents : ParentsMap) (assertions : list Node)
  (adders : NodeMap CoefficientsMap) : Res (NodeMap CoefficientsMap) :=
  '(_, _, adders') ←
    do_while fuel (collect_adders_step d_parents)
      (fun '(visit, _, _) => nonempty visit)
      (rev assertions, [], adders);
  ok adders'.

(** ** Equalities over two chains of one kind *)

(** The default arguments [keep_value] and [push_neg] of [normalize_add]
    and [keep_value] of [normalize_mul], declared in normalize.h. *)
Context (default_keep_value default_push_neg : bool).
(** [node::utils::mk_nary(nm, kind, terms)] of node/node_utils.h. *)
Context (mk_nary : Kind -> list Node -> Node).

(** [normalize_coefficients_eq_add(coeffs0, coeffs1, value)]: the new
    [coeffs0], [coeffs1] and [value]. *)
Definition normalize_coefficients_eq_add (coeffs0 coeffs1 : CoefficientsMap)
  (value : BitVector.t)
  : Res (CoefficientsMap * CoefficientsMap * BitVector.t) :=
  let bv_size := BitVector.size value in
  let one := nm.mk_value (BitVector.mk_one bv_size) in
  let bvzero := BitVector.mk_zero bv_size in
  for_each coeffs0
    (fun '(cur, coeff) '(coeffs0, coeffs1, value) =>
       _ ← c_assert NDEBUG (negb (is_value cur) || BitVector.is_zero coeff);
       if BitVector.is_zero coeff then ok (coeffs0, coeffs1, value)
       else if is_inverted cur then
         let '(neg, value, coeffs0) :=
           if kind_eqb (kind (child cur 0)) BV_ADD then
             if node_eqb (child (child cur 0) 0) one then
               (child (child cur 0) 1, BitVector.bvsub value coeff,
                cm_alter (fun _ => bvzero) coeffs0 cur)
             else if node_eqb (child (child cur 0) 1) one then
               (child (child cur 0) 0, BitVector.bvsub value coeff,
                cm_alter (fun _ => bvzero) coeffs0 cur)
             else (Null, value, coeffs0)
           else (child cur 0, value, cm_alter (fun _ => bvzero) coeffs0 cur) in
         if negb (is_null neg) then
           let '(coeffs1, value) :=
             if is_value neg then
               (coeffs1,
                BitVector.bvsub value (BitVector.bvmul (value_bv neg) coeff))
             else
               (cm_emplace_or (fun old => BitVector.bvadd old coeff) coeffs1
                  neg coeff, value) in
           ok (coeffs0, coeffs1, BitVector.bvsub value coeff)
         else ok (coeffs0, coeffs1, value)
       else ok (coeffs0, coeffs1, value))
    (coeffs0, coeffs1, value).

(** The idiom that adds a folded value [v] to a map, with its assertion
    that an entry already there has coefficient zero. *)
Definition add_value_entry (coeffs : CoefficientsMap) (v : BitVector.t)
  : Res CoefficientsMap :=
  let val := nm.mk_value v in
  match cm_find coeffs val with
  | None => ok (fst (cm_emplace coeffs val (BitVector.mk_one (BitVector.size v))))
  | Some c =>
      _ ← c_assert NDEBUG (BitVector.is_zero c);
      ok (cm_alter BitVector.bvinc coeffs val)
  end.

(** [normalize_coefficients_eq(node0, node1, coeffs0, coeffs1)] *)
Definition normalize_coefficients_eq (d_parents : ParentsMap)
  (node0 node1 : Node) (coeffs0 coeffs1 : CoefficientsMap)
  : Res (CoefficientsMap * CoefficientsMap) :=
  _ ← c_assert NDEBUG (kind_eqb (kind node0) (kind node1));
  _ ← c_assert NDEBUG (is_add_or_mul (kind node0));
  let k := kind node0 in
  parents ←
    (if d_share_aware then _count_parents [node0; node1] k [] else ok []);
  coeffs0 ← compute_coefficients d_parents node0 (kind node0) parents coeffs0;
  coeffs1 ← compute_coefficients d_parents node1 (kind node1) parents coeffs1;
  '(coeffs0, coeffs1) ←
    (if kind_eqb k BV_ADD then
       '(value0, coeffs0, parents) ←
         normalize_add d_parents node0 coeffs0 parents
           default_keep_value default_push_neg;
       '(value1, coeffs1, parents) ←
         normalize_add d_parents node1 coeffs1 parents
           default_keep_value default_push_neg;
       '(coeffs0, coeffs1, value0) ←
         normalize_coefficients_eq_add coeffs0 coeffs1 value0;
       '(coeffs1, coeffs0, value1) ←
         normalize_coefficients_eq_add coeffs1 coeffs0 value1;
       let value0 := BitVector.bvsub value0 value1 in
       if negb (BitVector.is_zero value0) then
         coeffs0 ← add_value_entry coeffs0 value0; ok (coeffs0, coeffs1)
       else ok (coeffs0, coeffs1)
     else
       _ ← c_assert NDEBUG (kind_eqb k BV_MUL);
       '(value0, coeffs0) ← normalize_mul node0 coeffs0 default_keep_value;
       '(value1, coeffs1) ← normalize_mul node1 coeffs1 default_keep_value;
       coeffs0 ←
         (if negb (BitVector.is_one value0)
          then add_value_entry coeffs0 value0 else ok coeffs0);
       coeffs1 ←
         (if negb (BitVector.is_one value1)
          then add_value_entry coeffs1 value1 else ok coeffs1);
       ok (coeffs0, coeffs1));
  let '(coeffs0, coeffs1, common_coeffs) :=
    compute_common_coefficients coeffs0 coeffs1 in
  common ← mk_node k common_coeffs;
  if kind_eqb k BV_MUL && negb (is_null common) then
    let bvone := BitVector.mk_one (bv_size (type node0)) in
    ok (cm_emplace_or BitVector.bvinc coeffs0 common bvone,
        cm_emplace_or BitVector.bvinc coeffs1 common bvone)
  else ok (coeffs0, coeffs1).

(** The operands of one side of [_normalize_eq_mul]: every factor as
    often as its multiplicity says. *)
Definition mul_operands (coeffs : CoefficientsMap) : Res (list Node) :=
  for_each coeffs
    (fun '(n, c) acc =>
       if BitVector.is_zero c then ok acc
       else
         _ ← c_assert NDEBUG (BitVector.fits_in_64 c);
         ok (acc ++ repeat n (Z.to_nat (BitVector.to_uint64 c))))
    [].

(** [left = v[n - 1]; for (i = 1; i < n; ++i) left = mk_node(BV_MUL, {v[n - i - 1], left});] *)
Definition mul_right_nested (v : list Node) : Res Node :=
  match rev v with
  | [] => fail Undefined
  | lst :: before =>
      ok (fold_left (fun acc x => nm.mk_node BV_MUL [x; acc]) before lst)
  end.

(** One side of [_normalize_eq_mul]. *)
Definition eq_mul_side (coeffs : CoefficientsMap) : Res Node :=
  match coeffs with
  | [] => fail Undefined
  | (first, _) :: _ =>
      v ← mul_operands coeffs;
      let v :=
        if nonempty v then v
        else [nm.mk_value (BitVector.mk_one (bv_size (type first)))] in
      mul_right_nested (std_sort node_lt v)
  end.

(** [_normalize_eq_mul(coeffs0, coeffs1)] *)
Definition _normalize_eq_mul (coeffs0 coeffs1 : CoefficientsMap)
  : Res (Node * Node) :=
  _ ← c_assert NDEBUG (nonempty coeffs0);
  _ ← c_assert NDEBUG (nonempty coeffs1);
  left_ ← eq_mul_side coeffs0;
  right_ ← eq_mul_side coeffs1;
  ok (left_, right_).

(** [get_factorized_add(nm, node, coeff)] *)
Definition get_factorized_add (node : Node) (coeff : BitVector.t) : Res Node :=
  _ ← c_assert NDEBUG (negb (is_null node));
  _ ← c_assert NDEBUG (negb (BitVector.is_zero coeff));
  if BitVector.is_one coeff then ok node
  else if BitVector.is_ones coeff then ok (nm.mk_node BV_NEG [node])
  else ok (nm.mk_node BV_MUL [nm.mk_value coeff; node]).

(** [_normalize_eq_add(coeffs0, coeffs1, bv_size)] *)
Definition _normalize_eq_add (coeffs0 coeffs1 : CoefficientsMap) (bv_size : Z)
  : Res (Node * Node) :=
  let lvalue := BitVector.mk_zero bv_size in
  let rvalue := BitVector.mk_zero bv_size in
  '(lhs, lvalue) ←
    for_each coeffs0
      (fun '(cur, coeff) '(lhs, lvalue) =>
         if BitVector.is_zero coeff then ok (lhs, lvalue)
         else if is_value cur then
           _ ← c_assert NDEBUG (BitVector.is_one coeff);
           ok (lhs, BitVector.bvadd lvalue (value_bv cur))
         else
           f ← get_factorized_add cur coeff; ok (lhs ++ [f], lvalue))
      ([], lvalue);
  rhs ←
    for_each coeffs1
      (fun '(cur, coeff) rhs =>
         if BitVector.is_zero coeff then ok rhs
         else
           _ ← c_assert NDEBUG (negb (is_value cur));
           f ← get_factorized_add cur coeff; ok (rhs ++ [f]))
      [];
  let '(lhs, rhs) :=
    if negb (BitVector.is_zero lvalue) then
      let lvalue := BitVector.bvsub lvalue rvalue in
      if negb (BitVector.is_zero lvalue)
      then (lhs ++ [nm.mk_value lvalue], rhs) else (lhs, rhs)
    else if negb (BitVector.is_zero rvalue)
    then (lhs, rhs ++ [nm.mk_value rvalue]) else (lhs, rhs) in
  let lhs := std_sort node_lt lhs in
  let rhs := std_sort node_lt rhs in
  let left_ := if nonempty lhs then mk_nary BV_ADD lhs
               else nm.mk_value (BitVector.mk_zero bv_size) in
  let right_ := if nonempty rhs then mk_nary BV_ADD rhs
                else nm.mk_value (BitVector.mk_zero bv_size) in
  ok (left_, right_).

(** [normalize_eq_add_mul(node0, node1)] *)
Definition normalize_eq_add_mul (d_parents : ParentsMap) (node0 node1 : Node)
  : Res (Node * bool) :=
  _ ← c_assert NDEBUG (kind_eqb (kind node0) (kind node1));
  _ ← c_assert NDEBUG (is_add_or_mul (kind node0));
  '(coeffs0, coeffs1) ← normalize_coefficients_eq d_parents node0 node1 [] [];
  _ ← c_assert NDEBUG (nonempty coeffs0 && nonempty coeffs1);
  '(left_, right_) ←
    (if kind_eqb (kind node0) BV_ADD
     then _normalize_eq_add coeffs0 coeffs1 (bv_size (type node0))
     else _normalize_eq_mul coeffs0 coeffs1);
  if node_eqb left_ right_ then ok (nm.mk_value_bool true, true)
  else if node_eqb left_ node0 && node_eqb right_ node1
  then ok (nm.mk_node EQUAL [node0; node1], false)
  else ok (nm.mk_node EQUAL [left_; right_], true).

(** ** [rewrite_term] *)

(** [rewrite_term(nm, cur, children)]; [Null] is the [Node()] of "no rewrite". *)
Definition rewrite_term (cur : Node) (children : list Node) : Node :=
  let k := kind cur in
  if kind_eqb k EQUAL then
    let c0 := nth 0 children Null in
    let c1 := nth 1 children Null in
    let '(mul, val) :=
      if kind_eqb (kind c0) BV_MUL then (c0, c1)
      else if kind_eqb (kind c1) BV_MUL then (c1, c0)
      else (Null, Null) in
    if negb (is_null val) && is_value val && BitVector.is_zero (value_bv val)
    then
      let '(udiv, t) :=
        if kind_eqb (kind (child mul 0)) BV_UDIV then (child mul 0, child mul 1)
        else if kind_eqb (kind (child mul 1)) BV_UDIV
        then (child mul 1, child mul 0)
        else (Null, Null) in
      if negb (is_null udiv) && node_eqb (child udiv 1) t then
        nm.mk_node OR
          [nm.mk_node EQUAL [t; val]; nm.mk_node BV_UGT [t; child udiv 0]]
      else Null
    else Null
  else Null.

(** ** [distrib_mul] *)

(** [distrib_mul(nm, left, right, depth)] with [depth] a [uint8_t];
    [stack] bounds the nesting of the recursive calls. *)
Fixpoint distrib_mul (stack : nat) (left_ right_ : Node) (depth : Z)
  : Res Node :=
  match stack with
  | O => fail OutOfFuel
  | S stack' =>
      if negb (depth =? 0) && kind_eqb (kind left_) BV_SHL then
        l ← distrib_mul stack' (child left_ 0) right_ (u8 (depth - 1));
        ok (nm.mk_node BV_SHL [l; child left_ 1])
      else if negb (depth =? 0) && kind_eqb (kind right_) BV_SHL then
        r ← distrib_mul stack' (child right_ 0) left_ (u8 (depth - 1));
        ok (nm.mk_node BV_SHL [r; child right_ 1])
      else if negb (depth =? 0) && kind_eqb (kind left_) BV_ADD then
        l0 ← distrib_mul stack' (child left_ 0) right_ (u8 (depth - 1));
        l1 ← distrib_mul stack' (child left_ 1) right_ (u8 (depth - 1));
        ok (nm.mk_node BV_ADD [l0; l1])
      else if negb (depth =? 0) && kind_eqb (kind right_) BV_ADD then
        r0 ← distrib_mul stack' (child right_ 0) left_ (u8 (depth - 1));
        r1 ← distrib_mul stack' (child right_ 1) left_ (u8 (depth - 1));
        ok (nm.mk_node BV_ADD [r0; r1])
      else ok (nm.mk_node BV_MUL [left_; right_])
  end.

(** ** [PassNormalize::process] *)

(** [d_rewriter.rewrite], the rewriter of rewriter/rewriter.h. *)
Context (rewrite : Node -> Node).

(** The members of the pass that [process] and [apply] change.
    [d_processed_assertions] stands for the cache of the base class
    [PreprocessingPass] behind [processed] and [cache_assertion]. *)
Record PassState : Type := mkPassState {
  d_parents : ParentsMap;
  d_parents_cache : NodeSet;
  d_cache : NodeMap Node;
  num_normalizations : Z;
  d_processed_assertions : NodeSet
}.

(** The branch on the kind of [cur] in the inner loop.  The result is the
    new [it->second], whether the branch set the flag [normalized] of
    [process], and whether it counted a normalization.  In the second
    and third branch the structured binding declares a variable
    [normalized] of its own, so the flag of [process] is not set. *)
Definition process_node (d_parents : ParentsMap) (cur : Node)
  (children : list Node) : Res (Node * bool * bool) :=
  let c0 := nth 0 children Null in
  let c1 := nth 1 children Null in
  let k := kind cur in
  if kind_eqb k EQUAL && kind_eqb (kind c0) (kind c1)
     && is_add_or_mul (kind c0)
  then
    '(res, norm) ← normalize_eq_add_mul d_parents c0 c1;
    ok (res, norm, norm)
  else if kind_eqb k EQUAL then
    let rw := rewrite_term cur children in
    if is_null rw then
      '(res, normalized) ← normalize_comm_assoc d_parents k c0 c1;
      ok (res, false, normalized)
    else ok (rw, false, false)
  else if kind_eqb k BV_ULT || kind_eqb k BV_SLT then
    '(res, normalized) ← normalize_comm_assoc d_parents k c0 c1;
    ok (res, false, normalized)
  else if kind_eqb k BV_MUL then
    r ← distrib_mul fuel c0 c1 5;
    ok (rewrite r, false, false)
  else ok (rebuild_node cur children, false, false).

(** The state of the inner loop: [visit], [normalized] and the pass. *)
Definition process_state : Type := (list Node * bool * PassState)%type.

Definition process_step (s : process_state) : Res process_state :=
  let '(visit, normalized, st) := s in
  match visit with
  | [] => fail Undefined
  | cur :: visit' =>
      match nmap_find (d_cache st) cur with
      | None =>
          ok (rev (children cur) ++ visit, normalized,
              mkPassState (d_parents st) (d_parents_cache st)
                (nmap_set (d_cache st) cur Null)
                (num_normalizations st) (d_processed_assertions st))
      | Some d =>
          if is_null d then
            children ←
              for_each (children cur)
                (fun c acc =>
                   match nmap_find (d_cache st) c with
                   | None => fail Undefined
                   | Some n =>
                       _ ← c_assert NDEBUG (negb (is_null n)); ok (acc ++ [n])
                   end)
                [];
            '(res, norm, counted) ← process_node (d_parents st) cur children;
            let parents :=
              if d_share_aware then
                let '(p, m) := pm_index (d_parents st) cur in
                nmap_set (snd (pm_index m res)) res p
              else d_parents st in
            let parents_cache :=
              if d_share_aware then fst (ns_insert (d_parents_cache st) res)
              else d_parents_cache st in
            ok (visit', normalized || norm,
                mkPassState parents parents_cache
                  (nmap_set (d_cache st) cur res)
                  (if (counted : bool) then u64 (num_normalizations st + 1)
                   else num_normalizations st)
                  (d_processed_assertions st))
          else ok (visit', normalized, st)
      end
  end.

(** One round of the outer loop: [_node] and the pass. *)
Definition process_round (s : Node * bool * PassState)
  : Res (Node * bool * PassState) :=
  let '(_node, _, st) := s in
  '(_, normalized, st) ←
    do_while fuel process_step (fun '(visit, _, _) => nonempty visit)
      ([_node], false, st);
  if (normalized : bool) then
    match nmap_find (d_cache st) _node with
    | Some n => ok (n, normalized, st)
    | None => fail Undefined
    end
  else ok (_node, normalized, st).

(** [process(node)] *)
Definition process (st : PassState) (node : Node) : Res (Node * PassState) :=
  '(_node, _, st) ←
    do_while fuel process_round (fun '(_, normalized, _) => normalized)
      (rewrite node, false, st);
  match nmap_find (d_cache st) _node with
  | Some r => ok (rewrite r, st)
  | None => if NDEBUG then fail Undefined else fail AssertionFailed
  end.

(** ** [PassNormalize::apply] *)

(** [bv::AigBitblaster::AigNodeRefSet] and
    [bitblaster.count_aig_ands(node, cache)] of solver/bv/aig_bitblaster.h:
    the number of AND gates of [node] that are not in [cache], and the
    cache with them. *)
Context (AigNodeRefSet : Type).
Context (aig_empty : AigNodeRefSet).
Context (count_aig_ands : Node -> AigNodeRefSet -> Z * AigNodeRefSet).
(** [count_parents(node, parents, cache)] of the base class. *)
Context (count_parents : Node -> ParentsMap -> NodeSet -> ParentsMap * NodeSet).
(** [substitute(node, substitutions, cache)] of the base class. *)
Context (substitute : Node -> NodeMap Node -> NodeMap Node -> Node * NodeMap Node).
(** The map [results] that [normalize_adders] builds from the adder
    chains [collect_adders] found, zero coefficients removed.  Its
    construction walks unordered maps, whose order of iteration the
    standard leaves open, and sorts vectors with keys that compare equal;
    none of its assertions can fail. *)
Context (adder_results : NodeMap CoefficientsMap -> NodeMap Node).

(** Modelled from the spec (section 4.6): [AssertionVector]
    (preprocess/assertion_vector.h) is not part of the sources.  A pass
    sees the assertions as a vector; [replace(i, n)] puts [n] at index
    [i]. *)
Definition AssertionVector : Type := list Node.

Definition replace (assertions : AssertionVector) (i : nat) (n : Node)
  : AssertionVector := <[i := n]> (assertions : list Node).

(** [normalize_adders(assertions, norm_assertions)], with the member
    [d_parents] that [compute_coefficients] reads: one substituted
    assertion is pushed for every assertion. *)
Definition normalize_adders (d_parents : ParentsMap) (assertions : list Node)
  : Res (list Node) :=
  adders ← collect_adders d_parents assertions [];
  let adders := map (fun '(chain, cm) => (chain, remove_zero_coeffs cm)) adders in
  let results := adder_results adders in
  ok (fst (fold_left
             (fun '(norm_assertions, subst_cache) a =>
                let '(n, subst_cache) := substitute a results subst_cache in
                (norm_assertions ++ [n], subst_cache))
             assertions ([], []))).

(** [size += bitblaster.count_aig_ands(n, cache)] on [uint64_t]. *)
Definition add_aig_size (n : Node) (acc : Z * AigNodeRefSet)
  : Z * AigNodeRefSet :=
  let '(size, cache) := acc in
  let '(c, cache) := count_aig_ands n cache in
  (u64 (size + c), cache).

(** What the first loop of [apply] accumulates. *)
Record first_pass : Type := FirstPass {
  fp_state : PassState;
  fp_before : Z * AigNodeRefSet;
  fp_after1 : Z * AigNodeRefSet;
  fp_new_assertions : list Node
}.

Definition first_pass_step (assertion : Node) (acc : first_pass)
  : Res first_pass :=
  let st := fp_state acc in
  let before := add_aig_size assertion (fp_before acc) in
  if negb (ns_mem (d_processed_assertions st) assertion) then
    let st :=
      mkPassState (d_parents st) (d_parents_cache st) (d_cache st)
        (num_normalizations st)
        (fst (ns_insert (d_processed_assertions st) assertion)) in
    '(processed, st) ← process st assertion;
    ok (FirstPass st before (add_aig_size processed (fp_after1 acc))
          (fp_new_assertions acc ++ [processed]))
  else
    ok (FirstPass st before (add_aig_size assertion (fp_after1 acc))
          (fp_new_assertions acc ++ [assertion])).

(** The sizes and candidate assertion sets [apply] compares. *)
Record apply_data : Type := ApplyData {
  ad_state : PassState;
  ad_size_before : Z;
  ad_size_after1 : Z;
  ad_size_after2 : Z;
  ad_new_assertions : list Node;
  ad_norm_assertions : list Node
}.

Definition apply_compute (st : PassState) (assertions : AssertionVector)
  : Res apply_data :=
  let st :=
    mkPassState (d_parents st) (d_parents_cache st) []
      (num_normalizations st) (d_processed_assertions st) in
  _ ← c_assert NDEBUG (negb (nonempty (d_parents st)));
  let '(parents, parents_cache) :=
    if d_share_aware then
      fold_left (fun '(p, c) a => count_parents a p c) assertions
        (d_parents st, d_parents_cache st)
    else (d_parents st, d_parents_cache st) in
  let st :=
    mkPassState parents parents_cache (d_cache st) (num_normalizations st)
      (d_processed_assertions st) in
  fp ← for_each assertions first_pass_step
         (FirstPass st (0, aig_empty) (0, aig_empty) []);
  norm_assertions ←
    normalize_adders (d_parents (fp_state fp)) (fp_new_assertions fp);
  let after2 := fold_left (fun acc n => add_aig_size n acc) norm_assertions
                  (0, aig_empty) in
  ok (ApplyData (fp_state fp) (fst (fp_before fp)) (fst (fp_after1 fp))
        (fst after2) (fp_new_assertions fp) norm_assertions).

(** [(size_after2 < size_after1) ? norm_assertions : new_assertions] *)
Definition processed_assertions (d : apply_data) : list Node :=
  if ad_size_after2 d <? ad_size_after1 d then ad_norm_assertions d
  else ad_new_assertions d.

(** [std::min(size_after2, size_after1)] *)
Definition size_after (d : apply_data) : Z :=
  Z.min (ad_size_after2 d) (ad_size_after1 d).

(** The loop that replaces the assertions that differ. *)
Definition replace_all (assertions : AssertionVector) (processed : list Node)
  : Res AssertionVector :=
  for_each (seq 0 (List.length assertions))
    (fun i assertions =>
       match assertions !! i, processed !! i with
       | Some a, Some p =>
           if negb (node_eqb a p) then ok (replace assertions i p)
           else ok assertions
       | _, _ => fail Undefined
       end)
    assertions.

(** [apply(assertions)]: the assertions and the pass afterwards. *)
Definition apply (st : PassState) (assertions : AssertionVector)
  : Res (AssertionVector * PassState) :=
  d ← apply_compute st assertions;
  assertions' ←
    (if size_after d <? ad_size_before d then
       _ ← c_assert NDEBUG
             (Z.of_nat (List.length (processed_assertions d))
              =? Z.of_nat (List.length assertions));
       replace_all assertions (processed_assertions d)
     else ok assertions);
  ok (assertions',
      mkPassState [] [] [] (num_normalizations (ad_state d))
        (d_processed_assertions (ad_state d))).

End PassNormalize.

Arguments fp_state {AigNodeRefSet} _.
Arguments fp_before {AigNodeRefSet} _.
Arguments fp_after1 {AigNodeRefSet} _.
Arguments fp_new_assertions {AigNodeRefSet} _.

(** * The quantifier solver, bzlaslvquant.c *)

Inductive BzlaSolverResult : Set :=
  | BZLA_RESULT_SAT | BZLA_RESULT_UNSAT | BZLA_RESULT_UNKNOWN.

Definition result_eqb (a b : BzlaSolverResult) : bool :=
  match a, b with
  | BZLA_RESULT_SAT, BZLA_RESULT_SAT
  | BZLA_RESULT_UNSAT, BZLA_RESULT_UNSAT
  | BZLA_RESULT_UNKNOWN, BZLA_RESULT_UNKNOWN => true
  | _, _ => false
  end.

(** A [BzlaNode *]: the identifier of the node it points to and the tag
    bit that marks an inverted reference. *)
Record BzlaNode : Set := mkBzlaNode { bzla_id : Z; bzla_inverted : bool }.

Definition bzla_node_invert (n : BzlaNode) : BzlaNode :=
  mkBzlaNode (bzla_id n) (negb (bzla_inverted n)).

Definition bzla_node_eqb (a b : BzlaNode) : bool :=
  (bzla_id a =? bzla_id b) && Bool.eqb (bzla_inverted a) (bzla_inverted b).

(** A [BzlaBitVectorTuple *]: [bv[i]] is null until it is added. *)
Definition BzlaBitVectorTuple : Type := list (option BitVector.t).

Definition opt_bv_eqb (a b : option BitVector.t) : bool :=
  match a, b with
  | Some x, Some y => BitVector.eqb x y
  | None, None => true
  | _, _ => false
  end.

(** [bzla_bv_compare_tuple(a, b) == 0] *)
Definition tuple_eqb (a b : BzlaBitVectorTuple) : bool := list_eqb opt_bv_eqb a b.

(** [t->bv[i]] *)
Definition tuple_get (t : BzlaBitVectorTuple) (i : Z) : Res (option BitVector.t) :=
  if (0 <=? i) && (i <? Z.of_nat (List.length t))
  then ok (nth (Z.to_nat i) t None) else fail Undefined.

(** [bzla_bv_new_tuple(mm, arity)] followed by
    [bzla_bv_add_to_tuple(mm, t, bv, pos++)] for the values [bvs]. *)
Definition tuple_fill (arity : Z) (bvs : list BitVector.t) : Res BzlaBitVectorTuple :=
  if Z.of_nat (List.length bvs) <=? arity then
    ok (map Some bvs ++ repeat None (Z.to_nat arity - List.length bvs)%nat)
  else fail Undefined.

(** A [BzlaNodeMap]: the pairs in the order they were mapped, which is
    the order of its iterator. *)
Definition BzlaNodeMap : Type := list (BzlaNode * BzlaNode).

Fixpoint bzla_nodemap_mapped (m : BzlaNodeMap) (n : BzlaNode) : option BzlaNode :=
  match m with
  | [] => None
  | (k, v) :: r => if bzla_node_eqb k n then Some v else bzla_nodemap_mapped r n
  end.

Definition bzla_nodemap_map (m : BzlaNodeMap) (src dst : BzlaNode) : BzlaNodeMap :=
  m ++ [(src, dst)].

(** [m->table->count] *)
Definition nodemap_count (m : BzlaNodeMap) : Z := Z.of_nat (List.length m).

(** A [BzlaPtrHashTable] whose keys are tuples (hashed and compared by
    their values): the buckets in the order they were added. *)
Definition TupleTable (D : Type) : Type := list (BzlaBitVectorTuple * D).

(** [bzla_hashptr_table_get] *)
Fixpoint table_get {D : Type} (t : TupleTable D) (k : BzlaBitVectorTuple) : option D :=
  match t with
  | [] => None
  | (k', d) :: r => if tuple_eqb k' k then Some d else table_get r k
  end.

(** [bzla_hashptr_table_add(t, k)->data.as_ptr = d].  Adding a key that
    is in the table is outside the contract of the table. *)
Definition table_add {D : Type} (t : TupleTable D) (k : BzlaBitVectorTuple) (d : D)
  : Res (TupleTable D) :=
  match table_get t k with
  | Some _ => fail Undefined
  | None => ok (t ++ [(k, d)])
  end.

(** [t->count] *)
Definition table_count {D : Type} (t : TupleTable D) : Z := Z.of_nat (List.length t).

(** [struct BzlaQuantStats], the counters. *)
Record BzlaQuantStats : Set := mkStats {
  refinements : Z;
  failed_refinements : Z;
  synthesize_const : Z;
  synthesize_term : Z;
  synthesize_none : Z;
  synthesize_model_const : Z;
  synthesize_model_term : Z;
  synthesize_model_none : Z
}.

(** [struct SynthResult] and the synthesized model, a table from
    existential variables to their results. *)
Record SynthResult : Set := mkSynthResult {
  partial : bool; limit : Z; synth_value : BzlaNode
}.

Definition SynthModel : Type := list (BzlaNode * SynthResult).

(** [struct FlatModel] *)
Record FlatModel : Type := mkFlatModel {
  model : TupleTable BzlaBitVectorTuple;
  uvar_index_map : gmap Z Z;
  evar_index_map : gmap Z Z
}.

Section QuantSolver.

(** A solver instance, [Bzla]. *)
Context {Bzla : Type}.

(** [struct BzlaGroundSolvers] *)
Record BzlaGroundSolvers : Type := mkGroundSolvers {
  forall_ : Bzla;
  forall_formula : BzlaNode;
  forall_evars : BzlaNodeMap;
  forall_uvars : BzlaNodeMap;
  forall_evar_deps : BzlaNodeMap;
  forall_uvar_deps : BzlaNodeMap;
  forall_consts : list BzlaNode;
  forall_synth_model : option SynthModel;
  forall_ces : TupleTable (option BzlaBitVectorTuple);
  forall_last_ce : option BzlaBitVectorTuple;
  forall_skolem : BzlaNodeMap;
  exists_ : Bzla;
  exists_evars : BzlaNodeMap;
  exists_ufs : BzlaNodeMap;
  exists_cur_qi : BzlaNodeMap;
  result : BzlaSolverResult;
  statistics : BzlaQuantStats
}.

(** The ground solver and the node functions of bzlacore.h, bzlaexp.h,
    bzlamodel.h and bzlanode.h that the quantifier solver calls (section
    4.7 of the specification: an external collaborator).  A query
    ([bzla_model_get_bv], [bzla_simplify_exp], ...) does not change what
    later queries of the same instance answer. *)
Record BzlaApi : Type := mkApi {
  bzla_check_sat : Bzla -> BzlaSolverResult * Bzla;
  bzla_assert_exp : Bzla -> BzlaNode -> Bzla;
  bzla_assume_exp : Bzla -> BzlaNode -> Bzla;
  bzla_terminate : Bzla -> bool;
  last_sat_result : Bzla -> BzlaSolverResult;
  generate_model : Bzla -> Bzla;
  bzla_model_get_bv : Bzla -> BzlaNode -> BitVector.t;
  bzla_model_get_fun : Bzla -> BzlaNode -> option (TupleTable BitVector.t);
  bzla_simplify_exp : Bzla -> BzlaNode -> BzlaNode;
  bzla_exp_bv_const : Bzla -> BitVector.t -> BzlaNode;
  bzla_exp_apply : Bzla -> BzlaNode -> BzlaNode -> BzlaNode;
  bzla_exp_args : Bzla -> list BzlaNode -> BzlaNode;
  bzla_iter_args : BzlaNode -> list BzlaNode;
  true_exp : Bzla -> BzlaNode;
  bzla_node_is_proxy : Bzla -> BzlaNode -> bool;
  bzla_node_is_uf : BzlaNode -> bool;
  bzla_node_param_is_exists_var : BzlaNode -> bool;
  bzla_node_param_is_forall_var : BzlaNode -> bool;
  bzla_node_bv_get_width : Bzla -> BzlaNode -> Z;
  opt_quant_synth_qi : Bzla -> Z
}.

Context (api : BzlaApi).
Context (NDEBUG : bool).

(** Functions of bzlaslvquant.c that are taken as they are: the term
    synthesis for the existential variables, the instantiation of the
    formula, and the construction of the refinements.  None of them
    writes [forall_ces]. *)
Context (synthesize_model :
  BzlaGroundSolvers -> FlatModel -> Res (SynthModel * BzlaQuantStats)).
Context (instantiate_formula :
  BzlaGroundSolvers -> option SynthModel -> Res (BzlaNode * BzlaNodeMap)).
Context (build_refinement : Bzla -> BzlaNode -> BzlaNodeMap -> Res BzlaNode).
Context (synthesize_quant_inst : BzlaGroundSolvers -> Res (Bzla * BzlaNodeMap)).

Definition assert_ (c : bool) : Res unit := c_assert NDEBUG c.

(** [bzla_hashint_map_get(m, id)->as_int] *)
Definition hashint_get (m : gmap Z Z) (id : Z) : Res Z :=
  match m !! id with Some i => ok i | None => fail Undefined end.

(** The loops [i = 0; ... bzla_hashint_map_add(m, cur->id)->as_int = i++;]
    over the keys of a node map. *)
Definition index_map (m : BzlaNodeMap) : gmap Z Z :=
  fst (fold_left
         (fun '(im, i) '(cur, _) => (<[bzla_id cur := i]> im, u32 (i + 1)))
         m (∅, 0)).

(** ** [flat_model_get_value] *)

Definition flat_model_get_value (flat_model : FlatModel) (var : BzlaNode)
  (ce : option BzlaBitVectorTuple) : Res (option BitVector.t) :=
  if bzla_node_param_is_exists_var api var then
    i ← hashint_get (evar_index_map flat_model) (bzla_id var);
    match ce with
    | Some ce =>
        let b := table_get (model flat_model) ce in
        _ ← assert_ (bool_decide (is_Some b));
        match b with
        | None => fail Undefined
        | Some t => tuple_get t i
        end
    | None =>
        match model flat_model with
        | [] => _ ← assert_ false; fail Undefined
        | (_, t) :: _ =>
            res ← tuple_get t i;
            if NDEBUG then ok res
            else
              _ ← for_each (model flat_model)
                    (fun '(_, tup) _ =>
                       r ← tuple_get tup i;
                       match res, r with
                       | Some x, Some y =>
                           assert_ (BitVector.compare x y =? 0)
                       | _, _ => fail Undefined
                       end)
                    tt;
              ok res
        end
    end
  else
    _ ← assert_ (bool_decide (is_Some ce));
    _ ← assert_ (bzla_node_param_is_forall_var api var);
    i ← hashint_get (uvar_index_map flat_model) (bzla_id var);
    match ce with
    | Some ce => tuple_get ce i
    | None => fail Undefined
    end.

(** ** [flat_model_generate] *)

(** The value of one existential variable in the row of [ce]. *)
Definition evar_value (gslv : BzlaGroundSolvers) (e_solver : Bzla)
  (uvar_index : gmap Z Z) (ce : BzlaBitVectorTuple) (f_evar e_evar : BzlaNode)
  : Res BitVector.t :=
  match bzla_nodemap_mapped (forall_evar_deps gslv) f_evar with
  | Some args =>
      bv ←
        match bzla_model_get_fun api e_solver e_evar with
        | Some m =>
            mtup ←
              for_each (bzla_iter_args api args)
                (fun cur acc =>
                   i ← hashint_get uvar_index (bzla_id cur);
                   v ← tuple_get ce i;
                   ok (acc ++ [v]))
                [];
            ok (table_get m mtup)
        | None => ok None
        end;
      match bv with
      | Some bv => ok bv
      | None =>
          ok (BitVector.mk_zero (bzla_node_bv_get_width api (forall_ gslv) f_evar))
      end
  | None =>
      _ ← assert_ (bzla_node_param_is_exists_var api f_evar);
      ok (bzla_model_get_bv api e_solver (bzla_simplify_exp api e_solver e_evar))
  end.

(** [flat_model_generate(gslv)]: the flat model and the E-solver after
    its model has been generated. *)
Definition flat_model_generate (gslv : BzlaGroundSolvers) : Res (FlatModel * Bzla) :=
  let nevars := nodemap_count (exists_evars gslv) in
  let uvar_index := index_map (forall_uvars gslv) in
  let evar_index := index_map (forall_evars gslv) in
  _ ← assert_ (result_eqb (last_sat_result api (exists_ gslv)) BZLA_RESULT_SAT);
  let e_solver := generate_model api (exists_ gslv) in
  m ←
    for_each (forall_ces gslv)
      (fun '(ce, _) (m : TupleTable BzlaBitVectorTuple) =>
         bvs ←
           for_each (forall_evars gslv)
             (fun '(f_evar, e_evar) acc =>
                bv ← evar_value gslv e_solver uvar_index ce f_evar e_evar;
                ok (acc ++ [bv]))
             [];
         evar_values ← tuple_fill nevars bvs;
         table_add m ce evar_values)
      [];
  ok (mkFlatModel m uvar_index evar_index, e_solver).

(** ** [delete_model] and [update_formula] *)

Definition set_forall_synth_model (gslv : BzlaGroundSolvers)
  (m : option SynthModel) (stats : BzlaQuantStats) : BzlaGroundSolvers :=
  mkGroundSolvers (forall_ gslv) (forall_formula gslv) (forall_evars gslv)
    (forall_uvars gslv) (forall_evar_deps gslv) (forall_uvar_deps gslv)
    (forall_consts gslv) m (forall_ces gslv) (forall_last_ce gslv)
    (forall_skolem gslv) (exists_ gslv) (exists_evars gslv) (exists_ufs gslv)
    (exists_cur_qi gslv) (result gslv) stats.

Definition set_forall (gslv : BzlaGroundSolvers) (f : Bzla) (formula : BzlaNode)
  : BzlaGroundSolvers :=
  mkGroundSolvers f formula (forall_evars gslv)
    (forall_uvars gslv) (forall_evar_deps gslv) (forall_uvar_deps gslv)
    (forall_consts gslv) (forall_synth_model gslv) (forall_ces gslv)
    (forall_last_ce gslv) (forall_skolem gslv) (exists_ gslv)
    (exists_evars gslv) (exists_ufs gslv) (exists_cur_qi gslv) (result gslv)
    (statistics gslv).

Definition set_exists (gslv : BzlaGroundSolvers) (e : Bzla) (cur_qi : BzlaNodeMap)
  : BzlaGroundSolvers :=
  mkGroundSolvers (forall_ gslv) (forall_formula gslv) (forall_evars gslv)
    (forall_uvars gslv) (forall_evar_deps gslv) (forall_uvar_deps gslv)
    (forall_consts gslv) (forall_synth_model gslv) (forall_ces gslv)
    (forall_last_ce gslv) (forall_skolem gslv) e
    (exists_evars gslv) (exists_ufs gslv) cur_qi (result gslv)
    (statistics gslv).

(** [delete_model(gslv)] *)
Definition delete_model (gslv : BzlaGroundSolvers) : BzlaGroundSolvers :=
  set_forall_synth_model gslv None (statistics gslv).

(** [update_formula(gslv)] *)
Definition update_formula (gslv : BzlaGroundSolvers) : BzlaGroundSolvers :=
  let f := forall_formula gslv in
  if bzla_node_is_proxy api (forall_ gslv) f
  then set_forall gslv (forall_ gslv) (bzla_simplify_exp api (forall_ gslv) f)
  else gslv.

(** ** [instantiate_args] and [refine_exists_solver] *)

Definition instantiate_args (bzla : Bzla) (args : BzlaNode) (map : BzlaNodeMap)
  : Res BzlaNode :=
  stack ←
    for_each (bzla_iter_args api args)
      (fun arg stack =>
         _ ← assert_ (bzla_node_param_is_forall_var api arg);
         match bzla_nodemap_mapped map arg with
         | Some mapped => ok (stack ++ [mapped])
         | None => _ ← assert_ false; fail Undefined
         end)
      [];
  ok (bzla_exp_args api bzla stack).

(** The counter-example that [refine_exists_solver] reads from the model
    of the F-solver: the tuple [ce] of the values of the universal
    variables and the tuple [evar_tup] of the values of the existential
    variables. *)
Definition counter_example (gslv : BzlaGroundSolvers) (f_solver : Bzla)
  (evar_map : BzlaNodeMap)
  : Res (BzlaBitVectorTuple * option BzlaBitVectorTuple) :=
  let value_of := fun var_fs =>
    bzla_model_get_bv api f_solver (bzla_simplify_exp api f_solver var_fs) in
  ce ← tuple_fill (nodemap_count (forall_uvars gslv))
         (map (fun '(_, var_fs) => value_of var_fs) (forall_uvars gslv));
  evar_tup ←
    (if negb (nodemap_count (forall_evars gslv) =? 0) then
       bvs ←
         for_each (forall_evars gslv)
           (fun '(evar, _) acc =>
              match bzla_nodemap_mapped evar_map evar with
              | Some var_fs => ok (acc ++ [value_of var_fs])
              | None => _ ← assert_ false; fail Undefined
              end)
           [];
       t ← tuple_fill (nodemap_count (forall_evars gslv)) bvs;
       ok (Some t)
     else ok None);
  ok (ce, evar_tup).

(** The map [map] from the variables of the formula to their instances
    in the E-solver. *)
Definition refinement_map (gslv : BzlaGroundSolvers) (f_solver e_solver : Bzla)
  : Res BzlaNodeMap :=
  let map0 :=
    fold_left
      (fun map '(uvar, var_fs) =>
         bzla_nodemap_map map uvar
           (bzla_exp_bv_const api e_solver
              (bzla_model_get_bv api f_solver
                 (bzla_simplify_exp api f_solver var_fs))))
      (forall_uvars gslv) [] in
  map1 ←
    for_each (forall_evars gslv)
      (fun '(var_fs, var_es) map =>
         match bzla_nodemap_mapped (forall_evar_deps gslv) var_fs with
         | Some a =>
             _ ← assert_ (bzla_node_is_uf api var_es);
             a ← instantiate_args e_solver a map0;
             ok (bzla_nodemap_map map var_fs (bzla_exp_apply api e_solver var_es a))
         | None => ok (bzla_nodemap_map map var_fs var_es)
         end)
      map0;
  ok (fold_left (fun map '(var_es, var_fs) => bzla_nodemap_map map var_fs var_es)
        (exists_ufs gslv) map1).

Definition incr_refinements (s : BzlaQuantStats) : BzlaQuantStats :=
  mkStats (u32 (refinements s + 1)) (failed_refinements s)
    (synthesize_const s) (synthesize_term s) (synthesize_none s)
    (synthesize_model_const s) (synthesize_model_term s)
    (synthesize_model_none s).

(** [refine_exists_solver(gslv, evar_map)] *)
Definition refine_exists_solver (gslv : BzlaGroundSolvers) (evar_map : BzlaNodeMap)
  : Res BzlaGroundSolvers :=
  _ ← assert_ (0 <? nodemap_count (forall_uvars gslv));
  let e_solver := exists_ gslv in
  _ ← assert_ (result_eqb (last_sat_result api (forall_ gslv)) BZLA_RESULT_SAT);
  let f_solver := generate_model api (forall_ gslv) in
  '(ce, evar_tup) ← counter_example gslv f_solver evar_map;
  map ← refinement_map gslv f_solver e_solver;
  res ← build_refinement e_solver (forall_formula gslv) map;
  _ ← assert_ (negb (bzla_node_eqb res (true_exp api e_solver)));
  _ ← (if bzla_node_eqb res (true_exp api e_solver) then fail Aborted else ok tt);
  let stats := incr_refinements (statistics gslv) in
  _ ← assert_ (negb (bool_decide (is_Some (table_get (forall_ces gslv) ce))));
  ces ← table_add (forall_ces gslv) ce evar_tup;
  ok (mkGroundSolvers f_solver (forall_formula gslv) (forall_evars gslv)
        (forall_uvars gslv) (forall_evar_deps gslv) (forall_uvar_deps gslv)
        (forall_consts gslv) (forall_synth_model gslv) ces (Some ce)
        (forall_skolem gslv) (bzla_assert_exp api e_solver res)
        (exists_evars gslv) (exists_ufs gslv) (exists_cur_qi gslv)
        (result gslv) stats).

(** ** [find_model] *)

(** The E-step, [if (!skip_exists) { ... }]: either the call is done
    with a result, or the loop goes on with a synthesized model. *)
Inductive e_step_result : Type :=
  | EDone (res : BzlaSolverResult) (gslv : BzlaGroundSolvers)
  | EContinue (synth_model : option SynthModel) (gslv : BzlaGroundSolvers).

Definition e_step (gslv : BzlaGroundSolvers) (skip_exists : bool)
  : Res e_step_result :=
  if negb skip_exists then
    let '(r, e) := bzla_check_sat api (exists_ gslv) in
    let gslv := set_exists gslv e (exists_cur_qi gslv) in
    match r with
    | BZLA_RESULT_UNSAT => ok (EDone BZLA_RESULT_UNSAT gslv)
    | BZLA_RESULT_UNKNOWN =>
        _ ← assert_ (bzla_terminate api (exists_ gslv));
        ok (EDone BZLA_RESULT_UNKNOWN gslv)
    | BZLA_RESULT_SAT =>
        '(flat_model, e) ← flat_model_generate gslv;
        let gslv := set_exists gslv e (exists_cur_qi gslv) in
        '(synth_model, stats) ← synthesize_model gslv flat_model;
        let gslv := delete_model gslv in
        ok (EContinue (Some synth_model)
              (set_forall_synth_model gslv (Some synth_model) stats))
    end
  else ok (EContinue None gslv).

(** The F-step: what follows the E-step when the loop goes on. *)
Definition f_step (gslv : BzlaGroundSolvers) (skip_exists : bool)
  (synth_model : option SynthModel)
  : Res (BzlaSolverResult * BzlaGroundSolvers) :=
  let opt_synth_qi := opt_quant_synth_qi api (forall_ gslv) =? 1 in
  '(g, evar_map) ← instantiate_formula gslv synth_model;
  if nodemap_count (forall_uvars gslv) =? 0 then
    _ ← assert_ skip_exists;
    let f := bzla_assert_exp api (forall_ gslv) g in
    let '(res, f) := bzla_check_sat api f in
    ok (res, set_forall gslv f (forall_formula gslv))
  else
    let f := bzla_assume_exp api (forall_ gslv) (bzla_node_invert g) in
    let '(r, f) := bzla_check_sat api f in
    let gslv := update_formula (set_forall gslv f (forall_formula gslv)) in
    _ ← assert_ (negb (bzla_node_is_proxy api (forall_ gslv) (forall_formula gslv)));
    match r with
    | BZLA_RESULT_UNSAT => ok (BZLA_RESULT_SAT, gslv)
    | BZLA_RESULT_UNKNOWN =>
        _ ← assert_ (bzla_terminate api (forall_ gslv));
        ok (BZLA_RESULT_UNKNOWN, gslv)
    | BZLA_RESULT_SAT =>
        gslv ← refine_exists_solver gslv evar_map;
        if opt_synth_qi then
          '(e, cur_qi) ← synthesize_quant_inst gslv;
          ok (BZLA_RESULT_UNKNOWN, set_exists gslv e cur_qi)
        else ok (BZLA_RESULT_UNKNOWN, gslv)
    end.

(** [find_model(gslv, skip_exists)] *)
Definition find_model (gslv : BzlaGroundSolvers) (skip_exists : bool)
  : Res (BzlaSolverResult * BzlaGroundSolvers) :=
  r ← e_step gslv skip_exists;
  match r with
  | EDone res gslv => ok (res, gslv)
  | EContinue synth_model gslv => f_step gslv skip_exists synth_model
  end.

(** ** [run_parallel] *)

(** [run_parallel(gslv, dgslv)] from [pthread_join] on: [gslv] and
    [dgslv] are the two bundles as their threads left them. *)
Definition run_parallel (gslv dgslv : BzlaGroundSolvers) : Res BzlaSolverResult :=
  if negb (result_eqb (result gslv) BZLA_RESULT_UNKNOWN) then ok (result gslv)
  else
    _ ← assert_ (negb (result_eqb (result dgslv) BZLA_RESULT_UNKNOWN));
    if result_eqb (result dgslv) BZLA_RESULT_SAT then ok BZLA_RESULT_UNSAT
    else
      _ ← assert_ (result_eqb (result dgslv) BZLA_RESULT_UNSAT);
      ok BZLA_RESULT_SAT.

End QuantSolver.

(** * Measures and examples *)

(** The "total node count" of the specification (section 4.5.2, step 5),
    in its two readings: the nodes of the term as a tree, and the
    distinct nodes of the term as a hash-consed DAG. *)
Fixpoint tree_size (n : Node) : Z :=
  match n with
  | Op _ cs _ => 1 + fold_right (fun c acc => tree_size c + acc) 0 cs
  | _ => 1
  end.

Fixpoint dag_nodes (n : Node) (seen : NodeSet) : NodeSet :=
  if ns_mem seen n then seen
  else
    match n with
    | Op _ cs _ => n :: fold_right (fun c acc => dag_nodes c acc) seen cs
    | _ => n :: seen
    end.

Definition dag_size (n : Node) : Z := size_of (dag_nodes n []).

(** The total AIG size [apply] counts for a list of assertions: the
    counts of [count_aig_ands] over one cache, summed on [uint64_t]. *)
Definition aig_size {AigNodeRefSet : Type} (aig_empty : AigNodeRefSet)
  (count_aig_ands : Node -> AigNodeRefSet -> Z * AigNodeRefSet)
  (l : list Node) : Z :=
  fst (fold_left (fun acc n => add_aig_size AigNodeRefSet count_aig_ands n acc)
         l (0, aig_empty)).

(** A node manager that is asked for the terms [roots] one after the
    other creates their nodes children first; [created_by roots] lists
    the nodes in the order of their creation and [id_of created] is the
    identifier of a node: its position, from 1. *)
Fixpoint intern (n : Node) (created : list Node) : list Node :=
  if ns_mem created n then created
  else
    match n with
    | Op _ cs _ => fold_left (fun acc c => intern c acc) cs created ++ [n]
    | _ => created ++ [n]
    end.

Definition created_by (roots : list Node) : list Node :=
  fold_left (fun acc n => intern n acc) roots [].

Fixpoint index_from (i : Z) (n : Node) (l : list Node) : Z :=
  match l with
  | [] => 0
  | x :: r => if node_eqb x n then i else index_from (i + 1) n r
  end.

Definition id_of (created : list Node) (n : Node) : Z := index_from 1 n created.

(** [node::utils::mk_nary] as a left-associated chain. *)
Definition mk_nary_left (k : Kind) (terms : list Node) : Node :=
  match terms with
  | [] => Null
  | t :: r => fold_left (fun acc x => nm.mk_node k [acc; x]) r t
  end.

Module Examples.

Definition bv8 (v : Z) : Node := nm.mk_value (BitVector.norm 8 v).
Definition var8 (i : Z) : Node := Const (SBitVec 8) i.
Definition bvadd (a b : Node) : Node := nm.mk_node BV_ADD [a; b].
Definition bvmul (a b : Node) : Node := nm.mk_node BV_MUL [a; b].
Definition bvnot (a : Node) : Node := nm.mk_node BV_NOT [a].
Definition bvudiv (a b : Node) : Node := nm.mk_node BV_UDIV [a; b].
Definition bvult (a b : Node) : Node := nm.mk_node BV_ULT [a; b].
Definition equal (a b : Node) : Node := nm.mk_node EQUAL [a; b].

Definition x : Node := var8 0.
Definition y : Node := var8 1.
Definition z : Node := var8 2.
Definition a : Node := var8 3.

(** [~(x + y) + z <u (a + 1) + 2] over 8 bits. *)
Definition grow_lhs : Node := bvadd (bvnot (bvadd x y)) z.
Definition grow_rhs : Node := bvadd (bvadd a (bv8 1)) (bv8 2).
Definition grow_term : Node := bvult grow_lhs grow_rhs.

(** What [normalize_comm_assoc] makes of it:
    [((255 * x + 255 * y) + z) + 255 <u a + 3]. *)
Definition grow_result : Node :=
  bvult
    (bvadd (bvadd (bvadd (bvmul (bv8 255) x) (bvmul (bv8 255) y)) z) (bv8 255))
    (bvadd a (bv8 3)).

(** The nodes in the order of their creation: the term, the two values
    the normalization folds, the result. *)
Definition grow_created : list Node :=
  created_by [grow_term; bv8 255; bv8 3; grow_result].

(** The parents of the adders of the term, as [apply] counts them
    before it processes the assertion: each has one. *)
Definition grow_parents : ParentsMap :=
  [(grow_lhs, 1); (grow_rhs, 1); (bvadd a (bv8 1), 1); (bvadd x y, 1)].

(** [3 * 171 <u x] over 8 bits; [3 * 171 = 513 = 2 * 256 + 1]. *)
Definition unit_product : Node := bvmul (bv8 3) (bv8 171).
Definition unit_term : Node := bvult unit_product x.
Definition unit_created : list Node := created_by [unit_term; bv8 0].

(** [(p / q) * (n / (p / q)) = 0] over 8 bits. *)
Definition p : Node := var8 4.
Definition q : Node := var8 5.
Definition n : Node := var8 6.
Definition udiv_t : Node := bvudiv p q.
Definition udiv_mul : Node := bvmul udiv_t (bvudiv n udiv_t).
Definition udiv_term : Node := equal udiv_mul (bv8 0).

End Examples.

(** A scripted ground solver, to run the quantifier loop on examples:
    [check_sat] gives the answers of a script one after the other, the
    termination callback is a flag, and the model gives to a node the
    8-bit value of its identifier. *)
Module Script.

Record Bzla : Set := mkBzla {
  answers : list BzlaSolverResult;
  last : BzlaSolverResult;
  terminated : bool;
  asserted : list BzlaNode;
  assumed : list BzlaNode
}.

Definition check_sat (b : Bzla) : BzlaSolverResult * Bzla :=
  match answers b with
  | r :: rest => (r, mkBzla rest r (terminated b) (asserted b) [])
  | [] =>
      (BZLA_RESULT_UNKNOWN,
       mkBzla [] BZLA_RESULT_UNKNOWN (terminated b) (asserted b) [])
  end.

Definition api : @BzlaApi Bzla :=
  mkApi
    check_sat
    (fun b n => mkBzla (answers b) (last b) (terminated b) (asserted b ++ [n]) (assumed b))
    (fun b n => mkBzla (answers b) (last b) (terminated b) (asserted b) (assumed b ++ [n]))
    terminated
    last
    (fun b => b)
    (fun _ n => BitVector.norm 8 (bzla_id n))
    (fun _ _ => None)
    (fun _ n => n)
    (fun _ v => mkBzlaNode (1000 + BitVector.value v) false)
    (fun _ f _ => f)
    (fun _ _ => mkBzlaNode 999 false)
    (fun _ => [])
    (fun _ => mkBzlaNode 1 false)
    (fun _ _ => false)
    (fun _ => false)
    (fun n => (100 <=? bzla_id n) && (bzla_id n <? 200))
    (fun n => (200 <=? bzla_id n) && (bzla_id n <? 300))
    (fun _ _ => 8)
    (fun _ => 0).

Definition no_stats : BzlaQuantStats := mkStats 0 0 0 0 0 0 0 0.

Definition synthesize_model (gslv : @BzlaGroundSolvers Bzla) (m : FlatModel)
  : Res (SynthModel * BzlaQuantStats) := ok ([], statistics gslv).

(** The candidate is the node 50; every existential variable stands for
    itself. *)
Definition instantiate_formula (gslv : @BzlaGroundSolvers Bzla)
  (m : option SynthModel) : Res (BzlaNode * BzlaNodeMap) :=
  ok (mkBzlaNode 50 false, map (fun '(evar, _) => (evar, evar)) (forall_evars gslv)).

Definition build_refinement (b : Bzla) (f : BzlaNode) (m : BzlaNodeMap)
  : Res BzlaNode := ok (mkBzlaNode 60 false).

Definition synthesize_quant_inst (gslv : @BzlaGroundSolvers Bzla)
  : Res (Bzla * BzlaNodeMap) := ok (exists_ gslv, exists_cur_qi gslv).

Definition solver (script : list BzlaSolverResult) (last : BzlaSolverResult)
  (terminated : bool) : Bzla := mkBzla script last terminated [] [].

Definition evar : BzlaNode := mkBzlaNode 100 false.
Definition evar_const : BzlaNode := mkBzlaNode 10 false.
Definition uvar : BzlaNode := mkBzlaNode 200 false.
Definition uvar_const : BzlaNode := mkBzlaNode 20 false.

(** The bundle of [exists evar. forall uvar. ...]: one existential and
    one universal variable, no dependencies, the counter-examples [ces]. *)
Definition bundle (f e : Bzla) (uvars : BzlaNodeMap)
  (ces : TupleTable (option BzlaBitVectorTuple)) : @BzlaGroundSolvers Bzla :=
  mkGroundSolvers f (mkBzlaNode 40 false) [(evar, evar_const)] uvars [] [] []
    None ces None [] e [(evar_const, evar)] [] [] BZLA_RESULT_UNKNOWN no_stats.

Definition find_model (NDEBUG : bool) (gslv : @BzlaGroundSolvers Bzla)
  (skip_exists : bool) : Res (BzlaSolverResult * @BzlaGroundSolvers Bzla) :=
  find_model api NDEBUG synthesize_model instantiate_formula build_refinement
    synthesize_quant_inst gslv skip_exists.

Definition ce_of (v : Z) : BzlaBitVectorTuple := [Some (BitVector.norm 8 v)].

End Script.

(** A run of [apply] on examples: the rewriter is the identity, the AIG
    size of a term is the number of nodes of its tree, [std::sort] keeps
    equal elements in their order, and the map of results that
    [normalize_adders] builds from the adder chains is empty. *)
Module ApplyExample.

Import Examples.

(** [(a + 1) + 2 <u x] and what the pass makes of it, [a + 3 <u x]. *)
Definition shrink_term : Node := bvult (bvadd (bvadd a (bv8 1)) (bv8 2)) x.
Definition shrink_result : Node := bvult (bvadd a (bv8 3)) x.

Definition created : list Node :=
  created_by [shrink_term; grow_term; bv8 3; bv8 255; shrink_result; grow_result].

Definition count_tree (n : Node) (cache : unit) : Z * unit := (tree_size n, cache).

Definition initial : PassState := mkPassState [] [] [] 0 [].

Definition run (assertions : AssertionVector) : Res (AssertionVector * PassState) :=
  apply (id_of created) false 100 false (@std_sort) false false mk_nary_left
    (fun n => n)
    unit tt count_tree (fun _ p c => (p, c)) (fun n _ c => (n, c))
    (fun _ => []) initial assertions.

End ApplyExample.

(** * More of bzlaslvquant.c *)

Section QuantSolverLoop.

Context {Bzla : Type}.
Context (api : @BzlaApi Bzla).
Context (NDEBUG : bool).
Context (synthesize_model :
  @BzlaGroundSolvers Bzla -> FlatModel -> Res (SynthModel * BzlaQuantStats)).
Context (instantiate_formula :
  @BzlaGroundSolvers Bzla -> option SynthModel -> Res (BzlaNode * BzlaNodeMap)).
Context (build_refinement : Bzla -> BzlaNode -> BzlaNodeMap -> Res BzlaNode).
Context (synthesize_quant_inst : @BzlaGroundSolvers Bzla -> Res (Bzla * BzlaNodeMap)).

(** [gslv->result = res] *)
Definition set_result (gslv : @BzlaGroundSolvers Bzla) (res : BzlaSolverResult)
  : @BzlaGroundSolvers Bzla :=
  mkGroundSolvers (forall_ gslv) (forall_formula gslv) (forall_evars gslv)
    (forall_uvars gslv) (forall_evar_deps gslv) (forall_uvar_deps gslv)
    (forall_consts gslv) (forall_synth_model gslv) (forall_ces gslv)
    (forall_last_ce gslv) (forall_skolem gslv) (exists_ gslv)
    (exists_evars gslv) (exists_ufs gslv) (exists_cur_qi gslv) res
    (statistics gslv).

(** The loop of [sat_quant_solver] that runs when the dual solver is
    off, [while (true) { res = find_model(...); if (res != UNKNOWN) break;
    skip_exists = false; }]; [fuel] bounds its rounds. *)
Fixpoint sat_quant_solver_loop (fuel : nat) (gslv : @BzlaGroundSolvers Bzla)
  (skip_exists : bool) : Res (BzlaSolverResult * @BzlaGroundSolvers Bzla) :=
  match fuel with
  | O => fail OutOfFuel
  | S fuel' =>
      '(res, gslv) ←
        find_model api NDEBUG synthesize_model instantiate_formula
          build_refinement synthesize_quant_inst gslv skip_exists;
      if negb (result_eqb res BZLA_RESULT_UNKNOWN) then ok (res, gslv)
      else sat_quant_solver_loop fuel' gslv false
  end.

(** [sat_quant_solver(slv)] from the loop on, for the bundle [slv->gslv]
    that [setup_solvers] made: the result and the bundle with the result
    stored in it. *)
Definition sat_quant_solver (fuel : nat) (gslv : @BzlaGroundSolvers Bzla)
  : Res (BzlaSolverResult * @BzlaGroundSolvers Bzla) :=
  '(res, gslv) ← sat_quant_solver_loop fuel gslv true;
  ok (res, set_result gslv res).

End QuantSolverLoop.

Section CollectConsts.

(** Bound on the rounds of the loop. *)
Context (fuel : nat).
(** The node a reference points to, by its identifier: its operands
    [real_cur->e[0]], ..., [real_cur->e[arity - 1]] and
    [bzla_node_is_bv_const(real_cur)], of bzlanode.h. *)
Context (node_e : Z -> list BzlaNode).
Context (bzla_node_is_bv_const : Z -> bool).
(** [bzla_node_get_id(cur)] of bzlanode.h, the identifier of a reference. *)
Context (bzla_node_get_id : BzlaNode -> Z).

(** The state of the loop of [collect_consts]: the stack [visit] (its
    top first), [cache] and [consts]. *)
Definition consts_state : Type := (list BzlaNode * gset Z * list BzlaNode)%type.

Definition collect_consts_step (st : consts_state) : Res consts_state :=
  let '(visit, cache, consts) := st in
  match visit with
  | [] => fail Undefined
  | cur :: visit' =>
      let real_id := bzla_id cur in
      let id :=
        if bzla_node_is_bv_const real_id then bzla_node_get_id cur else real_id in
      if bool_decide (id ∈ cache) then ok (visit', cache, consts)
      else
        let consts :=
          if bzla_node_is_bv_const real_id then consts ++ [cur] else consts in
        ok (rev (node_e real_id) ++ visit', {[id]} ∪ cache, consts)
  end.

(** [collect_consts(bzla, root, consts)]: the new [consts]. *)
Definition collect_consts (root : BzlaNode) (consts : list BzlaNode)
  : Res (list BzlaNode) :=
  '(_, _, consts') ←
    while_do fuel (fun '(visit, _, _) => nonempty visit) collect_consts_step
      ([root], ∅, consts);
  ok consts'.

End CollectConsts.

(** * The value generators of the unit tests, test.h *)

Module TestCommon.

(** A [std::string], as the list of its characters. *)
Definition cstring : Type := list Ascii.ascii.

(** [static_cast<size_t>(pow(static_cast<double>(b), static_cast<double>(e)))].
    The power is computed on doubles: it is the power of the integers
    where that is below [2 ^ 53], so that a double holds it exactly and
    the C library returns it; a larger power is left undefined here. *)
Definition pow_size_t (b e : Z) : Res Z :=
  if b ^ e <? 2 ^ 53 then ok (b ^ e) else fail Undefined.

(** [x / y] on [size_t]; the division by zero is undefined. *)
Definition div_size_t (x y : Z) : Res Z :=
  if y =? 0 then fail Undefined else ok (x / y).

(** [x % y] on [size_t] *)
Definition mod_size_t (x y : Z) : Res Z :=
  if y =? 0 then fail Undefined else ok (x mod y).

(** [v[i]] on a [std::vector] *)
Definition at_index {A : Type} (v : list A) (i : Z) : Res A :=
  if (0 <=? i) && (i <? size_of v) then
    match v !! Z.to_nat i with Some x => ok x | None => fail Undefined end
  else fail Undefined.

(** The indices [0], ..., [n - 1] of a loop [for (size_t i = 0; i < n; ++i)]. *)
Definition upto (n : Z) : list Z := map Z.of_nat (seq 0 (Z.to_nat n)).

(** [gen_all_combinations(size, bits, values)]: the new [values]. *)
Definition gen_all_combinations (size : Z) (bits : list Ascii.ascii)
  (values : list cstring) : Res (list cstring) :=
  let num_bits := size_of bits in
  num_values ← pow_size_t num_bits size;
  psizes ←
    for_each (upto size)
      (fun i psizes =>
         p ← pow_size_t num_bits (i + 1);
         q ← div_size_t num_values p;
         ok (psizes ++ [q]))
      [];
  for_each (upto num_values)
    (fun row values =>
       val ←
         for_each (upto size)
           (fun col (val : cstring) =>
              p ← at_index psizes col;
              q ← div_size_t row p;
              i ← mod_size_t q num_bits;
              c ← at_index bits i;
              ok (val ++ [c]))
           [];
       ok (values ++ [val]))
    values.

(** [gen_xvalues(bw, values)] *)
Definition gen_xvalues (bw : Z) (values : list cstring) : Res (list cstring) :=
  gen_all_combinations bw ["x"; "0"; "1"]%char values.

(** [gen_values(bw, values)] *)
Definition gen_values (bw : Z) (values : list cstring) : Res (list cstring) :=
  gen_all_combinations bw ["0"; "1"]%char values.

(** The position of a character in an alphabet, and the number a string
    denotes when its characters are read as the digits of a numeral in
    the base of the alphabet, the most significant digit first. *)
Fixpoint digit_of (bits : list Ascii.ascii) (c : Ascii.ascii) : Z :=
  match bits with
  | [] => 0
  | b :: r => if Ascii.eqb b c then 0 else 1 + digit_of r c
  end.

Definition numeral_value (bits : list Ascii.ascii) (s : cstring) : Z :=
  fold_left (fun acc c => acc * size_of bits + digit_of bits c) s 0.

End TestCommon.

(** * The C API, api/c/bitwuzla.cpp *)

Module CApi.

(** The checks of the C API ([BITWUZLA_CHECK] and the macros built on it,
    api/checks.h), by what they check. *)
Inductive Check : Set :=
  | CheckNotNull
  | CheckNotZero
  | CheckSortId                  (* "invalid sort id" *)
  | CheckSortIdAtIdx (i : Z)     (* "invalid sort id at index i" *)
  | CheckTermId                  (* "invalid term id" *)
  | CheckTermIdAtIdx (i : Z)     (* "invalid term id at index i" *)
  | CheckKind.                   (* "invalid term kind" *)

(** How a call ends that does not return: a check or an assertion that
    fails, or the [std::out_of_range] of [std::unordered_map::at]. *)
Inductive ApiError : Set :=
  | CheckFailed (c : Check)
  | AssertFailed
  | OutOfRange.

Section Api.

(** [bitwuzla::Sort] and [bitwuzla::Term], the objects of the C++ API
    (api/cpp/bitwuzla.h), with the functions of that API the C API
    calls. *)
Context {CppSort CppTerm : Type}.
Context (sort_id : CppSort -> Z) (term_id : CppTerm -> Z).
Context (sort_is_null : CppSort -> bool) (term_is_null : CppTerm -> bool).
Context (sort_eq : CppSort -> CppSort -> bool) (term_eq : CppTerm -> CppTerm -> bool).
Context (fun_domain : CppSort -> list CppSort).
Context (term_sort : CppTerm -> CppSort).
Context (term_children : CppTerm -> list CppTerm).
Context (mk_fp_pos_inf mk_fp_neg_inf : CppSort -> CppTerm).
Context (mk_term : Z -> list CppTerm -> CppTerm).
(** Whether the build defines [NDEBUG], and [BITWUZLA_KIND_NUM_KINDS]. *)
Context (NDEBUG : bool).
Context (BITWUZLA_KIND_NUM_KINDS : Z).

(** [Bitwuzla::sort_map()] and [Bitwuzla::term_map()]: an identifier is
    mapped to the object and its external reference count. *)
Record Maps : Type := mkMaps {
  sort_map : gmap Z (CppSort * Z);
  term_map : gmap Z (CppTerm * Z)
}.

(** A function of the C API: it reads and writes the two maps, and it
    returns or fails. *)
Definition Api (A : Type) : Type := Maps -> ApiError + A * Maps.

#[local] Instance Api_ret : MRet Api := fun A a m => inr (a, m).
#[local] Instance Api_bind : MBind Api :=
  fun A B f x m => match x m with inl e => inl e | inr (a, m') => f a m' end.

(** [BITWUZLA_CHECK(c) << ...] *)
Definition BITWUZLA_CHECK (c : bool) (what : Check) : Api unit :=
  fun m => if c then inr (tt, m) else inl (CheckFailed what).

Definition api_assert (c : bool) : Api unit :=
  fun m => if NDEBUG || c then inr (tt, m) else inl AssertFailed.

(** [Bitwuzla::sort_map().find(id) != Bitwuzla::sort_map().end()] *)
Definition sort_map_has (id : Z) : Api bool :=
  fun m => inr (bool_decide (is_Some (sort_map m !! id)), m).

Definition term_map_has (id : Z) : Api bool :=
  fun m => inr (bool_decide (is_Some (term_map m !! id)), m).

Definition BITWUZLA_CHECK_SORT_ID (id : Z) : Api unit :=
  b ← sort_map_has id; BITWUZLA_CHECK b CheckSortId.

Definition BITWUZLA_CHECK_TERM_ID (id : Z) : Api unit :=
  b ← term_map_has id; BITWUZLA_CHECK b CheckTermId.

(** [BITWUZLA_CHECK_NOT_NULL(p)] for a pointer to a [size_t]: [None] is
    the null pointer, [Some v] a pointer to a cell that holds [v]. *)
Definition BITWUZLA_CHECK_NOT_NULL (p : option Z) : Api unit :=
  BITWUZLA_CHECK (bool_decide (is_Some p)) CheckNotNull.

(** [export_sort(sort)] *)
Definition export_sort (sort : CppSort) : Api Z :=
  _ ← api_assert (negb (sort_is_null sort));
  ((fun m =>
      let id := sort_id sort in
      match sort_map m !! id with
      | None => inr (id, mkMaps (<[id := (sort, 1)]> (sort_map m)) (term_map m))
      | Some (s, count) =>
          inr (id, mkMaps (<[id := (s, u64 (count + 1))]> (sort_map m)) (term_map m))
      end) : Api Z).

(** [import_sort(sort_id)] *)
Definition import_sort (id : Z) : Api CppSort :=
  fun m =>
    match sort_map m !! id with
    | Some (s, _) => inr (s, m)
    | None => inl OutOfRange
    end.

(** [export_term(term)] *)
Definition export_term (term : CppTerm) : Api Z :=
  _ ← api_assert (negb (term_is_null term));
  ((fun m =>
      let id := term_id term in
      match term_map m !! id with
      | None => inr (id, mkMaps (sort_map m) (<[id := (term, 1)]> (term_map m)))
      | Some (t, count) =>
          inr (id, mkMaps (sort_map m) (<[id := (t, u64 (count + 1))]> (term_map m)))
      end) : Api Z).

(** [import_term(term_id)] *)
Definition import_term (id : Z) : Api CppTerm :=
  fun m =>
    match term_map m !! id with
    | Some (t, _) => inr (t, m)
    | None => inl OutOfRange
    end.

(** [for (auto &x : l) res.push_back(f(x));] *)
Fixpoint push_all {A B : Type} (f : A -> Api B) (l : list A) (res : list B)
  : Api (list B) :=
  match l with
  | [] => mret res
  | x :: r => y ← f x; push_all f r (res ++ [y])
  end.

(** [bitwuzla_mk_fp_pos_inf(sort)] *)
Definition bitwuzla_mk_fp_pos_inf (sort : Z) : Api Z :=
  _ ← BITWUZLA_CHECK_SORT_ID sort;
  s ← import_sort sort;
  export_term (mk_fp_pos_inf s).

(** [bitwuzla_mk_fp_neg_inf(sort)] *)
Definition bitwuzla_mk_fp_neg_inf (sort : Z) : Api Z :=
  _ ← BITWUZLA_CHECK_SORT_ID sort;
  s ← import_sort sort;
  export_term (mk_fp_pos_inf s).

(** [bitwuzla_mk_term(kind, argc, args)] for the array [args] of [argc]
    term identifiers. *)
Definition bitwuzla_mk_term (kind : Z) (args : list Z) : Api Z :=
  _ ← BITWUZLA_CHECK (kind <? BITWUZLA_KIND_NUM_KINDS) CheckKind;
  terms ←
    push_all
      (fun '(i, arg) =>
         b ← term_map_has arg;
         _ ← BITWUZLA_CHECK b (CheckTermIdAtIdx i);
         import_term arg)
      (zip (map Z.of_nat (seq 0 (List.length args))) args) [];
  export_term (mk_term kind terms).

(** [bitwuzla_sort_fun_get_domain_sorts(sort, size)]: the array it
    returns and the new [*size]. *)
Definition bitwuzla_sort_fun_get_domain_sorts (sort : Z) (size : option Z)
  : Api (list Z * Z) :=
  _ ← BITWUZLA_CHECK_SORT_ID sort;
  _ ← BITWUZLA_CHECK_NOT_NULL size;
  s ← import_sort sort;
  let sorts := fun_domain s in
  let sorts : list CppSort := [] in          (* sorts.clear() *)
  res ← push_all export_sort sorts [];
  mret (res, size_of res).

(** [bitwuzla_term_fun_get_domain_sorts(term, size)] *)
Definition bitwuzla_term_fun_get_domain_sorts (term : Z) (size : option Z)
  : Api (list Z * Z) :=
  _ ← BITWUZLA_CHECK_TERM_ID term;
  _ ← BITWUZLA_CHECK_NOT_NULL size;
  t ← import_term term;
  let sorts := fun_domain (term_sort t) in
  res ← push_all export_sort sorts [];
  mret (res, size_of res).

(** [bitwuzla_term_get_children(term, size)]: the array it returns and
    [*size] after the call, which the function does not write. *)
Definition bitwuzla_term_get_children (term : Z) (size : option Z)
  : Api (list Z * Z) :=
  _ ← BITWUZLA_CHECK_TERM_ID term;
  _ ← BITWUZLA_CHECK_NOT_NULL size;
  t ← import_term term;
  res ← push_all export_term (term_children t) [];
  mret (res, default 0 size).

(** [bitwuzla_term_get_sort(term)] *)
Definition bitwuzla_term_get_sort (term : Z) : Api Z :=
  _ ← BITWUZLA_CHECK_TERM_ID term;
  t ← import_term term;
  export_sort (term_sort t).

(** [bitwuzla_sort_is_equal(sort0, sort1)] *)
Definition bitwuzla_sort_is_equal (sort0 sort1 : Z) : Api bool :=
  _ ← BITWUZLA_CHECK_SORT_ID sort0;
  _ ← BITWUZLA_CHECK_SORT_ID sort1;
  s0 ← import_sort sort0;
  s1 ← import_sort sort1;
  mret (sort_eq s0 s1).

(** [bitwuzla_term_is_equal_sort(term0, term1)] *)
Definition bitwuzla_term_is_equal_sort (term0 term1 : Z) : Api bool :=
  _ ← BITWUZLA_CHECK_TERM_ID term0;
  _ ← BITWUZLA_CHECK_TERM_ID term1;
  t0 ← import_term term0;
  t1 ← import_term term1;
  mret (term_eq t0 t1).

(** Every entry of the two maps is the object of its identifier. *)
Definition maps_consistent (m : Maps) : Prop :=
  (forall id s c, sort_map m !! id = Some (s, c) -> sort_id s = id)
  /\ (forall id t c, term_map m !! id = Some (t, c) -> term_id t = id).

(** The external reference count of a sort, zero without an entry. *)
Definition sort_refs (m : Maps) (id : Z) : Z :=
  match sort_map m !! id with Some (_, c) => c | None => 0 end.

End Api.

End CApi.

(** * Further measures *)

(** The order on vectors of chain identifiers that [sort_cmp] realises:
    the first index where the vectors differ decides, and a vector comes
    before its proper prefixes. *)
Fixpoint vec_lt (va vb : list Z) : bool :=
  match va, vb with
  | x :: ra, y :: rb => if x =? y then vec_lt ra rb else x <? y
  | _ :: _, [] => true
  | [], _ => false
  end.

(** The multiplicity of a node in a coefficient map: the unsigned value
    of its coefficient, zero for a node that has no entry. *)
Definition multiplicity (node_id : Node -> Z) (m : CoefficientsMap) (k : Node) : Z :=
  match cm_find node_id m k with
  | Some c => BitVector.value c
  | None => 0
  end.

(** The coefficients of a map are bit-vector values: unsigned integers
    below [2 ^ size]. *)
Definition coefficients_in_range (m : CoefficientsMap) : Prop :=
  Forall (fun e => 0 <= BitVector.value (snd e) < 2 ^ BitVector.size (snd e)) m.

(** * Properties *)

(** ** The failure monad *)

Lemma bind_inr {A B : Type} (m : Res A) (f : A -> Res B) (b : B) :
  m ≫= f = inr b -> exists a, m = inr a /\ f a = inr b.
Proof.
  destruct m as [e | a]; cbn; intros H; [discriminate | eauto].
Qed.

Lemma bind_inr_eq {A B : Type} (m : Res A) (f : A -> Res B) (a : A) :
  m = inr a -> m ≫= f = f a.
Proof. intros ->. reflexivity. Qed.

Lemma c_assert_true (NDEBUG : bool) : c_assert NDEBUG true = inr tt.
Proof. destruct NDEBUG; reflexivity. Qed.

Lemma c_assert_holds (NDEBUG c : bool) :
  NDEBUG = true \/ c = true -> c_assert NDEBUG c = inr tt.
Proof. intros [-> | ->]; [reflexivity | apply c_assert_true]. Qed.

Lemma c_assert_inr (NDEBUG c : bool) (u : unit) :
  c_assert NDEBUG c = inr u -> NDEBUG = true \/ c = true.
Proof. destruct NDEBUG, c; cbn; intros H; auto; discriminate. Qed.

(** Inversion of a hypothesis [x ← m; k = inr r]. *)
Tactic Notation "inv_bind" hyp(H) :=
  let a := fresh "a" in
  let Ha := fresh "Ha" in
  apply bind_inr in H; destruct H as (a & Ha & H).

Tactic Notation "inv_bind" hyp(H) "as" simple_intropattern(a) ident(Ha) :=
  apply bind_inr in H; destruct H as (a & Ha & H).

(** A property that every round of a loop keeps. *)
Lemma for_each_invariant {A S : Type} (P : S -> Prop) (body : A -> S -> Res S)
  (l : list A) :
  (forall x s s', body x s = inr s' -> P s -> P s') ->
  forall s s', for_each l body s = inr s' -> P s -> P s'.
Proof.
  intros Hb. induction l as [| x r IH]; cbn; intros s s' H Hs.
  - unfold ok in H. congruence.
  - inv_bind H. eauto.
Qed.

(** Two bodies that agree make the same loop. *)
Lemma for_each_ext {A S : Type} (body body' : A -> S -> Res S) (l : list A) :
  (forall x s, body x s = body' x s) ->
  forall s, for_each l body s = for_each l body' s.
Proof.
  intros Hb. induction l as [| x r IH]; intros s; [reflexivity |].
  cbn. rewrite Hb. destruct (body' x s); cbn; [reflexivity | apply IH].
Qed.

(** A loop whose body leaves the state as it is. *)
Lemma for_each_skip {A S : Type} (P : A -> Prop) (body : A -> S -> Res S)
  (l : list A) (s : S) :
  Forall P l ->
  (forall x s, P x -> body x s = inr s) ->
  for_each l body s = inr s.
Proof.
  intros Hl Hb. induction Hl as [| x r Hx _ IH]; [reflexivity |].
  cbn. rewrite (Hb x s Hx). exact IH.
Qed.

(** ** Equality of nodes *)

#[global] Arguments kind_eqb !a !b /.

Lemma kind_of_tag_tag (k : Kind) : kind_of_tag (kind_tag k) = k.
Proof. destruct k; reflexivity. Qed.

Lemma kind_eqb_eq (a b : Kind) : kind_eqb a b = true <-> a = b.
Proof.
  unfold kind_eqb. rewrite Pos.eqb_eq. split; [| congruence].
  intros H. rewrite <- (kind_of_tag_tag a), <- (kind_of_tag_tag b). congruence.
Qed.

Lemma kind_eqb_refl (k : Kind) : kind_eqb k k = true.
Proof. apply kind_eqb_eq. reflexivity. Qed.

Lemma list_eqb_refl {A : Type} (eqb : A -> A -> bool) (l : list A) :
  Forall (fun x => eqb x x = true) l -> list_eqb eqb l l = true.
Proof.
  induction 1 as [| x r Hx _ IH]; cbn; [reflexivity |].
  rewrite Hx, IH. reflexivity.
Qed.

Fixpoint sort_eqb_refl (s : Sort) : sort_eqb s s = true.
Proof.
  destruct s as [| w | e s | | i e | d c]; cbn.
  - reflexivity.
  - apply Z.eqb_refl.
  - rewrite !Z.eqb_refl. reflexivity.
  - reflexivity.
  - rewrite !sort_eqb_refl. reflexivity.
  - rewrite sort_eqb_refl, andb_true_r.
    induction d as [| x r IH]; [reflexivity |].
    rewrite sort_eqb_refl, IH. reflexivity.
Qed.

Lemma bv_eqb_refl (v : BitVector.t) : BitVector.eqb v v = true.
Proof. unfold BitVector.eqb. rewrite !Z.eqb_refl. reflexivity. Qed.

Fixpoint node_eqb_refl (n : Node) : node_eqb n n = true.
Proof.
  destruct n as [| s u | v | b | k cs ix]; cbn.
  - reflexivity.
  - rewrite sort_eqb_refl, Z.eqb_refl. reflexivity.
  - apply bv_eqb_refl.
  - destruct b; reflexivity.
  - rewrite kind_eqb_refl. cbn.
    rewrite (list_eqb_refl Z.eqb ix), andb_true_r.
    + induction cs as [| x r IH]; [reflexivity |].
      rewrite node_eqb_refl, IH. reflexivity.
    + apply Forall_forall. intros z _. apply Z.eqb_refl.
Qed.

(** ** Dual solving: the result after the join *)

(** C2.  After both threads have joined, [run_parallel] returns the
    result of the primary bundle when it is Sat or Unsat; otherwise it
    returns the result of the dual bundle through the negation
    convention: dual Sat gives Unsat and dual Unsat gives Sat.  (When
    both are Unknown the assertion of the code fails; without
    assertions the code returns Sat.) *)
Theorem run_parallel_selects {Bzla : Type} (NDEBUG : bool)
  (gslv dgslv : @BzlaGroundSolvers Bzla) :
  run_parallel NDEBUG gslv dgslv =
    match result gslv with
    | BZLA_RESULT_SAT => ok BZLA_RESULT_SAT
    | BZLA_RESULT_UNSAT => ok BZLA_RESULT_UNSAT
    | BZLA_RESULT_UNKNOWN =>
        match result dgslv with
        | BZLA_RESULT_SAT => ok BZLA_RESULT_UNSAT
        | BZLA_RESULT_UNSAT => ok BZLA_RESULT_SAT
        | BZLA_RESULT_UNKNOWN =>
            if NDEBUG then ok BZLA_RESULT_SAT else fail AssertionFailed
        end
    end.
Proof.
  unfold run_parallel, c_assert.
  destruct (result gslv), (result dgslv), NDEBUG; reflexivity.
Qed.

(** ** The extra equality identity *)

Lemma is_zero_mk_zero (w : Z) : BitVector.is_zero (BitVector.mk_zero w) = true.
Proof. reflexivity. Qed.

(** When the division is the first operand of the multiplication the
    equality with zero is rewritten, whatever [t] is. *)
Lemma rewrite_term_udiv_first (cur t n : Node) (w : Z) :
  kind cur = EQUAL ->
  let zero := nm.mk_value (BitVector.mk_zero w) in
  rewrite_term cur [nm.mk_node BV_MUL [nm.mk_node BV_UDIV [n; t]; t]; zero]
  = nm.mk_node OR [nm.mk_node EQUAL [t; zero]; nm.mk_node BV_UGT [t; n]].
Proof.
  intros Hk zero. unfold rewrite_term. rewrite Hk.
  cbn -[node_eqb]. rewrite node_eqb_refl. reflexivity.
Qed.

(** When the division is the second operand it is rewritten provided
    the first operand [t] is not a division itself. *)
Lemma rewrite_term_udiv_second (cur t n : Node) (w : Z) :
  kind cur = EQUAL ->
  kind t <> BV_UDIV ->
  let zero := nm.mk_value (BitVector.mk_zero w) in
  rewrite_term cur [nm.mk_node BV_MUL [t; nm.mk_node BV_UDIV [n; t]]; zero]
  = nm.mk_node OR [nm.mk_node EQUAL [t; zero]; nm.mk_node BV_UGT [t; n]].
Proof.
  intros Hk Ht zero. unfold rewrite_term. rewrite Hk.
  cbn -[node_eqb].
  destruct (kind_eqb (kind t) BV_UDIV) eqn:E.
  - apply kind_eqb_eq in E. contradiction.
  - cbn -[node_eqb]. rewrite node_eqb_refl. reflexivity.
Qed.

(** C7.  The equality [(p / q) * (n / (p / q)) = 0] has a side that is a
    multiplication of [t = p / q] and [n / t], and zero on the other
    side, yet [rewrite_term] answers "no rewrite": it takes the first
    operand for the division because it is one, and then finds that its
    divisor [q] is not the other operand.  With the operands the other
    way round the same equality is rewritten to [t = 0 \/ t >u n]. *)
Theorem rewrite_term_misses_division_operand :
  rewrite_term Examples.udiv_term [Examples.udiv_mul; Examples.bv8 0] = Null
  /\ rewrite_term Examples.udiv_term
       [Examples.bvmul (Examples.bvudiv Examples.n Examples.udiv_t)
          Examples.udiv_t;
        Examples.bv8 0]
     = nm.mk_node OR
         [nm.mk_node EQUAL [Examples.udiv_t; Examples.bv8 0];
          nm.mk_node BV_UGT [Examples.udiv_t; Examples.n]].
Proof. split; reflexivity. Qed.

(** ** Distributive multiplication *)

Lemma u8_pred (depth : Z) : 0 < depth < 256 -> u8 (depth - 1) = depth - 1.
Proof. intros H. unfold u8. apply Z.mod_small. lia. Qed.

Lemma distrib_mul_total (stack : nat) :
  forall (left_ right_ : Node) (depth : Z),
    0 <= depth < 256 -> (Z.to_nat depth < stack)%nat ->
    exists res, distrib_mul stack left_ right_ depth = inr res.
Proof.
  induction stack as [| stack IH]; intros l r depth Hd Hs; [lia |].
  cbn [distrib_mul].
  destruct (depth =? 0) eqn:E0; cbn [negb andb].
  - eauto.
  - apply Z.eqb_neq in E0.
    assert (Hp : 0 <= depth - 1 < 256) by lia.
    assert (Hq : (Z.to_nat (depth - 1) < stack)%nat) by lia.
    rewrite u8_pred by lia.
    pose proof (IH (child l 0) r _ Hp Hq) as [l0 Hl0].
    pose proof (IH (child l 1) r _ Hp Hq) as [l1 Hl1].
    pose proof (IH (child r 0) l _ Hp Hq) as [r0 Hr0].
    pose proof (IH (child r 1) l _ Hp Hq) as [r1 Hr1].
    rewrite Hl0, Hl1, Hr0, Hr1. cbn.
    repeat match goal with |- context [if ?b then _ else _] => destruct b end;
      eauto.
Qed.

Section Distrib.

Context (node_id : Node -> Z) (NDEBUG : bool) (fuel : nat).
Context (d_share_aware default_keep_value default_push_neg : bool).
Context (unstable_sort : forall A : Type, (A -> A -> bool) -> list A -> list A).
Context (mk_nary : Kind -> list Node -> Node) (rewrite : Node -> Node).

(** C8.  [distrib_mul] returns for every pair of operands and every
    depth bound: a call with depth 0 returns the multiplication itself,
    every recursive call is made with the depth bound less one, and the
    calls never nest deeper than [depth + 1].  [process] calls it with
    depth 5 for every BV_MUL node it processes and stores the rewritten
    result. *)
Theorem distrib_mul_bounded (left_ right_ : Node) (depth : Z) (stack : nat)
  (d_parents : ParentsMap) (cur : Node) (children : list Node) :
  0 <= depth < 256 ->
  (Z.to_nat depth < stack)%nat ->
  kind cur = BV_MUL ->
  (5 < fuel)%nat ->
  (exists res, distrib_mul stack left_ right_ depth = inr res)
  /\ distrib_mul stack left_ right_ 0 = inr (nm.mk_node BV_MUL [left_; right_])
  /\ (0 < depth -> u8 (depth - 1) = depth - 1)
  /\ exists res,
       distrib_mul fuel (nth 0 children Null) (nth 1 children Null) 5 = inr res
       /\ process_node node_id NDEBUG fuel d_share_aware unstable_sort default_keep_value
            default_push_neg mk_nary rewrite d_parents cur children
          = inr (rewrite res, false, false).
Proof.
  intros Hd Hs Hk Hf. repeat split.
  - apply distrib_mul_total; assumption.
  - destruct stack; [lia | reflexivity].
  - intros Hp. apply u8_pred. lia.
  - destruct (distrib_mul_total fuel (nth 0 children Null)
                (nth 1 children Null) 5) as [res Hres]; [lia | lia |].
    exists res. split; [exact Hres |].
    unfold process_node. rewrite Hk. cbn. rewrite Hres. reflexivity.
Qed.

End Distrib.

Lemma distrib_mul_bounded_witness :
  exists res,
    distrib_mul 6 Examples.grow_lhs Examples.x 5 = inr res
    /\ process_node (id_of []) false 6 true (@std_sort) false false mk_nary_left
         (fun n => n) [] (Examples.bvmul Examples.grow_lhs Examples.x)
         [Examples.grow_lhs; Examples.x]
       = inr (res, false, false).
Proof.
  destruct (distrib_mul_bounded (id_of []) false 6 true false false
              (@std_sort) mk_nary_left (fun n => n) Examples.grow_lhs Examples.x 5 6 []
              (Examples.bvmul Examples.grow_lhs Examples.x)
              [Examples.grow_lhs; Examples.x])
    as (_ & _ & _ & res & H1 & H2); [lia | cbn; lia | reflexivity | lia |].
  exists res. split; assumption.
Defined.

(** ** The neutral element of an empty side *)

Section EmptySide.

Context (node_id : Node -> Z) (NDEBUG : bool) (fuel : nat).
Context (unstable_sort : forall A : Type, (A -> A -> bool) -> list A -> list A).

Lemma mk_node_inr_nil (k : Kind) (n : Node) :
  mk_node node_id NDEBUG fuel unstable_sort k [] = inr n -> n = Null.
Proof.
  unfold mk_node. intros H. inv_bind H. unfold ok in H. congruence.
Qed.

(** [normalize_common], whatever the kind of the chain: a side whose
    coefficient map is empty after the subtraction of the common
    coefficients is the value zero of the width of the first leaf. *)
Lemma normalize_common_empty_lhs (k : Kind) (lhs rhs : CoefficientsMap)
  (left_ right_ : Node) (rhs' : CoefficientsMap) :
  normalize_common node_id NDEBUG fuel unstable_sort k lhs rhs = inr (left_, right_, [], rhs') ->
  exists l0 c0 r, lhs = (l0, c0) :: r
    /\ left_ = nm.mk_value (BitVector.mk_zero (bv_size (type l0))).
Proof.
  unfold normalize_common. intros H.
  inv_bind H. inv_bind H.
  destruct lhs as [| [l0 c0] lr]; [destruct rhs; discriminate |].
  destruct rhs as [| [r0 d0] rr]; [discriminate |].
  exists l0, c0, lr. split; [reflexivity |].
  destruct (compute_common_coefficients _ _ _) as [[lhs1 rhs1] common_coeffs].
  inv_bind H.
  destruct (if negb (is_null a1) then _ else _) as [lhs2 rhs2].
  inv_bind H. inv_bind H. unfold ok in H. injection H as <- _ E _.
  rewrite E in Ha2. cbn in Ha2. unfold ok in Ha2. congruence.
Qed.

(** [_normalize_eq_mul]: a side all of whose multiplicities are zero is
    the value one. *)
Lemma eq_mul_side_empty (first : Node) (c : BitVector.t) (r : CoefficientsMap) :
  Forall (fun e => BitVector.is_zero (snd e) = true) ((first, c) :: r) ->
  eq_mul_side node_id NDEBUG ((first, c) :: r)
  = inr (nm.mk_value (BitVector.mk_one (bv_size (type first)))).
Proof.
  intros Hz. unfold eq_mul_side, mul_operands.
  rewrite (for_each_skip _ _ _ [] Hz); [reflexivity |].
  intros [n0 c1] acc H1. cbn in H1. rewrite H1. reflexivity.
Qed.

End EmptySide.

(** C5.  [3 * 171 <u x] over 8 bits: the left side is a BV_MUL chain of
    two values whose product is 1, so after [normalize_mul] every
    coefficient of its map is zero and the map is empty once the zero
    coefficients are removed.  [normalize_common] rebuilds the side as
    the value 0, not as the neutral element 1 of the multiplication, and
    the comparison becomes [0 <u x]; with and without assertions, with
    and without share-awareness. *)
Theorem normalize_common_mul_chain_gets_zero :
  let run := fun NDEBUG share parents =>
    normalize_comm_assoc (id_of Examples.unit_created) NDEBUG 100 share (@std_sort) parents
      BV_ULT Examples.unit_product Examples.x in
  let wrong := inr (Examples.bvult (Examples.bv8 0) Examples.x, true) in
  run false true [(Examples.unit_product, 1)] = wrong
  /\ run true true [(Examples.unit_product, 1)] = wrong
  /\ run false false [] = wrong
  /\ run true false [] = wrong.
Proof. vm_compute. repeat split; reflexivity. Qed.

(** ** Balancing of equalities and comparisons *)

(** C4, counterexample.  [~(x + y) + z <u (a + 1) + 2] over 8 bits is
    replaced by [((255 * x + 255 * y) + z) + 255 <u a + 3], and the
    flag "normalized" is set: the map of the right side shrinks from
    three entries to two, that of the left side grows from two to four.
    The node count grows from 12 to 15 (as a tree) and from 12 to 13
    (distinct nodes). *)
Lemma normalize_comm_assoc_node_count_grows :
  normalize_comm_assoc (id_of Examples.grow_created) false 100 true (@std_sort)
    Examples.grow_parents BV_ULT Examples.grow_lhs Examples.grow_rhs
  = inr (Examples.grow_result, true)
  /\ Examples.grow_term = nm.mk_node BV_ULT [Examples.grow_lhs; Examples.grow_rhs]
  /\ tree_size Examples.grow_term < tree_size Examples.grow_result
  /\ dag_size Examples.grow_term < dag_size Examples.grow_result.
Proof. vm_compute. repeat split; reflexivity. Qed.

(** C4, the equalities of two chains of one kind.
    [~(x + y) + z = a + a] over 8 bits is replaced by
    [~(x + y) + z = 2 * a]: [normalize_eq_add_mul] compares no sizes, and
    the number of distinct nodes grows from 9 to 10. *)
Lemma normalize_eq_add_mul_node_count_grows :
  let node0 := Examples.bvadd (Examples.bvnot (Examples.bvadd Examples.x Examples.y))
                 Examples.z in
  let node1 := Examples.bvadd Examples.a Examples.a in
  let twice := Examples.bvmul (Examples.bv8 2) Examples.a in
  let created :=
    created_by [Examples.equal node0 node1; Examples.equal node0 twice] in
  normalize_eq_add_mul (id_of created) false 100 false (@std_sort) false false
    mk_nary_left [] node0 node1
  = inr (Examples.equal node0 twice, true)
  /\ dag_size (Examples.equal node0 node1) < dag_size (Examples.equal node0 twice).
Proof. vm_compute. repeat split; reflexivity. Qed.

Section CommAssoc.

Context (node_id : Node -> Z) (NDEBUG : bool) (fuel : nat).
Context (d_share_aware default_keep_value default_push_neg : bool).
Context (unstable_sort : forall A : Type, (A -> A -> bool) -> list A -> list A).
Context (mk_nary : Kind -> list Node -> Node).

(** C4, amended.  Neither function compares node counts.
    [normalize_comm_assoc] returns the original term without rebuilding
    it, with the flag unset, when no side is a chain or when on neither
    side the coefficient map after [normalize_common] has fewer entries
    than the map [compute_coefficients] built; when a map has strictly
    fewer entries, the term over the rebuilt sides is returned, whatever
    its node count, and the flag is set if a rebuilt side differs from
    the original side.  This holds of every call that returns, and once
    the maps are computed the comparison of their sizes decides what the
    call returns.  [normalize_eq_add_mul] has no guard: it returns
    [true] when the normalized sides are one node, the original equality
    when they are the original sides, and their equality otherwise. *)
Theorem normalize_comm_assoc_replaces_iff_map_shrinks
  (d_parents : ParentsMap) (parent_kind : Kind) (node0 node1 : Node) :
  (forall res changed,
     normalize_comm_assoc node_id NDEBUG fuel d_share_aware unstable_sort
       d_parents parent_kind node0 node1 = inr (res, changed) ->
     (comm_assoc_kind (get_top node0) (get_top node1) = None
      /\ res = nm.mk_node parent_kind [node0; node1] /\ changed = false)
     \/ exists k d,
          comm_assoc_kind (get_top node0) (get_top node1) = Some k
          /\ comm_assoc_compute node_id NDEBUG fuel d_share_aware
               unstable_sort d_parents k node0 node1 = inr d
          /\ ((ca_lhs_coeff_size d <= size_of (ca_lhs d)
               /\ ca_rhs_coeff_size d <= size_of (ca_rhs d)
               /\ res = nm.mk_node parent_kind [node0; node1]
               /\ changed = false)
              \/ ((size_of (ca_lhs d) < ca_lhs_coeff_size d
                   \/ size_of (ca_rhs d) < ca_rhs_coeff_size d)
                  /\ exists rebuilt_left rebuilt_right,
                       rebuild_top NDEBUG fuel node0 (ca_top_lhs d) (ca_left d)
                       = inr rebuilt_left
                       /\ rebuild_top NDEBUG fuel node1 (ca_top_rhs d) (ca_right d)
                          = inr rebuilt_right
                       /\ res = nm.mk_node parent_kind [rebuilt_left; rebuilt_right]
                       /\ changed = negb (node_eqb rebuilt_left node0)
                                    || negb (node_eqb rebuilt_right node1))))
  /\ (forall k d,
        comm_assoc_kind (get_top node0) (get_top node1) = Some k ->
        comm_assoc_compute node_id NDEBUG fuel d_share_aware unstable_sort
          d_parents k node0 node1 = inr d ->
        (ca_lhs_coeff_size d <= size_of (ca_lhs d)
         /\ ca_rhs_coeff_size d <= size_of (ca_rhs d) ->
         normalize_comm_assoc node_id NDEBUG fuel d_share_aware unstable_sort
           d_parents parent_kind node0 node1
         = inr (nm.mk_node parent_kind [node0; node1], false))
        /\ (size_of (ca_lhs d) < ca_lhs_coeff_size d
            \/ size_of (ca_rhs d) < ca_rhs_coeff_size d ->
            forall rebuilt_left rebuilt_right,
              rebuild_top NDEBUG fuel node0 (ca_top_lhs d) (ca_left d)
              = inr rebuilt_left ->
              rebuild_top NDEBUG fuel node1 (ca_top_rhs d) (ca_right d)
              = inr rebuilt_right ->
              normalize_comm_assoc node_id NDEBUG fuel d_share_aware
                unstable_sort d_parents parent_kind node0 node1
              = inr (nm.mk_node parent_kind [rebuilt_left; rebuilt_right],
                     negb (node_eqb rebuilt_left node0)
                     || negb (node_eqb rebuilt_right node1))))
  /\ (forall res changed,
        normalize_eq_add_mul node_id NDEBUG fuel d_share_aware unstable_sort
          default_keep_value default_push_neg mk_nary d_parents node0 node1
        = inr (res, changed) ->
        exists coeffs0 coeffs1 left_ right_,
          normalize_coefficients_eq node_id NDEBUG fuel d_share_aware
            unstable_sort default_keep_value default_push_neg d_parents node0
            node1 [] []
          = inr (coeffs0, coeffs1)
          /\ (if kind_eqb (kind node0) BV_ADD
              then _normalize_eq_add node_id NDEBUG mk_nary coeffs0 coeffs1
                     (bv_size (type node0))
              else _normalize_eq_mul node_id NDEBUG coeffs0 coeffs1)
             = inr (left_, right_)
          /\ ((node_eqb left_ right_ = true
               /\ res = nm.mk_value_bool true /\ changed = true)
              \/ (node_eqb left_ right_ = false
                  /\ node_eqb left_ node0 && node_eqb right_ node1 = true
                  /\ res = nm.mk_node EQUAL [node0; node1] /\ changed = false)
              \/ (node_eqb left_ right_ = false
                  /\ node_eqb left_ node0 && node_eqb right_ node1 = false
                  /\ res = nm.mk_node EQUAL [left_; right_] /\ changed = true))).
Proof.
  split; [| split]; [intros res changed H | intros k d Hk Hd | intros res changed H].
  - unfold normalize_comm_assoc in H.
    destruct (comm_assoc_kind _ _) as [k |] eqn:Ek.
    + right. inv_bind H as d Hd. exists k, d.
      split; [reflexivity |]. split; [exact Hd |].
      destruct (comm_assoc_keep d) eqn:Ekeep; unfold comm_assoc_keep in Ekeep.
      * left. apply andb_true_iff in Ekeep as [E1 E2].
        apply Z.leb_le in E1, E2.
        unfold ok in H. injection H as <- <-. auto.
      * right. inv_bind H as rl Hl. inv_bind H as rr Hr.
        unfold ok in H. injection H as <- <-. split.
        -- apply andb_false_iff in Ekeep as [E | E]; apply Z.leb_gt in E; auto.
        -- exists rl, rr. auto.
    + left. unfold ok in H. injection H as <- <-. auto.
  - unfold normalize_comm_assoc. rewrite Hk, Hd. cbn [mbind Res_bind].
    unfold comm_assoc_keep. split.
    + intros [H1 H2]. apply Z.leb_le in H1, H2. rewrite H1, H2. reflexivity.
    + intros Hshrink rl rr Hl Hr.
      replace ((ca_lhs_coeff_size d <=? size_of (ca_lhs d))
               && (ca_rhs_coeff_size d <=? size_of (ca_rhs d))) with false.
      * rewrite Hl, Hr. reflexivity.
      * symmetry. apply andb_false_iff.
        destruct Hshrink as [E | E]; [left | right]; apply Z.leb_gt; exact E.
  - unfold normalize_eq_add_mul in H.
    inv_bind H as u1 H1. inv_bind H as u2 H2.
    inv_bind H as cs Hcs. destruct cs as [coeffs0 coeffs1].
    inv_bind H as u3 H3. inv_bind H as sides Hsides.
    destruct sides as [left_ right_].
    exists coeffs0, coeffs1, left_, right_.
    split; [exact Hcs |]. split; [exact Hsides |].
    destruct (node_eqb left_ right_) eqn:Elr.
    + left. unfold ok in H. injection H as <- <-. auto.
    + right.
      destruct (node_eqb left_ node0 && node_eqb right_ node1) eqn:Esame;
        unfold ok in H; injection H as <- <-; auto.
Qed.

End CommAssoc.

Lemma normalize_comm_assoc_replaces_iff_map_shrinks_witness :
  let node_id := id_of Examples.grow_created in
  let node0 := Examples.bvadd (Examples.bvnot (Examples.bvadd Examples.x Examples.y))
                 Examples.z in
  let node1 := Examples.bvadd Examples.a Examples.a in
  let twice := Examples.bvmul (Examples.bv8 2) Examples.a in
  let eq_id :=
    id_of (created_by [Examples.equal node0 node1; Examples.equal node0 twice]) in
  (exists d,
     comm_assoc_compute node_id false 100 true (@std_sort) Examples.grow_parents BV_ADD
       Examples.grow_lhs Examples.grow_rhs = inr d
     /\ (size_of (ca_lhs d) < ca_lhs_coeff_size d
         \/ size_of (ca_rhs d) < ca_rhs_coeff_size d)
     /\ exists rebuilt_left rebuilt_right,
          rebuild_top false 100 Examples.grow_lhs (ca_top_lhs d) (ca_left d)
          = inr rebuilt_left
          /\ rebuild_top false 100 Examples.grow_rhs (ca_top_rhs d) (ca_right d)
             = inr rebuilt_right
          /\ Examples.grow_result = nm.mk_node BV_ULT [rebuilt_left; rebuilt_right])
  /\ (exists coeffs0 coeffs1,
        normalize_coefficients_eq eq_id false 100 false (@std_sort) false false [] node0
          node1 [] []
        = inr (coeffs0, coeffs1)
        /\ _normalize_eq_add eq_id false mk_nary_left coeffs0 coeffs1 8
           = inr (node0, twice)).
Proof.
  intros node_id node0 node1 twice eq_id.
  destruct (normalize_comm_assoc_replaces_iff_map_shrinks node_id false 100
              true false false (@std_sort) mk_nary_left Examples.grow_parents BV_ULT
              Examples.grow_lhs Examples.grow_rhs) as [Hca _].
  destruct (normalize_comm_assoc_replaces_iff_map_shrinks eq_id false 100
              false false false (@std_sort) mk_nary_left [] EQUAL node0 node1) as (_ & _ & Heq).
  split.
  - destruct (Hca Examples.grow_result true ltac:(vm_compute; reflexivity))
      as [(Hk & _) | (k & d & Hk & Hd & [(_ & _ & _ & Hc) | (Hshrink & Hrebuilt)])].
    + vm_compute in Hk. discriminate Hk.
    + discriminate Hc.
    + injection Hk as <-. exists d. split; [exact Hd |]. split; [exact Hshrink |].
      destruct Hrebuilt as (rl & rr & Hl & Hr & Hres & _).
      exists rl, rr. auto.
  - destruct (Heq (Examples.equal node0 twice) true ltac:(vm_compute; reflexivity))
      as (coeffs0 & coeffs1 & left_ & right_ & Hcs & Hsides
          & [(_ & Hres & _) | [(_ & _ & _ & Hc) | (_ & _ & Hres & _)]]).
    + discriminate Hres.
    + discriminate Hc.
    + injection Hres as <- <-. exists coeffs0, coeffs1. auto.
Defined.

(** ** [apply]: the guard on the AIG size and the number of assertions *)

Lemma replace_all_length (assertions : AssertionVector) (processed : list Node)
  (assertions' : AssertionVector) :
  replace_all assertions processed = inr assertions' ->
  List.length assertions' = List.length assertions.
Proof.
  unfold replace_all. intros H.
  apply (for_each_invariant
           (fun s : AssertionVector => List.length s = List.length assertions))
    in H; [exact H | | reflexivity].
  intros i s s' Hstep Hs.
  destruct (s !! i) as [a0 |]; [| discriminate].
  destruct (processed !! i) as [p0 |]; [| discriminate].
  destruct (negb (node_eqb a0 p0)); unfold ok in Hstep;
    injection Hstep as <-; [| exact Hs].
  unfold replace. rewrite length_insert. exact Hs.
Qed.

Section Apply.

Context (node_id : Node -> Z) (NDEBUG : bool) (fuel : nat).
Context (d_share_aware default_keep_value default_push_neg : bool).
Context (unstable_sort : forall A : Type, (A -> A -> bool) -> list A -> list A).
Context (mk_nary : Kind -> list Node -> Node) (rewrite : Node -> Node).
Context (AigNodeRefSet : Type) (aig_empty : AigNodeRefSet).
Context (count_aig_ands : Node -> AigNodeRefSet -> Z * AigNodeRefSet).
Context (count_parents : Node -> ParentsMap -> NodeSet -> ParentsMap * NodeSet).
Context (substitute : Node -> NodeMap Node -> NodeMap Node -> Node * NodeMap Node).
Context (adder_results : NodeMap CoefficientsMap -> NodeMap Node).

#[local] Abbreviation apply_ :=
  (apply node_id NDEBUG fuel d_share_aware unstable_sort default_keep_value
     default_push_neg mk_nary rewrite AigNodeRefSet aig_empty count_aig_ands
     count_parents substitute adder_results).
#[local] Abbreviation apply_compute_ :=
  (apply_compute node_id NDEBUG fuel d_share_aware unstable_sort default_keep_value
     default_push_neg mk_nary rewrite AigNodeRefSet aig_empty count_aig_ands
     count_parents substitute adder_results).
#[local] Abbreviation first_pass_step_ :=
  (first_pass_step node_id NDEBUG fuel d_share_aware unstable_sort default_keep_value
     default_push_neg mk_nary rewrite AigNodeRefSet count_aig_ands).
#[local] Abbreviation add_ := (add_aig_size AigNodeRefSet count_aig_ands).
#[local] Abbreviation aig_size_ := (aig_size aig_empty count_aig_ands).

(** The first loop sums the counts of the assertions it reads and of the
    assertions it pushes. *)
Lemma first_pass_sizes (l : list Node) :
  forall acc fp,
    for_each l first_pass_step_ acc = inr fp ->
    fp_before fp = fold_left (fun a n => add_ n a) l (fp_before acc)
    /\ exists news,
         fp_new_assertions fp = fp_new_assertions acc ++ news
         /\ fp_after1 fp = fold_left (fun a n => add_ n a) news (fp_after1 acc).
Proof.
  induction l as [| x r IH]; cbn [for_each]; intros acc fp H.
  - unfold ok in H. injection H as <-. split; [reflexivity |].
    exists []. rewrite app_nil_r. split; reflexivity.
  - inv_bind H. apply IH in H as [Hb (news & Hn & Ha1)].
    unfold first_pass_step in Ha.
    destruct (negb (ns_mem _ x)).
    + inv_bind Ha. destruct a0 as [processed st1].
      unfold ok in Ha. injection Ha as <-. cbn in *.
      split; [exact Hb |].
      exists (processed :: news). rewrite Hn, <- app_assoc. split; [reflexivity |].
      exact Ha1.
    + unfold ok in Ha. injection Ha as <-. cbn in *.
      split; [exact Hb |].
      exists (x :: news). rewrite Hn, <- app_assoc. split; [reflexivity |].
      exact Ha1.
Qed.

Lemma apply_compute_sizes (st : PassState) (assertions : AssertionVector)
  (d : apply_data) :
  apply_compute_ st assertions = inr d ->
  ad_size_before d = aig_size_ assertions
  /\ ad_size_after1 d = aig_size_ (ad_new_assertions d)
  /\ ad_size_after2 d = aig_size_ (ad_norm_assertions d).
Proof.
  unfold apply_compute. intros H. inv_bind H.
  destruct (if d_share_aware then _ else _) as [parents parents_cache].
  inv_bind H. rename a0 into fp.
  apply first_pass_sizes in Ha0 as [Hb (news & Hn & Ha1)].
  inv_bind H as norm_assertions Hnorm.
  unfold ok in H. injection H as <-. cbn in *.
  unfold aig_size. rewrite Hb, Ha1, Hn. repeat split; reflexivity.
Qed.

(** What [apply] does with the assertions, given what it computed. *)
Lemma apply_inv (st st' : PassState) (assertions assertions' : AssertionVector) :
  apply_ st assertions = inr (assertions', st') ->
  exists d,
    apply_compute_ st assertions = inr d
    /\ (size_after d < ad_size_before d
        /\ replace_all assertions (processed_assertions d) = inr assertions'
        \/ ad_size_before d <= size_after d /\ assertions' = assertions).
Proof.
  unfold apply. intros H. inv_bind H. rename a into d.
  exists d. split; [exact Ha |].
  inv_bind H. unfold ok in H. injection H as <- _.
  destruct (size_after d <? ad_size_before d) eqn:E.
  - apply Z.ltb_lt in E. left. split; [exact E |].
    inv_bind Ha0. exact Ha0.
  - apply Z.ltb_ge in E. right. split; [exact E |].
    unfold ok in Ha0. congruence.
Qed.

(** C3.  [apply] leaves the assertions as they are unless the counted
    AIG size of the chosen assertions is strictly smaller than that of
    the input; the chosen assertions are those of the second pass (the
    sharing of adder chains) only if their AIG size is strictly smaller
    than that of the first pass, and those of the first pass otherwise. *)
Theorem apply_replaces_only_if_smaller (st st' : PassState)
  (assertions assertions' : AssertionVector) :
  apply_ st assertions = inr (assertions', st') ->
  exists d,
    apply_compute_ st assertions = inr d
    /\ ad_size_before d = aig_size_ assertions
    /\ ad_size_after1 d = aig_size_ (ad_new_assertions d)
    /\ ad_size_after2 d = aig_size_ (ad_norm_assertions d)
    /\ (processed_assertions d = ad_norm_assertions d
        /\ aig_size_ (ad_norm_assertions d) < aig_size_ (ad_new_assertions d)
        \/ processed_assertions d = ad_new_assertions d
           /\ aig_size_ (ad_new_assertions d) <= aig_size_ (ad_norm_assertions d))
    /\ (aig_size_ (processed_assertions d) < aig_size_ assertions
        /\ replace_all assertions (processed_assertions d) = inr assertions'
        \/ aig_size_ assertions <= aig_size_ (processed_assertions d)
           /\ assertions' = assertions).
Proof.
  intros H. apply apply_inv in H as (d & Ha & Hrepl).
  pose proof (apply_compute_sizes _ _ _ Ha) as (Hb & H1 & H2).
  exists d. split; [exact Ha |]. split; [exact Hb |].
  split; [exact H1 |]. split; [exact H2 |].
  assert (Hsel : processed_assertions d = ad_norm_assertions d
                 /\ ad_size_after2 d < ad_size_after1 d
                 /\ size_after d = ad_size_after2 d
                 \/ processed_assertions d = ad_new_assertions d
                    /\ ad_size_after1 d <= ad_size_after2 d
                    /\ size_after d = ad_size_after1 d).
  { unfold processed_assertions, size_after.
    destruct (ad_size_after2 d <? ad_size_after1 d) eqn:E.
    - apply Z.ltb_lt in E. left. repeat split; [exact E | lia].
    - apply Z.ltb_ge in E. right. repeat split; [exact E | lia]. }
  assert (Hsize : aig_size_ (processed_assertions d) = size_after d).
  { destruct Hsel as [(-> & _ & ->) | (-> & _ & ->)]; congruence. }
  split.
  - destruct Hsel as [(E & Hlt & _) | (E & Hle & _)]; [left | right];
      (split; [exact E | congruence]).
  - rewrite Hsize, <- Hb. exact Hrepl.
Qed.

(** C10.  [apply] only replaces assertions at their index: the vector has
    as many assertions after the pass as before. *)
Theorem apply_preserves_number_of_assertions (st st' : PassState)
  (assertions assertions' : AssertionVector) :
  apply_ st assertions = inr (assertions', st') ->
  List.length assertions' = List.length assertions.
Proof.
  intros H. apply apply_inv in H as (d & _ & [(_ & Hr) | (_ & ->)]).
  - exact (replace_all_length _ _ _ Hr).
  - reflexivity.
Qed.

End Apply.

Lemma apply_replaces_only_if_smaller_witness :
  let st' := mkPassState [] [] [] 1 [ApplyExample.shrink_term] in
  ApplyExample.run [ApplyExample.shrink_term]
  = inr ([ApplyExample.shrink_result], st')
  /\ aig_size tt ApplyExample.count_tree [ApplyExample.shrink_result]
     < aig_size tt ApplyExample.count_tree [ApplyExample.shrink_term].
Proof.
  intros st'. split; [vm_compute; reflexivity |].
  destruct (apply_replaces_only_if_smaller (id_of ApplyExample.created) false
              100 false false false (@std_sort) mk_nary_left (fun n => n) unit tt
              ApplyExample.count_tree (fun _ p c => (p, c))
              (fun n _ c => (n, c)) (fun _ => []) ApplyExample.initial st'
              [ApplyExample.shrink_term] [ApplyExample.shrink_result]
              ltac:(vm_compute; reflexivity))
    as (d & Hd & _ & _ & _ & _ & [(Hlt & _) | (_ & Hsame)]).
  - vm_compute. reflexivity.
  - discriminate Hsame.
Defined.

Lemma apply_preserves_number_of_assertions_witness :
  let assertions := [Examples.grow_term; ApplyExample.shrink_term] in
  let st' :=
    mkPassState [] [] [] 2 [ApplyExample.shrink_term; Examples.grow_term] in
  ApplyExample.run assertions = inr (assertions, st')
  /\ List.length assertions = 2%nat.
Proof.
  intros assertions st'. split; [vm_compute; reflexivity |].
  exact (apply_preserves_number_of_assertions (id_of ApplyExample.created)
           false 100 false false false (@std_sort) mk_nary_left (fun n => n) unit tt
           ApplyExample.count_tree (fun _ p c => (p, c))
           (fun n _ c => (n, c)) (fun _ => []) ApplyExample.initial st'
           assertions assertions ltac:(vm_compute; reflexivity)).
Defined.

(** ** The quantifier loop *)

Section FindModel.

Context {Bzla : Type} (api : @BzlaApi Bzla) (NDEBUG : bool).
Context (synthesize_model :
  @BzlaGroundSolvers Bzla -> FlatModel -> Res (SynthModel * BzlaQuantStats)).
Context (instantiate_formula :
  @BzlaGroundSolvers Bzla -> option SynthModel -> Res (BzlaNode * BzlaNodeMap)).
Context (build_refinement : Bzla -> BzlaNode -> BzlaNodeMap -> Res BzlaNode).
Context (synthesize_quant_inst : @BzlaGroundSolvers Bzla -> Res (Bzla * BzlaNodeMap)).

#[local] Abbreviation find_model_ :=
  (find_model api NDEBUG synthesize_model instantiate_formula build_refinement
     synthesize_quant_inst).
#[local] Abbreviation e_step_ := (e_step api NDEBUG synthesize_model).
#[local] Abbreviation f_step_ :=
  (f_step api NDEBUG instantiate_formula build_refinement synthesize_quant_inst).
#[local] Abbreviation refine_ :=
  (refine_exists_solver api NDEBUG build_refinement).

(** C1.  One call of [find_model].  If the E-solver is asked and says
    Unsat, the call returns Unsat; if it says Unknown, the call returns
    Unknown.  When the E-step hands over to the F-step with the
    instance [g] of the formula: if there are no universal variables,
    [g] is asserted to the F-solver and the call returns what its
    [check_sat] says; otherwise the negation of [g] is assumed and the
    call returns Sat when the F-solver says Unsat and Unknown when it
    says Unknown.  (With assertions enabled the code requires the
    termination flag of a solver that says Unknown, [skip_exists] when
    there are no universal variables, and a formula that is no proxy.) *)
Theorem find_model_results (gslv : @BzlaGroundSolvers Bzla) (skip_exists : bool) :
  (skip_exists = false ->
   fst (bzla_check_sat api (exists_ gslv)) = BZLA_RESULT_UNSAT ->
   exists gslv', find_model_ gslv skip_exists = inr (BZLA_RESULT_UNSAT, gslv'))
  /\ (skip_exists = false ->
      fst (bzla_check_sat api (exists_ gslv)) = BZLA_RESULT_UNKNOWN ->
      NDEBUG = true
      \/ bzla_terminate api (snd (bzla_check_sat api (exists_ gslv))) = true ->
      exists gslv', find_model_ gslv skip_exists = inr (BZLA_RESULT_UNKNOWN, gslv'))
  /\ (forall synth_model gslv1 g evar_map,
        e_step_ gslv skip_exists = inr (EContinue synth_model gslv1) ->
        instantiate_formula gslv1 synth_model = inr (g, evar_map) ->
        (nodemap_count (forall_uvars gslv1) = 0 ->
         NDEBUG = true \/ skip_exists = true ->
         let checked :=
           bzla_check_sat api (bzla_assert_exp api (forall_ gslv1) g) in
         find_model_ gslv skip_exists
         = inr (fst checked, set_forall gslv1 (snd checked) (forall_formula gslv1)))
        /\ (nodemap_count (forall_uvars gslv1) <> 0 ->
            let checked :=
              bzla_check_sat api
                (bzla_assume_exp api (forall_ gslv1) (bzla_node_invert g)) in
            let gslv2 :=
              update_formula api
                (set_forall gslv1 (snd checked) (forall_formula gslv1)) in
            NDEBUG = true
            \/ bzla_node_is_proxy api (forall_ gslv2) (forall_formula gslv2) = false ->
            (fst checked = BZLA_RESULT_UNSAT ->
             find_model_ gslv skip_exists = inr (BZLA_RESULT_SAT, gslv2))
            /\ (fst checked = BZLA_RESULT_UNKNOWN ->
                NDEBUG = true \/ bzla_terminate api (forall_ gslv2) = true ->
                find_model_ gslv skip_exists = inr (BZLA_RESULT_UNKNOWN, gslv2)))).
Proof.
  split; [| split].
  - intros -> Hr. unfold find_model, e_step. cbn [negb].
    destruct (bzla_check_sat api (exists_ gslv)) as [r e]. cbn in Hr. subst r.
    cbn. eauto.
  - intros -> Hr Ht. unfold find_model, e_step. cbn [negb].
    destruct (bzla_check_sat api (exists_ gslv)) as [r e]. cbn in Hr, Ht. subst r.
    cbn [exists_ set_exists]. unfold assert_.
    rewrite (c_assert_holds NDEBUG _ Ht). cbn. eauto.
  - intros synth_model gslv1 g evar_map He Hi. unfold find_model.
    rewrite He. cbn. unfold f_step. rewrite Hi. cbn. split.
    + intros Hn Hs. apply Z.eqb_eq in Hn. rewrite Hn.
      unfold assert_. rewrite (c_assert_holds NDEBUG _ Hs). cbn.
      destruct (bzla_check_sat api _) as [res f]. reflexivity.
    + intros Hn Hp. apply Z.eqb_neq in Hn. rewrite Hn.
      destruct (bzla_check_sat api _) as [r f]. cbn [fst snd] in *.
      unfold assert_.
      rewrite (c_assert_holds NDEBUG (negb _)); cycle 1.
      { destruct Hp as [Hp | Hp]; [left; exact Hp | right].
        rewrite Hp. reflexivity. }
      cbn. split.
      * intros ->. reflexivity.
      * intros -> Ht. rewrite (c_assert_holds NDEBUG _ Ht). reflexivity.
Qed.

End FindModel.

Lemma find_model_results_witness :
  let idle := Script.solver [] BZLA_RESULT_UNKNOWN false in
  let uvars := [(Script.uvar, Script.uvar_const)] in
  let says := fun r flag => Script.solver [r] BZLA_RESULT_UNKNOWN flag in
  (exists gslv',
     Script.find_model false
       (Script.bundle idle (says BZLA_RESULT_UNSAT false) uvars []) false
     = inr (BZLA_RESULT_UNSAT, gslv'))
  /\ (exists gslv',
        Script.find_model false
          (Script.bundle idle (says BZLA_RESULT_UNKNOWN true) uvars []) false
        = inr (BZLA_RESULT_UNKNOWN, gslv'))
  /\ (exists gslv',
        Script.find_model false
          (Script.bundle (says BZLA_RESULT_UNSAT false) idle [] []) true
        = inr (BZLA_RESULT_UNSAT, gslv'))
  /\ (exists gslv',
        Script.find_model false
          (Script.bundle (says BZLA_RESULT_UNSAT false) idle uvars []) true
        = inr (BZLA_RESULT_SAT, gslv'))
  /\ (exists gslv',
        Script.find_model false
          (Script.bundle (says BZLA_RESULT_UNKNOWN true) idle uvars []) true
        = inr (BZLA_RESULT_UNKNOWN, gslv')).
Proof.
  intros idle uvars says.
  pose (thm := fun gslv skip =>
          find_model_results Script.api false Script.synthesize_model
            Script.instantiate_formula Script.build_refinement
            Script.synthesize_quant_inst gslv skip).
  repeat split.
  - destruct (thm (Script.bundle idle (says BZLA_RESULT_UNSAT false) uvars []) false)
      as (H & _).
    apply H; reflexivity.
  - destruct (thm (Script.bundle idle (says BZLA_RESULT_UNKNOWN true) uvars []) false)
      as (_ & H & _).
    apply H; [reflexivity | reflexivity | right; reflexivity].
  - eexists.
    destruct (thm (Script.bundle (says BZLA_RESULT_UNSAT false) idle [] []) true)
      as (_ & _ & H).
    destruct (H None _ (mkBzlaNode 50 false) [(Script.evar, Script.evar)]
                eq_refl eq_refl) as [H0 _].
    apply H0; [reflexivity | right; reflexivity].
  - eexists.
    destruct (thm (Script.bundle (says BZLA_RESULT_UNSAT false) idle uvars []) true)
      as (_ & _ & H).
    destruct (H None _ (mkBzlaNode 50 false) [(Script.evar, Script.evar)]
                eq_refl eq_refl) as [_ H1].
    apply H1; [discriminate | right; reflexivity | reflexivity].
  - eexists.
    destruct (thm (Script.bundle (says BZLA_RESULT_UNKNOWN true) idle uvars []) true)
      as (_ & _ & H).
    destruct (H None _ (mkBzlaNode 50 false) [(Script.evar, Script.evar)]
                eq_refl eq_refl) as [_ H1].
    apply H1; [discriminate | right; reflexivity | reflexivity
              | right; reflexivity].
Defined.

Lemma table_add_inr {D : Type} (t t' : TupleTable D) (k : BzlaBitVectorTuple)
  (d : D) :
  table_add t k d = inr t' -> table_get t k = None /\ t' = t ++ [(k, d)].
Proof.
  unfold table_add. destruct (table_get t k); [discriminate |].
  unfold ok. intros H. injection H as <-. split; reflexivity.
Qed.

Section Refinement.

Context {Bzla : Type} (api : @BzlaApi Bzla) (NDEBUG : bool).
Context (synthesize_model :
  @BzlaGroundSolvers Bzla -> FlatModel -> Res (SynthModel * BzlaQuantStats)).
Context (instantiate_formula :
  @BzlaGroundSolvers Bzla -> option SynthModel -> Res (BzlaNode * BzlaNodeMap)).
Context (build_refinement : Bzla -> BzlaNode -> BzlaNodeMap -> Res BzlaNode).
Context (synthesize_quant_inst : @BzlaGroundSolvers Bzla -> Res (Bzla * BzlaNodeMap)).

#[local] Abbreviation find_model_ :=
  (find_model api NDEBUG synthesize_model instantiate_formula build_refinement
     synthesize_quant_inst).
#[local] Abbreviation e_step_ := (e_step api NDEBUG synthesize_model).

(** The E-step does not touch the counter-examples, and it hands over
    only if it was skipped or the E-solver said Sat. *)
Lemma e_step_inv (gslv : @BzlaGroundSolvers Bzla) (skip_exists : bool)
  (r : e_step_result) :
  e_step_ gslv skip_exists = inr r ->
  match r with
  | EDone res gslv' =>
      forall_ces gslv' = forall_ces gslv
      /\ skip_exists = false
      /\ fst (bzla_check_sat api (exists_ gslv)) = res
      /\ res <> BZLA_RESULT_SAT
  | EContinue _ gslv1 =>
      forall_ces gslv1 = forall_ces gslv
      /\ (skip_exists = true
          \/ fst (bzla_check_sat api (exists_ gslv)) = BZLA_RESULT_SAT)
  end.
Proof.
  unfold e_step. destruct skip_exists; cbn [negb].
  - unfold ok. intros H. injection H as <-. auto.
  - destruct (bzla_check_sat api (exists_ gslv)) as [res e]. cbn [fst].
    destruct res; intros H.
    + inv_bind H as [flat_model e'] Hfm. inv_bind H as [synth_model stats] Hsm.
      unfold ok in H. injection H as <-. cbn. auto.
    + unfold ok in H. injection H as <-. cbn. repeat split. discriminate.
    + inv_bind H as ? Ht. unfold ok in H. injection H as <-. cbn.
      repeat split. discriminate.
Qed.

Lemma update_formula_forall_ces (gslv : @BzlaGroundSolvers Bzla) :
  forall_ces (update_formula api gslv) = forall_ces gslv.
Proof.
  unfold update_formula. destruct (bzla_node_is_proxy _ _ _); reflexivity.
Qed.

(** [refine_exists_solver] adds the counter-example it extracts, which
    was not in the table. *)
Lemma refine_exists_solver_inv (gslv gslv' : @BzlaGroundSolvers Bzla)
  (evar_map : BzlaNodeMap) :
  refine_exists_solver api NDEBUG build_refinement gslv evar_map = inr gslv' ->
  exists ce evar_tup,
    counter_example api NDEBUG gslv (generate_model api (forall_ gslv)) evar_map
    = inr (ce, evar_tup)
    /\ table_get (forall_ces gslv) ce = None
    /\ forall_ces gslv' = forall_ces gslv ++ [(ce, evar_tup)].
Proof.
  unfold refine_exists_solver. intros H.
  inv_bind H as ? H0. inv_bind H as ? H1.
  inv_bind H as [ce evar_tup] Hce. inv_bind H as map Hmap.
  inv_bind H as r Hr. inv_bind H as ? H2. inv_bind H as ? H3.
  inv_bind H as ? H4. inv_bind H as ces Hces.
  unfold ok in H. injection H as <-. cbn [forall_ces].
  apply table_add_inr in Hces as [Hnone ->].
  exists ce, evar_tup. repeat split; assumption.
Qed.

Lemma table_count_app {D : Type} (t : TupleTable D) (k : BzlaBitVectorTuple)
  (d : D) : table_count (t ++ [(k, d)]) = table_count t + 1.
Proof. unfold table_count. rewrite length_app. cbn. lia. Qed.

(** C6, amended.  A call of [find_model] that returns has either
    refined: the E-step was skipped or the E-solver said Sat, there are
    universal variables, the F-solver said Sat on the negated candidate,
    and the counter-example read from its model was not in [forall_ces]
    and has been added to it, so the table has one entry more (and the
    call returns Unknown, for the loop to go on); or it has returned
    with [forall_ces] as it was: the E-solver said Unsat or Unknown, or
    there are no universal variables, or the F-solver did not say Sat. *)
Theorem find_model_grows_forall_ces (gslv gslv' : @BzlaGroundSolvers Bzla)
  (skip_exists : bool) (res : BzlaSolverResult) :
  find_model_ gslv skip_exists = inr (res, gslv') ->
  (exists synth_model gslv1 g evar_map ce evar_tup,
     e_step_ gslv skip_exists = inr (EContinue synth_model gslv1)
     /\ (skip_exists = true
         \/ fst (bzla_check_sat api (exists_ gslv)) = BZLA_RESULT_SAT)
     /\ instantiate_formula gslv1 synth_model = inr (g, evar_map)
     /\ nodemap_count (forall_uvars gslv1) <> 0
     /\ (let checked :=
           bzla_check_sat api
             (bzla_assume_exp api (forall_ gslv1) (bzla_node_invert g)) in
         let gslv2 :=
           update_formula api
             (set_forall gslv1 (snd checked) (forall_formula gslv1)) in
         fst checked = BZLA_RESULT_SAT
         /\ counter_example api NDEBUG gslv2
              (generate_model api (forall_ gslv2)) evar_map
            = inr (ce, evar_tup))
     /\ table_get (forall_ces gslv) ce = None
     /\ forall_ces gslv' = forall_ces gslv ++ [(ce, evar_tup)]
     /\ table_count (forall_ces gslv') = table_count (forall_ces gslv) + 1
     /\ res = BZLA_RESULT_UNKNOWN)
  \/ (forall_ces gslv' = forall_ces gslv
      /\ ((skip_exists = false
           /\ fst (bzla_check_sat api (exists_ gslv)) = res
           /\ res <> BZLA_RESULT_SAT)
          \/ exists synth_model gslv1 g evar_map,
               e_step_ gslv skip_exists = inr (EContinue synth_model gslv1)
               /\ instantiate_formula gslv1 synth_model = inr (g, evar_map)
               /\ (nodemap_count (forall_uvars gslv1) = 0
                   \/ fst (bzla_check_sat api
                             (bzla_assume_exp api (forall_ gslv1)
                                (bzla_node_invert g)))
                      <> BZLA_RESULT_SAT))).
Proof.
  unfold find_model. intros H. inv_bind H as r He.
  pose proof (e_step_inv _ _ _ He) as Hinv.
  destruct r as [res0 gslv0 | synth_model gslv1].
  - unfold ok in H. injection H as <- <-.
    destruct Hinv as (Hces & Hskip & Hres & Hne).
    right. split; [exact Hces |]. left. auto.
  - destruct Hinv as (Hces & Hpath).
    unfold f_step in H. inv_bind H as [g evar_map] Hi.
    destruct (nodemap_count (forall_uvars gslv1) =? 0) eqn:En.
    + apply Z.eqb_eq in En. inv_bind H as ? H0.
      destruct (bzla_check_sat api _) as [r f].
      unfold ok in H. injection H as <- <-.
      right. split; [exact Hces |]. right.
      exists synth_model, gslv1, g, evar_map. auto.
    + apply Z.eqb_neq in En.
      destruct (bzla_check_sat api _) as [r f] eqn:Ec.
      inv_bind H as ? H0.
      destruct r.
      * left. inv_bind H as gslv3 Href.
        apply refine_exists_solver_inv in Href
          as (ce & evar_tup & Hce & Hnone & Hadd).
        rewrite update_formula_forall_ces in Hnone, Hadd. cbn in Hnone, Hadd.
        rewrite Hces in Hnone, Hadd.
        assert (Hfinal : forall_ces gslv' = forall_ces gslv ++ [(ce, evar_tup)]
                         /\ res = BZLA_RESULT_UNKNOWN).
        { destruct (opt_quant_synth_qi api (forall_ gslv1) =? 1).
          - inv_bind H as [e cur_qi] Hqi.
            unfold ok in H. injection H as <- <-. cbn. auto.
          - unfold ok in H. injection H as <- <-. auto. }
        destruct Hfinal as [Hf ->].
        exists synth_model, gslv1, g, evar_map, ce, evar_tup.
        rewrite Ec. cbn [fst snd].
        repeat split; try assumption.
        rewrite Hf. apply table_count_app.
      * right. unfold ok in H. injection H as <- <-.
        rewrite update_formula_forall_ces. cbn.
        split; [exact Hces |]. right.
        exists synth_model, gslv1, g, evar_map. rewrite Ec. cbn.
        repeat split; try assumption. right. discriminate.
      * right. inv_bind H as ? H1. unfold ok in H. injection H as <- <-.
        rewrite update_formula_forall_ces. cbn.
        split; [exact Hces |]. right.
        exists synth_model, gslv1, g, evar_map. rewrite Ec. cbn.
        repeat split; try assumption. right. discriminate.
Qed.

End Refinement.

(** C6, counterexample.  The first call of the loop skips the E-step:
    the E-solver is not asked (and would have said Unsat here).  The
    F-solver says Sat on the negated candidate, and the call does not
    return before the refinement: it adds a counter-example to the empty
    table and returns Unknown. *)
Lemma find_model_refines_without_exists_answer :
  let f_solver := Script.solver [BZLA_RESULT_SAT] BZLA_RESULT_UNKNOWN false in
  let e_solver := Script.solver [BZLA_RESULT_UNSAT] BZLA_RESULT_UNKNOWN false in
  let gslv :=
    Script.bundle f_solver e_solver [(Script.uvar, Script.uvar_const)] [] in
  exists gslv',
    Script.find_model false gslv true = inr (BZLA_RESULT_UNKNOWN, gslv')
    /\ Script.answers (exists_ gslv') = [BZLA_RESULT_UNSAT]
    /\ Script.last (exists_ gslv') = BZLA_RESULT_UNKNOWN
    /\ forall_ces gslv = []
    /\ forall_ces gslv' = [(Script.ce_of 20, Some (Script.ce_of 100))].
Proof. eexists. vm_compute. repeat split; reflexivity. Qed.

Lemma find_model_grows_forall_ces_witness :
  let says := fun r => Script.solver [r] BZLA_RESULT_UNKNOWN false in
  let gslv :=
    Script.bundle (says BZLA_RESULT_SAT) (says BZLA_RESULT_SAT)
      [(Script.uvar, Script.uvar_const)]
      [(Script.ce_of 7, Some (Script.ce_of 1));
       (Script.ce_of 9, Some (Script.ce_of 1))] in
  exists gslv',
    Script.find_model false gslv false = inr (BZLA_RESULT_UNKNOWN, gslv')
    /\ table_get (forall_ces gslv) (Script.ce_of 20) = None
    /\ forall_ces gslv'
       = forall_ces gslv ++ [(Script.ce_of 20, Some (Script.ce_of 100))]
    /\ table_count (forall_ces gslv') = 3.
Proof.
  intros says gslv. eexists. split; [vm_compute; reflexivity |].
  destruct (find_model_grows_forall_ces Script.api false
              Script.synthesize_model Script.instantiate_formula
              Script.build_refinement Script.synthesize_quant_inst
              gslv _ false BZLA_RESULT_UNKNOWN ltac:(vm_compute; reflexivity))
    as [(sm & gslv1 & g & em & ce & et & _ & _ & _ & _ & _ & Hnone & Hadd & Hcount & _)
       | (Hsame & _)].
  - vm_compute in Hadd. vm_compute. repeat split; reflexivity.
  - vm_compute in Hsame. discriminate.
Defined.

(** ** The flat model *)

Lemma index_map_fold_notin (l : BzlaNodeMap) :
  forall (im : gmap Z Z) (i0 : Z) (id : Z),
    id ∉ map (fun p => bzla_id (fst p)) l ->
    fst (fold_left
           (fun '(im, i) '(cur, _) => (<[bzla_id cur := i]> im, u32 (i + 1)))
           l (im, i0)) !! id
    = im !! id.
Proof.
  induction l as [| [k v] r IH]; intros im i0 id Hid; [reflexivity |].
  cbn in Hid |- *. rewrite not_elem_of_cons in Hid. destruct Hid as [Hne Hid].
  rewrite IH by exact Hid. apply lookup_insert_ne. congruence.
Qed.

Lemma index_map_fold_lookup (l : BzlaNodeMap) :
  forall (im : gmap Z Z) (i0 : Z) (j : nat) (k v : BzlaNode),
    NoDup (map (fun p => bzla_id (fst p)) l) ->
    l !! j = Some (k, v) ->
    0 <= i0 -> i0 + Z.of_nat (List.length l) <= 2 ^ 32 ->
    fst (fold_left
           (fun '(im, i) '(cur, _) => (<[bzla_id cur := i]> im, u32 (i + 1)))
           l (im, i0)) !! bzla_id k
    = Some (i0 + Z.of_nat j).
Proof.
  induction l as [| [k0 v0] r IH]; intros im i0 j k v Hnd Hj H0 Hlen;
    [discriminate |].
  cbn in Hnd. apply NoDup_cons in Hnd as [Hnotin Hnd].
  cbn [List.length] in Hlen. cbn [fold_left].
  destruct j as [| j]; cbn in Hj.
  - injection Hj as -> ->.
    rewrite index_map_fold_notin by exact Hnotin.
    rewrite lookup_insert_eq. f_equal. lia.
  - assert (Hu : u32 (i0 + 1) = i0 + 1).
    { unfold u32. apply Z.mod_small.
      apply lookup_lt_Some in Hj. lia. }
    rewrite Hu. rewrite (IH _ (i0 + 1) j k v Hnd Hj) by lia.
    f_equal. lia.
Qed.

Lemma index_map_lookup (m : BzlaNodeMap) (j : nat) (k v : BzlaNode) :
  NoDup (map (fun p => bzla_id (fst p)) m) ->
  m !! j = Some (k, v) ->
  nodemap_count m <= 2 ^ 32 ->
  index_map m !! bzla_id k = Some (Z.of_nat j).
Proof.
  intros Hnd Hj Hc. unfold index_map.
  rewrite (index_map_fold_lookup m ∅ 0 j k v Hnd Hj); [f_equal; lia | lia |].
  unfold nodemap_count in Hc. lia.
Qed.

(** A loop that appends one computed value per element. *)
Lemma for_each_collect {A B : Type} (F : A -> Res B) (l : list A) :
  forall acc out,
    for_each l (fun x acc => v ← F x; ok (acc ++ [v])) acc = inr out ->
    exists vs, out = acc ++ vs /\ Forall2 (fun x v => F x = inr v) l vs.
Proof.
  induction l as [| x r IH]; cbn [for_each]; intros acc out H.
  - unfold ok in H. injection H as <-. exists []. rewrite app_nil_r. auto.
  - inv_bind H as acc1 H1. inv_bind H1 as v Hv. unfold ok in H1.
    injection H1 as <-. apply IH in H as (vs & -> & Hvs).
    exists (v :: vs). rewrite <- app_assoc. split; [reflexivity |].
    constructor; assumption.
Qed.

Lemma tuple_get_fill (arity : Z) (bvs : list BitVector.t) (t : BzlaBitVectorTuple)
  (i : nat) (v : BitVector.t) :
  tuple_fill arity bvs = inr t ->
  bvs !! i = Some v ->
  tuple_get t (Z.of_nat i) = inr (Some v).
Proof.
  unfold tuple_fill. destruct (_ <=? arity); [| discriminate].
  unfold ok. intros H Hi. injection H as <-.
  pose proof (lookup_lt_Some _ _ _ Hi) as Hlt.
  unfold tuple_get. rewrite length_app, length_map.
  replace ((0 <=? Z.of_nat i) && (Z.of_nat i <? Z.of_nat (_ + _)%nat)) with true
    by (symmetry; apply andb_true_iff; split; [apply Z.leb_le | apply Z.ltb_lt]; lia).
  rewrite Nat2Z.id. unfold ok. f_equal.
  rewrite app_nth1 by (rewrite length_map; exact Hlt).
  apply nth_lookup_Some with (d := None).
  rewrite list_lookup_fmap, Hi. reflexivity.
Qed.

Lemma table_get_In {D : Type} (t : TupleTable D) (k : BzlaBitVectorTuple) (d : D) :
  table_get t k = Some d -> exists k', In (k', d) t.
Proof.
  induction t as [| [k' d'] r IH]; cbn; [discriminate |].
  destruct (tuple_eqb k' k).
  - intros H. injection H as ->. eauto.
  - intros H. apply IH in H as [k'' H]. eauto.
Qed.

Lemma bv_compare_refl (v : BitVector.t) : BitVector.compare v v = 0.
Proof. unfold BitVector.compare. rewrite Z.compare_refl. reflexivity. Qed.

Section FlatModel.

Context {Bzla : Type} (api : @BzlaApi Bzla) (NDEBUG : bool).

(** The value of an existential variable without dependencies does not
    depend on the counter-example. *)
Lemma evar_value_outermost (gslv : @BzlaGroundSolvers Bzla) (e_solver : Bzla)
  (uvar_index : gmap Z Z) (ce : BzlaBitVectorTuple) (f_evar e_evar : BzlaNode)
  (bv : BitVector.t) :
  bzla_nodemap_mapped (forall_evar_deps gslv) f_evar = None ->
  evar_value api NDEBUG gslv e_solver uvar_index ce f_evar e_evar = inr bv ->
  bv = bzla_model_get_bv api e_solver (bzla_simplify_exp api e_solver e_evar).
Proof.
  unfold evar_value. intros ->. intros H. inv_bind H as ? Ha.
  unfold ok in H. congruence.
Qed.

(** Every row of the flat model holds that value at the index of the
    variable. *)
Lemma flat_model_rows (gslv : @BzlaGroundSolvers Bzla) (flat_model : FlatModel)
  (e_solver : Bzla) (f_evar e_evar : BzlaNode) (i : nat) :
  flat_model_generate api NDEBUG gslv = inr (flat_model, e_solver) ->
  forall_evars gslv !! i = Some (f_evar, e_evar) ->
  bzla_nodemap_mapped (forall_evar_deps gslv) f_evar = None ->
  e_solver = generate_model api (exists_ gslv)
  /\ evar_index_map flat_model = index_map (forall_evars gslv)
  /\ forall ce row,
       In (ce, row) (model flat_model) ->
       tuple_get row (Z.of_nat i)
       = inr (Some (bzla_model_get_bv api e_solver
                      (bzla_simplify_exp api e_solver e_evar))).
Proof.
  unfold flat_model_generate. intros H Hi Hdeps.
  inv_bind H as ? Hassert. inv_bind H as m Hm.
  unfold ok in H. injection H as <- <-. cbn [model evar_index_map].
  split; [reflexivity |]. split; [reflexivity |].
  refine (for_each_invariant
            (fun m : TupleTable BzlaBitVectorTuple =>
               forall ce row, In (ce, row) m ->
                 tuple_get row (Z.of_nat i)
                 = inr (Some (bzla_model_get_bv api
                                (generate_model api (exists_ gslv))
                                (bzla_simplify_exp api
                                   (generate_model api (exists_ gslv)) e_evar))))
            _ _ _ _ _ Hm _); [| intros ce row []].
  - intros [ce0 d0] s s' Hstep Hs ce row Hin.
    inv_bind Hstep as bvs Hbvs. inv_bind Hstep as evar_values Hfill.
    apply table_add_inr in Hstep as [_ ->].
    apply in_app_or in Hin as [Hin | [Hin | []]]; [eauto |].
    injection Hin as <- <-.
    rewrite (for_each_ext _
               (fun p acc =>
                  v ← evar_value api NDEBUG gslv
                        (generate_model api (exists_ gslv))
                        (index_map (forall_uvars gslv)) ce0 (fst p) (snd p);
                  ok (acc ++ [v])))
      in Hbvs by (intros [f e] acc; reflexivity).
    apply for_each_collect in Hbvs as (vs & -> & Hvs).
    cbn [app] in Hfill.
    destruct (Forall2_lookup_l _ _ _ _ _ Hvs Hi) as (v & Hv & Hval).
    cbn in Hval. apply evar_value_outermost in Hval; [| exact Hdeps].
    subst v. exact (tuple_get_fill _ _ _ _ _ Hfill Hv).
Qed.

(** C9.  In a flat model that [flat_model_generate] produced, an
    existential variable without an entry in [forall_evar_deps] has the
    same value in every row: the value of its constant in the model of
    the E-solver.  [flat_model_get_value] returns that value for every
    counter-example of the table, and also when it is asked without a
    counter-example and reads the first row (the check of the debug
    build, that all rows agree, passes). *)
Theorem flat_model_outermost_value (gslv : @BzlaGroundSolvers Bzla)
  (flat_model : FlatModel) (e_solver : Bzla) (f_evar e_evar : BzlaNode) (i : nat) :
  flat_model_generate api NDEBUG gslv = inr (flat_model, e_solver) ->
  NoDup (map (fun p => bzla_id (fst p)) (forall_evars gslv)) ->
  nodemap_count (forall_evars gslv) <= 2 ^ 32 ->
  forall_evars gslv !! i = Some (f_evar, e_evar) ->
  bzla_nodemap_mapped (forall_evar_deps gslv) f_evar = None ->
  bzla_node_param_is_exists_var api f_evar = true ->
  let v := bzla_model_get_bv api (generate_model api (exists_ gslv))
             (bzla_simplify_exp api (generate_model api (exists_ gslv)) e_evar) in
  (forall ce row,
     In (ce, row) (model flat_model) -> tuple_get row (Z.of_nat i) = inr (Some v))
  /\ (forall ce,
        is_Some (table_get (model flat_model) ce) ->
        flat_model_get_value api NDEBUG flat_model f_evar (Some ce) = inr (Some v))
  /\ (model flat_model <> [] ->
      flat_model_get_value api NDEBUG flat_model f_evar None = inr (Some v)).
Proof.
  intros Hgen Hnd Hcount Hi Hdeps Hex v.
  destruct (flat_model_rows _ _ _ _ _ _ Hgen Hi Hdeps) as (-> & Hidx & Hrows).
  fold v in Hrows.
  assert (Hget : hashint_get (evar_index_map flat_model) (bzla_id f_evar)
                 = inr (Z.of_nat i)).
  { unfold hashint_get. rewrite Hidx.
    rewrite (index_map_lookup _ _ _ _ Hnd Hi Hcount). reflexivity. }
  split; [exact Hrows |]. split.
  - intros ce [row Hrow]. unfold flat_model_get_value.
    rewrite Hex, Hget. cbn. rewrite Hrow. unfold assert_.
    rewrite c_assert_holds by (right; apply bool_decide_eq_true; eauto).
    cbn. apply table_get_In in Hrow as [ce' Hin]. eauto.
  - intros Hne. unfold flat_model_get_value. rewrite Hex, Hget. cbn.
    destruct (model flat_model) as [| [ce0 t0] rest] eqn:Em; [contradiction |].
    rewrite (Hrows ce0 t0) by (left; reflexivity). cbn.
    destruct NDEBUG eqn:En; [reflexivity |].
    rewrite (Hrows ce0 t0) by (left; reflexivity). cbn.
    rewrite bv_compare_refl. cbn.
    rewrite (for_each_skip (fun p => In p rest)); [reflexivity | |].
    + apply Forall_forall. intros p Hp. apply list_elem_of_In. exact Hp.
    + intros [ce row] [] Hin. rewrite (Hrows ce row) by (right; exact Hin).
      cbn. rewrite bv_compare_refl. reflexivity.
Qed.

End FlatModel.

Lemma flat_model_outermost_value_witness :
  let sat := Script.solver [] BZLA_RESULT_SAT false in
  let gslv :=
    Script.bundle sat sat [(Script.uvar, Script.uvar_const)]
      [(Script.ce_of 7, Some (Script.ce_of 1));
       (Script.ce_of 9, Some (Script.ce_of 1))] in
  exists flat_model e_solver,
    flat_model_generate Script.api false gslv = inr (flat_model, e_solver)
    /\ List.length (model flat_model) = 2%nat
    /\ flat_model_get_value Script.api false flat_model Script.evar None
       = inr (Some (BitVector.norm 8 10))
    /\ flat_model_get_value Script.api false flat_model Script.evar
         (Some (Script.ce_of 9))
       = inr (Some (BitVector.norm 8 10)).
Proof.
  intros sat gslv. eexists. eexists. split; [vm_compute; reflexivity |].
  split; [reflexivity |].
  destruct (flat_model_outermost_value Script.api false gslv _ _
              Script.evar Script.evar_const 0 ltac:(vm_compute; reflexivity))
    as (_ & Hce & Hfirst).
  - cbn. apply NoDup_cons. split; [apply not_elem_of_nil | apply NoDup_nil_2].
  - vm_compute. discriminate.
  - reflexivity.
  - reflexivity.
  - reflexivity.
  - split.
    + apply Hfirst. discriminate.
    + apply Hce. vm_compute. eauto.
Defined.

(** * Further properties *)

(** ** Induction on nodes *)

Fixpoint node_induction (P : Node -> Prop)
  (HNull : P Null) (HConst : forall s u, P (Const s u))
  (HBv : forall v, P (BvValue v)) (HBool : forall b, P (BoolValue b))
  (HOp : forall k cs ix, Forall P cs -> P (Op k cs ix)) (n : Node) : P n.
Proof.
  destruct n as [| s u | v | b | k cs ix]; auto.
  apply HOp. induction cs as [| c r IH]; constructor; [| exact IH].
  apply node_induction; assumption.
Qed.

Lemma list_eqb_Z_eq (va vb : list Z) : list_eqb Z.eqb va vb = true <-> va = vb.
Proof.
  revert vb. induction va as [| x r IH]; intros [| y r']; cbn;
    try (split; [discriminate | congruence]); [tauto |].
  rewrite andb_true_iff, Z.eqb_eq, IH. split; [intros [-> ->] | intros [= -> ->]]; auto.
Qed.

Lemma kind_eqb_neq (a b : Kind) : kind_eqb a b = false <-> a <> b.
Proof.
  rewrite <- kind_eqb_eq. destruct (kind_eqb a b); split; congruence.
Qed.

(** ** [cmp_repr] and [get_top] *)

(** X1.  The representative that [cmp_repr] returns is not a
    concatenation, an extraction or a negation, and it is its own
    representative. *)
Theorem cmp_repr_is_representative (n : Node) :
  kind (cmp_repr n) <> BV_CONCAT /\ kind (cmp_repr n) <> BV_EXTRACT
  /\ kind (cmp_repr n) <> BV_NOT /\ cmp_repr (cmp_repr n) = cmp_repr n.
Proof.
  induction n as [| s u | v | b | k cs ix IH] using node_induction;
    cbn; try (repeat split; congruence).
  destruct (kind_eqb k BV_CONCAT) eqn:Hc; cbn.
  - destruct cs as [| c0 [| c1 r]]; try (repeat split; cbn; congruence).
    rewrite !Forall_cons in IH. destruct IH as (_ & H1 & _). exact H1.
  - destruct (kind_eqb k BV_EXTRACT) eqn:He; cbn.
    + destruct cs as [| c0 r]; [repeat split; cbn; congruence |].
      rewrite Forall_cons in IH. destruct IH as (Hc0 & _). exact Hc0.
    + destruct (kind_eqb k BV_NOT) eqn:Hn; cbn.
      * destruct cs as [| c0 r]; [repeat split; cbn; congruence |].
        rewrite Forall_cons in IH. destruct IH as (Hc0 & _). exact Hc0.
      * rewrite Hc, He, Hn. cbn.
        apply kind_eqb_neq in Hc, He, Hn. repeat split; auto.
Qed.

(** X2.  The node [get_top] returns is not one of the wrappers the loop
    strips (a negation, a shift, an extraction, or a concatenation with a
    value), so [get_top] returns it unchanged. *)
Theorem get_top_is_top (n : Node) :
  is_unary_wrapper (kind (get_top n)) = false
  /\ (kind (get_top n) = BV_CONCAT ->
      is_value (child (get_top n) 0) = false
      /\ is_value (child (get_top n) 1) = false)
  /\ get_top (get_top n) = get_top n.
Proof.
  induction n as [| s u | v | b | k cs ix IH] using node_induction;
    cbn; try (repeat split; congruence).
  assert (Hkeep : is_unary_wrapper k = false ->
            (kind_eqb k BV_CONCAT = true ->
             is_value (nth 0 cs Null) = false /\ is_value (nth 1 cs Null) = false) ->
            is_unary_wrapper (kind (Op k cs ix)) = false
            /\ (kind (Op k cs ix) = BV_CONCAT ->
                is_value (child (Op k cs ix) 0) = false
                /\ is_value (child (Op k cs ix) 1) = false)
            /\ get_top (Op k cs ix) = Op k cs ix).
  { intros Hw Hv. cbn. rewrite Hw. repeat split.
    - subst k. apply Hv. reflexivity.
    - subst k. apply Hv. reflexivity.
    - destruct (kind_eqb k BV_CONCAT); [| reflexivity].
      destruct Hv as [-> ->]; reflexivity. }
  destruct (is_unary_wrapper k) eqn:Hw.
  - destruct cs as [| c0 r]; [repeat split; cbn; congruence |].
    rewrite Forall_cons in IH. destruct IH as (Hc0 & _). exact Hc0.
  - destruct (kind_eqb k BV_CONCAT) eqn:Hc; cbn [andb].
    + destruct (is_value (nth 0 cs Null)) eqn:H0.
      * destruct cs as [| c0 [| c1 r]]; try (repeat split; cbn; congruence).
        rewrite !Forall_cons in IH. destruct IH as (_ & H1 & _). exact H1.
      * destruct (is_value (nth 1 cs Null)) eqn:H1.
        -- destruct cs as [| c0 r]; [repeat split; cbn; congruence |].
           rewrite Forall_cons in IH. destruct IH as (Hc0 & _). exact Hc0.
        -- apply Hkeep; auto.
    + apply Hkeep; [reflexivity | discriminate].
Qed.

(** ** [sort_cmp] *)

Lemma first_difference_none (va vb : list Z) :
  first_difference va vb = None -> List.length va = List.length vb -> va = vb.
Proof.
  revert vb. induction va as [| x ra IH]; intros [| y rb]; cbn; try discriminate;
    [reflexivity |].
  destruct (x =? y) eqn:E; cbn; [| discriminate].
  apply Z.eqb_eq in E. subst y. intros H [= Hl]. f_equal. auto.
Qed.

Ltac z_cases :=
  repeat match goal with
    | |- context [?a =? ?b] => destruct (Z.eqb_spec a b)
    | |- context [?a <? ?b] => destruct (Z.ltb_spec a b)
    end; cbn [negb]; try reflexivity; try lia.

Lemma first_difference_vec_lt (va vb : list Z) (d : bool) :
  va <> vb ->
  match first_difference va vb with
  | Some (x, y) => x <? y
  | None => if negb (size_of va =? size_of vb) then size_of vb <? size_of va else d
  end = vec_lt va vb.
Proof.
  unfold size_of. revert vb.
  induction va as [| x ra IH]; intros [| y rb] Hne; cbn [first_difference vec_lt].
  - congruence.
  - cbn [List.length]. z_cases.
  - cbn [List.length]. z_cases.
  - destruct (x =? y) eqn:E; cbn [negb]; [| reflexivity].
    apply Z.eqb_eq in E. subst y.
    rewrite <- (IH rb) by congruence.
    destruct (first_difference ra rb) as [[x' y'] |] eqn:F; [reflexivity |].
    cbn [List.length]. z_cases.
Qed.

Lemma sort_cmp_vec_lt (node_id : Node -> Z) (a b : Node) (va vb : list Z) :
  sort_cmp node_id a va b vb
  = if list_eqb Z.eqb va vb then node_id a <? node_id b else vec_lt va vb.
Proof.
  unfold sort_cmp. destruct (list_eqb Z.eqb va vb) eqn:E; cbn [negb]; [reflexivity |].
  apply first_difference_vec_lt. intros ->.
  rewrite (proj2 (list_eqb_Z_eq vb vb) eq_refl) in E. discriminate.
Qed.

Lemma vec_lt_irrefl (v : list Z) : vec_lt v v = false.
Proof.
  induction v as [| x r IH]; [reflexivity |]. cbn. rewrite Z.eqb_refl. exact IH.
Qed.

Lemma vec_lt_trans (va vb vc : list Z) :
  vec_lt va vb = true -> vec_lt vb vc = true -> vec_lt va vc = true.
Proof.
  revert vb vc. induction va as [| x ra IH]; intros [| y rb] [| z rc]; cbn;
    try discriminate; try reflexivity.
  destruct (Z.eqb_spec x y) as [Hxy | Hxy], (Z.eqb_spec y z) as [Hyz | Hyz],
    (Z.eqb_spec x z) as [Hxz | Hxz]; try lia; rewrite ?Z.ltb_lt; try lia.
  apply IH.
Qed.

Lemma vec_lt_total (va vb : list Z) :
  vec_lt va vb = false -> vec_lt vb va = false -> va = vb.
Proof.
  revert vb. induction va as [| x ra IH]; intros [| y rb]; cbn; try discriminate;
    [reflexivity |].
  rewrite (Z.eqb_sym y x).
  destruct (Z.eqb_spec x y) as [-> | Hxy].
  - intros H1 H2. f_equal. auto.
  - rewrite !Z.ltb_ge. lia.
Qed.

(** X3.  [sort_cmp] is a strict total order on the pairs of a node and
    its vector, as [std::sort] needs: no pair is before itself, the
    order is transitive, and two pairs of which none is before the other
    have the same vector and the same node identifier. *)
Theorem sort_cmp_strict_total_order (node_id : Node -> Z) (a b c : Node)
  (va vb vc : list Z) :
  sort_cmp node_id a va a va = false
  /\ (sort_cmp node_id a va b vb = true -> sort_cmp node_id b vb c vc = true ->
      sort_cmp node_id a va c vc = true)
  /\ (sort_cmp node_id a va b vb = false -> sort_cmp node_id b vb a va = false ->
      va = vb /\ node_id a = node_id b).
Proof.
  rewrite !sort_cmp_vec_lt.
  pose proof (list_eqb_Z_eq va vb) as Hab.
  pose proof (list_eqb_Z_eq vb vc) as Hbc.
  pose proof (list_eqb_Z_eq va vc) as Hac.
  pose proof (list_eqb_Z_eq vb va) as Hba.
  pose proof (list_eqb_Z_eq va va) as Haa.
  split; [| split].
  - destruct (list_eqb Z.eqb va va); [apply Z.ltb_irrefl | apply vec_lt_irrefl].
  - destruct (list_eqb Z.eqb va vb) eqn:E1, (list_eqb Z.eqb vb vc) eqn:E2.
    + assert (va = vb) as -> by tauto. rewrite E2.
      rewrite !Z.ltb_lt. lia.
    + assert (va = vb) as -> by tauto. rewrite E2. auto.
    + assert (vb = vc) as <- by tauto. rewrite E1. auto.
    + intros H1 H2. pose proof (vec_lt_trans _ _ _ H1 H2) as H13.
      destruct (list_eqb Z.eqb va vc) eqn:E3; [| exact H13].
      assert (va = vc) as <- by tauto. rewrite vec_lt_irrefl in H13. discriminate.
  - destruct (list_eqb Z.eqb va vb) eqn:E1.
    + assert (va = vb) as <- by tauto. rewrite (proj2 Haa eq_refl).
      rewrite !Z.ltb_ge. intros. split; [reflexivity | lia].
    + destruct (list_eqb Z.eqb vb va) eqn:E2.
      * assert (vb = va) as -> by tauto. rewrite (proj2 Haa eq_refl) in E1. discriminate.
      * intros H1 H2. pose proof (vec_lt_total _ _ H1 H2) as ->.
        rewrite (proj2 Haa eq_refl) in E1. discriminate.
Qed.

(** ** Loops *)

Lemma do_while_ext {S : Type} (body body' : S -> Res S) (cond : S -> bool)
  (fuel : nat) :
  (forall s, body s = body' s) ->
  forall s, do_while fuel body cond s = do_while fuel body' cond s.
Proof.
  intros Hb. induction fuel as [| f IH]; intros s; [reflexivity |].
  cbn. rewrite Hb. destruct (body' s) as [e | s']; cbn; [reflexivity |].
  destruct (cond s'); [apply IH | reflexivity].
Qed.

Lemma do_while_invariant {S : Type} (P : S -> Prop) (body : S -> Res S)
  (cond : S -> bool) (fuel : nat) :
  (forall s s', body s = inr s' -> P s -> P s') ->
  forall s s', do_while fuel body cond s = inr s' -> P s -> P s'.
Proof.
  intros Hb. induction fuel as [| f IH]; intros s s' H Hs; [discriminate |].
  cbn in H. inv_bind H as s1 H1.
  destruct (cond s1); [eauto |].
  unfold ok in H. injection H as <-. eauto.
Qed.

(** The last state of a loop does not satisfy its condition. *)
Lemma do_while_exit {S : Type} (body : S -> Res S) (cond : S -> bool)
  (fuel : nat) (s s' : S) :
  do_while fuel body cond s = inr s' -> cond s' = false.
Proof.
  revert s. induction fuel as [| f IH]; intros s H; [discriminate |].
  cbn in H. inv_bind H as s1 H1.
  destruct (cond s1) eqn:E; [eauto |].
  unfold ok in H. injection H as <-. exact E.
Qed.

(** ** Equality of nodes, continued *)

Lemma sort_eqb_eq (a b : Sort) : sort_eqb a b = true -> a = b.
Proof.
  revert b.
  refine ((fix go (a : Sort) : forall b, sort_eqb a b = true -> a = b := _) a).
  intros b. destruct a as [| w | e s | | i e | d c], b as [| w' | e' s' | | i' e' | d' c'];
    cbn; try discriminate; try reflexivity.
  - intros H. apply Z.eqb_eq in H. congruence.
  - rewrite andb_true_iff, !Z.eqb_eq. intros [-> ->]. reflexivity.
  - rewrite andb_true_iff. intros [H1 H2].
    rewrite (go _ _ H1), (go _ _ H2). reflexivity.
  - rewrite andb_true_iff. intros [H1 H2]. rewrite (go _ _ H2). f_equal.
    clear H2. revert d' H1. induction d as [| x r IH]; intros [| y r']; try discriminate;
      [reflexivity |].
    rewrite andb_true_iff. intros [Hx Hr]. rewrite (go _ _ Hx). f_equal. auto.
Qed.

Lemma bv_eqb_eq (a b : BitVector.t) : BitVector.eqb a b = true -> a = b.
Proof.
  destruct a, b. unfold BitVector.eqb. cbn.
  rewrite andb_true_iff, !Z.eqb_eq. intros [-> ->]. reflexivity.
Qed.

Lemma node_eqb_eq (a b : Node) : node_eqb a b = true -> a = b.
Proof.
  revert b. induction a as [| s u | v | x | k cs ix IH] using node_induction;
    intros [| s' u' | v' | y | k' cs' ix']; cbn; try discriminate; try reflexivity.
  - rewrite andb_true_iff, Z.eqb_eq. intros [H ->]. apply sort_eqb_eq in H. congruence.
  - intros H. apply bv_eqb_eq in H. congruence.
  - intros H. apply Bool.eqb_prop in H. congruence.
  - rewrite !andb_true_iff. intros [[Hk Hc] Hi].
    apply kind_eqb_eq in Hk. apply list_eqb_Z_eq in Hi. subst k' ix'. f_equal.
    clear - IH Hc. revert cs' Hc.
    induction IH as [| x r Hx _ IHr]; intros [| y r']; try discriminate; [reflexivity |].
    rewrite andb_true_iff. intros [H1 H2]. f_equal; auto.
Qed.

Lemma node_eqb_sym (a b : Node) : node_eqb a b = node_eqb b a.
Proof.
  destruct (node_eqb a b) eqn:E.
  - apply node_eqb_eq in E. subst b. symmetry. apply node_eqb_refl.
  - destruct (node_eqb b a) eqn:E'; [| reflexivity].
    apply node_eqb_eq in E'. subst b. rewrite node_eqb_refl in E. discriminate.
Qed.

(** ** Maps keyed by nodes *)

Lemma nmap_find_app_new {V : Type} (m : NodeMap V) (k : Node) (v : V) :
  nmap_find m k = None -> nmap_find (m ++ [(k, v)]) k = Some v.
Proof.
  induction m as [| [k' v'] r IH]; cbn.
  - rewrite node_eqb_refl. reflexivity.
  - destruct (node_eqb k' k); [discriminate | exact IH].
Qed.

Lemma nmap_set_app_new {V : Type} (m : NodeMap V) (k : Node) (v w : V) :
  nmap_find m k = None -> nmap_set (m ++ [(k, v)]) k w = m ++ [(k, w)].
Proof.
  induction m as [| [k' v'] r IH]; cbn.
  - rewrite node_eqb_refl. reflexivity.
  - destruct (node_eqb k' k); [discriminate |]. intros H. rewrite IH by exact H.
    reflexivity.
Qed.

Lemma nmap_find_In {V : Type} (m : NodeMap V) (k : Node) (v : V) :
  nmap_find m k = Some v -> In (k, v) m.
Proof.
  induction m as [| [k' v'] r IH]; cbn; [discriminate |].
  destruct (node_eqb k' k) eqn:E.
  - apply node_eqb_eq in E. intros [= ->]. left. congruence.
  - auto.
Qed.

Lemma nmap_find_None_In {V : Type} (m : NodeMap V) (k : Node) (v : V) :
  nmap_find m k = None -> ~ In (k, v) m.
Proof.
  induction m as [| [k' v'] r IH]; cbn; [tauto |].
  destruct (node_eqb k' k) eqn:E; [discriminate |].
  intros H [[= -> ->] | Hin]; [rewrite node_eqb_refl in E; discriminate | tauto].
Qed.

Lemma ns_mem_In (s : NodeSet) (k : Node) : ns_mem s k = true <-> In k s.
Proof.
  unfold ns_mem. rewrite existsb_exists. split.
  - intros (x & Hx & E). apply node_eqb_eq in E. congruence.
  - intros H. exists k. split; [exact H | apply node_eqb_refl].
Qed.

(** ** [compute_coefficients] at its edges *)

Section Coefficients.

Context (node_id : Node -> Z).

#[local] Abbreviation cc := (compute_coefficients node_id).

Lemma bvinc_mk_zero (w : Z) : BitVector.bvinc (BitVector.mk_zero w) = BitVector.mk_one w.
Proof. reflexivity. Qed.

(** X4.  A node that is not of the chain kind is the only leaf of its
    chain: [compute_coefficients] adds one to its coefficient, or enters
    it with the coefficient one, and changes nothing else. *)
Theorem compute_coefficients_of_a_leaf (NDEBUG d_share_aware : bool) (fuel : nat)
  (d_parents parents : ParentsMap) (node : Node) (k : Kind)
  (coeffs : CoefficientsMap) :
  kind node <> k ->
  cc NDEBUG (S fuel) d_share_aware d_parents node k parents coeffs
  = inr (cm_emplace_or node_id
           (fun old => BitVector.bvadd old (BitVector.mk_one (bv_size (type node))))
           coeffs node (BitVector.mk_one (bv_size (type node)))).
Proof.
  intros Hk. apply kind_eqb_neq in Hk.
  unfold compute_coefficients. cbn [do_while collect_step nmap_emplace nmap_find].
  rewrite Hk. cbn. rewrite node_eqb_refl, c_assert_true. cbn.
  rewrite node_eqb_refl. cbn. reflexivity.
Qed.

(** With the option on, the top node of a chain must have an entry in
    [parents]. *)
Lemma compute_coefficients_no_parents (fuel : nat) (d_parents parents : ParentsMap)
  (node : Node) (k : Kind) (coeffs : CoefficientsMap) :
  kind node = k -> nmap_find parents node = None ->
  exists e, cc false fuel true d_parents node k parents coeffs = inl e
            /\ (fuel <> O -> e = AssertionFailed).
Proof.
  intros Hk Hp. destruct fuel as [| f].
  - exists OutOfFuel. split; [reflexivity | congruence].
  - exists AssertionFailed. split; [| reflexivity].
    unfold compute_coefficients. cbn [do_while collect_step nmap_emplace nmap_find].
    rewrite Hk, kind_eqb_refl, Hp. reflexivity.
Qed.

Lemma collect_step_share_aware_release (d_parents : ParentsMap) (k : Kind)
  (zero : BitVector.t) (st : collect_state) :
  collect_step true true d_parents k [] zero st
  = collect_step true false d_parents k [] zero st.
Proof.
  destruct st as [[[visit nodes] intermediate] cfs].
  destruct visit as [| cur visit']; [reflexivity |].
  unfold collect_step.
  destruct (nmap_emplace cfs cur zero) as [cfs' inserted].
  destruct inserted; [| reflexivity].
  destruct (kind_eqb (kind cur) k) eqn:E; [| reflexivity].
  cbn. unfold is_leaf. rewrite E. cbn.
  destruct (nmap_find d_parents cur); reflexivity.
Qed.

(** X5.  With the option share-aware on and a chain whose top node has no
    entry in [parents], a build with assertions fails the assertion of
    the first loop; a build with [NDEBUG] that is given the empty
    [parents] computes what it computes with the option off. *)
Theorem compute_coefficients_share_aware_without_parents (fuel : nat)
  (d_parents : ParentsMap) (node : Node) (k : Kind) (coeffs : CoefficientsMap) :
  (forall parents, kind node = k -> nmap_find parents node = None ->
     cc false (S fuel) true d_parents node k parents coeffs = inl AssertionFailed)
  /\ cc true fuel true d_parents node k [] coeffs
     = cc true fuel false d_parents node k [] coeffs.
Proof.
  split.
  - intros parents Hk Hp.
    destruct (compute_coefficients_no_parents (S fuel) d_parents parents node k
                coeffs Hk Hp) as (e & He & Hf).
    rewrite He, Hf by congruence. reflexivity.
  - unfold compute_coefficients.
    rewrite (do_while_ext _ _ _ _
               (collect_step_share_aware_release d_parents k
                  (BitVector.mk_zero (bv_size (type node))))).
    reflexivity.
Qed.

End Coefficients.

(** ** [collect_adders] and [normalize_comm_assoc(node)] *)

Section AddersProperties.

Context (node_id : Node -> Z) (NDEBUG : bool) (fuel : nat) (d_share_aware : bool).
Context (d_parents : ParentsMap).

#[local] Abbreviation chain_coefficients chain :=
  (compute_coefficients node_id NDEBUG fuel d_share_aware d_parents chain
     BV_ADD [] []).

(** What the loop of [collect_adders] keeps: every adder found so far is
    in [cache], is an addition, and is mapped to the coefficients of its
    chain. *)
#[local] Abbreviation adders_invariant :=
  (fun st : adders_state =>
     let '(_, cache, adders) := st in
     forall chain cm, In (chain, cm) adders ->
       In chain cache /\ kind chain = BV_ADD /\ chain_coefficients chain = inr cm).

Lemma collect_adders_step_invariant (st st' : adders_state) :
  collect_adders_step node_id NDEBUG fuel d_share_aware d_parents st = inr st' ->
  adders_invariant st -> adders_invariant st'.
Proof.
  destruct st as [[visit cache] adders]. destruct visit as [| cur visit']; [discriminate |].
  unfold collect_adders_step, ns_insert.
  destruct (ns_mem cache cur) eqn:Hmem.
  { intros [= <-]. auto. }
  destruct (kind_eqb (kind cur) BV_ADD) eqn:Hk.
  2:{ intros [= <-] Hinv chain cm Hin. destruct (Hinv chain cm Hin) as (H1 & H2).
      split; [right; exact H1 | exact H2]. }
  apply kind_eqb_eq in Hk. intros H Hinv.
  assert (Hnew : nmap_find adders cur = None).
  { destruct (nmap_find adders cur) as [cm |] eqn:F; [| reflexivity].
    apply nmap_find_In in F. destruct (Hinv cur cm F) as (Hc & _).
    apply ns_mem_In in Hc. congruence. }
  unfold nmap_emplace in H. rewrite Hnew in H.
  rewrite c_assert_true in H. cbn [mbind Res_bind] in H.
  rewrite (nmap_find_app_new adders cur [] Hnew) in H.
  inv_bind H as cm Hcm. injection H as <-.
  rewrite (nmap_set_app_new adders cur [] cm Hnew).
  intros chain cm' Hin. apply in_app_iff in Hin. destruct Hin as [Hin | [[= <- <-] | []]].
  - destruct (Hinv chain cm' Hin) as (H1 & H2). split; [right; exact H1 | exact H2].
  - split; [left; reflexivity |]. split; [exact Hk |]. rewrite <- Hk. exact Hcm.
Qed.

(** X6.  Every key of the map that [collect_adders] builds from an empty
    map is an addition, and it is mapped to the coefficients that
    [compute_coefficients] computes for it from an empty map; the list of
    assertions must not be empty. *)
Theorem collect_adders_maps_additions (assertions : list Node) :
  (forall adders chain cm,
     collect_adders node_id NDEBUG fuel d_share_aware d_parents assertions []
     = inr adders ->
     In (chain, cm) adders ->
     kind chain = BV_ADD /\ chain_coefficients chain = inr cm)
  /\ (assertions = [] ->
      collect_adders node_id NDEBUG fuel d_share_aware d_parents assertions []
      = inl (match fuel with O => OutOfFuel | S _ => Undefined end)).
Proof.
  split.
  - intros adders chain cm H Hin. unfold collect_adders in H.
    inv_bind H as st Hst. destruct st as [[visit cache] adders'].
    injection H as <-.
    pose proof (do_while_invariant adders_invariant _ _ _
                  collect_adders_step_invariant _ _ Hst) as Hinv.
    destruct (Hinv (fun _ _ F => False_ind _ F) chain cm Hin) as (_ & H2). exact H2.
  - intros ->. unfold collect_adders. destruct fuel; reflexivity.
Qed.

End AddersProperties.

Section AddersShareAware.

Context (node_id : Node -> Z) (d_parents : ParentsMap).
Context (unstable_sort : forall A : Type, (A -> A -> bool) -> list A -> list A).

Lemma collect_adders_step_share_aware (fuel : nat) (st st' : adders_state) :
  collect_adders_step node_id false fuel true d_parents st = inr st' ->
  snd st' = snd st.
Proof.
  destruct st as [[visit cache] adders]. destruct visit as [| cur visit']; [discriminate |].
  unfold collect_adders_step.
  destruct (ns_insert cache cur) as [cache' inserted].
  destruct inserted; [| intros [= <-]; reflexivity].
  destruct (kind_eqb (kind cur) BV_ADD) eqn:Hk; [| intros [= <-]; reflexivity].
  destruct (nmap_emplace adders cur []) as [adders' ins].
  intros H. inv_bind H as u Hu.
  destruct (nmap_find adders' cur) as [cm |]; [| discriminate].
  inv_bind H as cm' Hcm.
  destruct (compute_coefficients_no_parents node_id fuel d_parents [] cur (kind cur)
              cm eq_refl eq_refl) as (e & He & _).
  congruence.
Qed.


(** X8.  [normalize_comm_assoc(node)] sets its flag exactly when the node
    it returns differs from [node]; in a build with assertions and with
    the option share-aware on it fails an assertion for every node, as it
    computes the coefficients with an empty [parents]. *)
Theorem normalize_comm_assoc_node_flag (node : Node) :
  (forall NDEBUG fuel d_share_aware res changed,
     normalize_comm_assoc_node node_id NDEBUG fuel d_share_aware unstable_sort d_parents node
     = inr (res, changed) ->
     changed = negb (node_eqb res node))
  /\ (forall fuel,
        normalize_comm_assoc_node node_id false (S fuel) true unstable_sort d_parents node
        = inl AssertionFailed).
Proof.
  split.
  - intros NDEBUG fuel share res changed H. unfold normalize_comm_assoc_node in H.
    inv_bind H as u Hu. inv_bind H as coeffs Hc. inv_bind H as coeffs' Hc'.
    destruct (size_of coeffs <=? size_of (remove_zero_coeffs coeffs')).
    + injection H as <- <-. rewrite node_eqb_refl. reflexivity.
    + inv_bind H as r Hr. injection H as <- <-. reflexivity.
  - intros fuel. unfold normalize_comm_assoc_node.
    destruct (kind_eqb (kind node) BV_ADD || kind_eqb (kind node) BV_MUL);
      [| reflexivity].
    cbn [c_assert mbind Res_bind].
    destruct (compute_coefficients_no_parents node_id (S fuel) d_parents [] node
                (kind node) [] eq_refl eq_refl) as (e & He & Hf).
    rewrite He, Hf by congruence. reflexivity.
Qed.

End AddersShareAware.

(** ** [compute_common_coefficients] *)

Section CommonCoefficients.

Context (node_id : Node -> Z).

#[local] Abbreviation find := (cm_find node_id).
#[local] Abbreviation alter := (cm_alter node_id).
#[local] Abbreviation mult := (multiplicity node_id).

Lemma cm_find_alter (f : BitVector.t -> BitVector.t) (m : CoefficientsMap)
  (k k' : Node) :
  find (alter f m k) k'
  = if node_id k =? node_id k' then option_map f (find m k') else find m k'.
Proof.
  induction m as [| [k0 v0] r IH]; cbn.
  - destruct (node_id k =? node_id k'); reflexivity.
  - destruct (Z.eqb_spec (node_id k0) (node_id k)) as [E | E]; cbn.
    + destruct (Z.eqb_spec (node_id k0) (node_id k')) as [E' | E'];
        destruct (Z.eqb_spec (node_id k) (node_id k')); try lia; reflexivity.
    + rewrite IH.
      destruct (Z.eqb_spec (node_id k0) (node_id k')) as [E' | E'];
        destruct (Z.eqb_spec (node_id k) (node_id k')); try lia; reflexivity.
Qed.

Lemma cm_find_emplace_new (m : CoefficientsMap) (k k' : Node) (v : BitVector.t) :
  find m k = None ->
  find (fst (cm_emplace node_id m k v)) k'
  = if node_id k =? node_id k' then Some v else find m k'.
Proof.
  induction m as [| [k0 v0] r IH]; cbn; [reflexivity |].
  destruct (Z.eqb_spec (node_id k0) (node_id k)) as [E | E]; [discriminate |].
  intros Hr. destruct (Z.ltb_spec (node_id k) (node_id k0)); cbn; [reflexivity |].
  destruct (Z.ltb_spec (node_id k0) (node_id k)); [| lia].
  specialize (IH Hr). destruct (cm_emplace node_id r k v) as [r' b]. cbn in *.
  rewrite IH.
  destruct (Z.eqb_spec (node_id k0) (node_id k')), (Z.eqb_spec (node_id k) (node_id k'));
    try lia; reflexivity.
Qed.

Lemma cm_find_not_key (m : CoefficientsMap) (k : Node) :
  ~ In (node_id k) (map node_id (map fst m)) -> find m k = None.
Proof.
  induction m as [| [k0 v0] r IH]; cbn; [reflexivity |].
  intros H. destruct (Z.eqb_spec (node_id k0) (node_id k)); [tauto |].
  apply IH. tauto.
Qed.

Lemma cm_find_in_range (m : CoefficientsMap) (k : Node) (c : BitVector.t) :
  coefficients_in_range m -> find m k = Some c ->
  0 <= BitVector.value c < 2 ^ BitVector.size c.
Proof.
  induction 1 as [| [k0 v0] r H0 _ IH]; cbn; [discriminate |].
  destruct (node_id k0 =? node_id k); [intros [= <-]; exact H0 | exact IH].
Qed.

Lemma cm_alter_in_range (f : BitVector.t -> BitVector.t) (m : CoefficientsMap)
  (k : Node) :
  (forall c, 0 <= BitVector.value c < 2 ^ BitVector.size c ->
             0 <= BitVector.value (f c) < 2 ^ BitVector.size (f c)) ->
  coefficients_in_range m -> coefficients_in_range (alter f m k).
Proof.
  intros Hf. induction 1 as [| [k0 v0] r H0 Hr IH]; cbn; [constructor |].
  destruct (node_id k0 =? node_id k); constructor; cbn; auto.
Qed.

Lemma bvsub_in_range (c occs : BitVector.t) :
  0 <= BitVector.value c < 2 ^ BitVector.size c ->
  0 <= BitVector.value (BitVector.bvsub c occs)
     < 2 ^ BitVector.size (BitVector.bvsub c occs).
Proof. intros H. cbn. apply Z.mod_pos_bound. lia. Qed.

Lemma bvsub_value (c occs : BitVector.t) :
  0 <= BitVector.value occs <= BitVector.value c ->
  BitVector.value c < 2 ^ BitVector.size c ->
  BitVector.value (BitVector.bvsub c occs) = BitVector.value c - BitVector.value occs.
Proof. intros H1 H2. cbn. apply Z.mod_small. lia. Qed.

(** What the loop has reached when the keys with the identifiers [seen]
    are done, from the maps [L] and [R]. *)
#[local] Abbreviation common_invariant L R seen :=
  (fun st : CoefficientsMap * CoefficientsMap * CoefficientsMap =>
     let '(l, r, c) := st in
     coefficients_in_range l /\ coefficients_in_range r
     /\ forall k,
          (In (node_id k) seen ->
           mult c k = Z.min (mult L k) (mult R k)
           /\ mult l k = mult L k - mult c k /\ mult r k = mult R k - mult c k)
          /\ (~ In (node_id k) seen ->
              find c k = None /\ find l k = find L k /\ find r k = find R k)).

Lemma common_step (L R : CoefficientsMap) (seen : list Z) (x : Node)
  (st : CoefficientsMap * CoefficientsMap * CoefficientsMap) :
  ~ In (node_id x) seen ->
  common_invariant L R seen st ->
  common_invariant L R (node_id x :: seen)
    (let '(lhs, rhs, common) := st in
     match find lhs x, find rhs x with
     | Some c0, Some c1 =>
         let occs := if BitVector.compare c0 c1 <=? 0 then c0 else c1 in
         if BitVector.is_zero occs then (lhs, rhs, common)
         else
           (alter (fun c => BitVector.bvsub c occs) lhs x,
            alter (fun c => BitVector.bvsub c occs) rhs x,
            fst (cm_emplace node_id common x occs))
     | _, _ => (lhs, rhs, common)
     end).
Proof.
  destruct st as [[l r] c]. intros Hx (Hl & Hr & Hinv).
  destruct (Hinv x) as (_ & Hnew). destruct (Hnew Hx) as (Hcx & Hlx & Hrx).
  assert (Hsame : forall k, node_id k = node_id x ->
            find c k = None /\ find l k = find L k /\ find r k = find R k).
  { intros k E. apply (Hinv k). rewrite E. exact Hx. }
  assert (Hkeep : (forall k, node_id k = node_id x ->
                     mult c k = Z.min (mult L k) (mult R k)) ->
                  common_invariant L R (node_id x :: seen) (l, r, c)).
  { intros Hmin. split; [exact Hl |]. split; [exact Hr |]. intros k. split.
    - intros [E | Hin]; [| apply Hinv; exact Hin].
      symmetry in E. destruct (Hsame k E) as (H1 & H2 & H3).
      split; [apply Hmin; exact E |].
      unfold multiplicity. rewrite H1, H2, H3.
      destruct (find L k), (find R k); lia.
    - intros Hn. apply Hinv. cbn in Hn. tauto. }
  assert (HR : forall k, 0 <= mult r k).
  { intros k. unfold multiplicity. destruct (find r k) as [v |] eqn:F; [| lia].
    apply (cm_find_in_range r k v Hr F). }
  assert (HL : forall k, 0 <= mult l k).
  { intros k. unfold multiplicity. destruct (find l k) as [v |] eqn:F; [| lia].
    apply (cm_find_in_range l k v Hl F). }
  assert (Hfind : forall m k, node_id k = node_id x -> find m k = find m x).
  { intros m k E. induction m as [| [k0 v0] m' IH]; cbn; [reflexivity |].
    rewrite E, IH. reflexivity. }
  destruct (find l x) as [c0 |] eqn:F0.
  2:{ apply Hkeep. intros k E. destruct (Hsame k E) as (H1 & H2 & H3).
      unfold multiplicity. rewrite H1, <- H2, <- H3, (Hfind l k E), F0.
      specialize (HR k). unfold multiplicity in HR. destruct (find r k); lia. }
  destruct (find r x) as [c1 |] eqn:F1.
  2:{ apply Hkeep. intros k E. destruct (Hsame k E) as (H1 & H2 & H3).
      unfold multiplicity. rewrite H1, <- H2, <- H3, (Hfind r k E), F1.
      specialize (HL k). unfold multiplicity in HL. destruct (find l k); lia. }
  pose proof (cm_find_in_range l x c0 Hl F0) as R0.
  pose proof (cm_find_in_range r x c1 Hr F1) as R1.
  set (occs := if BitVector.compare c0 c1 <=? 0 then c0 else c1).
  assert (Hocc : BitVector.value occs = Z.min (BitVector.value c0) (BitVector.value c1)).
  { unfold occs, BitVector.compare.
    destruct (Z.compare_spec (BitVector.value c0) (BitVector.value c1)); cbn; lia. }
  cbn zeta. destruct (BitVector.is_zero occs) eqn:Z0.
  { apply Hkeep. intros k E. destruct (Hsame k E) as (H1 & H2 & H3).
    unfold multiplicity. rewrite H1, <- H2, <- H3, (Hfind l k E), (Hfind r k E), F0, F1.
    unfold BitVector.is_zero in Z0. apply Z.eqb_eq in Z0. lia. }
  split; [apply cm_alter_in_range; [intros; apply bvsub_in_range; assumption | exact Hl] |].
  split; [apply cm_alter_in_range; [intros; apply bvsub_in_range; assumption | exact Hr] |].
  intros k. unfold multiplicity.
  rewrite !cm_find_alter, (cm_find_emplace_new c x k occs Hcx).
  destruct (Z.eqb_spec (node_id x) (node_id k)) as [E | E].
  - split; [| intros Hn; cbn in Hn; tauto]. intros _.
    symmetry in E. destruct (Hsame k E) as (H1 & H2 & H3).
    rewrite <- H2, <- H3, (Hfind l k E), (Hfind r k E), F0, F1. cbn [option_map].
    rewrite !bvsub_value by lia. lia.
  - split.
    + intros [E' | Hin]; [congruence |]. apply (Hinv k). exact Hin.
    + intros Hn. apply (Hinv k). cbn in Hn. tauto.
Qed.

(** X9.  [compute_common_coefficients] moves to the common map, for every
    node, the smaller of its two multiplicities and takes it from both
    sides: afterwards no node has a coefficient other than zero on both
    sides. *)
Theorem compute_common_coefficients_takes_minimum (lhs rhs : CoefficientsMap) :
  coefficients_in_range lhs -> coefficients_in_range rhs ->
  NoDup (map node_id (map fst lhs)) ->
  forall k,
    let '(lhs', rhs', common) := compute_common_coefficients node_id lhs rhs in
    mult common k = Z.min (mult lhs k) (mult rhs k)
    /\ mult lhs' k = mult lhs k - mult common k
    /\ mult rhs' k = mult rhs k - mult common k
    /\ (mult lhs' k = 0 \/ mult rhs' k = 0).
Proof.
  intros Hl Hr Hnd k. unfold compute_common_coefficients.
  match goal with |- context [fold_left ?f _ _] => set (step := f) end.
  assert (Hgen : forall keys seen st,
            NoDup (map node_id keys) ->
            (forall y, In y (map node_id keys) -> ~ In y seen) ->
            common_invariant lhs rhs seen st ->
            common_invariant lhs rhs (rev (map node_id keys) ++ seen)
              (fold_left step keys st)).
  { induction keys as [| x keys IH]; intros seen st Hd Hdis Hst; [exact Hst |].
    cbn [fold_left map rev]. rewrite <- app_assoc. cbn [app].
    cbn [map] in Hd, Hdis. apply NoDup_cons in Hd. destruct Hd as (Hx & Hd).
    rewrite list_elem_of_In in Hx.
    apply IH.
    - exact Hd.
    - intros y Hy [<- | Hin]; [exact (Hx Hy) |].
      exact (Hdis y (or_intror Hy) Hin).
    - pose proof (common_step lhs rhs seen x st) as Hs.
      destruct st as [[l r] c]. apply Hs; [| exact Hst].
      apply Hdis. left. reflexivity. }
  specialize (Hgen (map fst lhs) [] (lhs, rhs, []) Hnd (fun y _ F => F)).
  rewrite app_nil_r in Hgen.
  destruct (fold_left step (map fst lhs) (lhs, rhs, [])) as [[l r] c].
  destruct Hgen as (Hl' & Hr' & Hinv).
  { split; [exact Hl |]. split; [exact Hr |]. intros k'. split; [intros [] |].
    intros _. repeat split; reflexivity. }
  assert (HR : 0 <= mult rhs k).
  { unfold multiplicity. destruct (find rhs k) as [v |] eqn:F; [| lia].
    apply (cm_find_in_range rhs k v Hr F). }
  assert (HL : 0 <= mult lhs k).
  { unfold multiplicity. destruct (find lhs k) as [v |] eqn:F; [| lia].
    apply (cm_find_in_range lhs k v Hl F). }
  destruct (in_dec Z.eq_dec (node_id k) (rev (map node_id (map fst lhs)))) as [Hin | Hn].
  - destruct (Hinv k) as (Hp & _). destruct (Hp Hin) as (H1 & H2 & H3).
    repeat split; try assumption. lia.
  - destruct (Hinv k) as (_ & Hp). destruct (Hp Hn) as (H1 & H2 & H3).
    assert (Hnone : find lhs k = None).
    { apply cm_find_not_key. intros Hin. apply Hn, in_rev. rewrite rev_involutive.
      exact Hin. }
    unfold multiplicity. rewrite H1, H2, H3, Hnone.
    unfold multiplicity in HR. destruct (find rhs k); repeat split; lia.
Qed.

End CommonCoefficients.

(** ** [normalize_and] *)

Lemma land_bit (v c : Z) :
  (v = 0 \/ v = 1) ->
  Z.land v c = if (v =? 1) && Z.odd c then 1 else 0.
Proof.
  intros [-> | ->]; cbn [Z.eqb andb].
  - apply Z.land_0_l.
  - rewrite Z.land_comm. change 1 with (Z.ones 1). rewrite Z.land_ones by lia.
    change (2 ^ 1) with 2. rewrite Zmod_odd. reflexivity.
Qed.

(** X10.  [normalize_and] keeps the keys, gives every value the
    coefficient zero and caps every other coefficient at one.  The value
    it returns is a conjunction of the coefficients of the values, not of
    the values: it is one when all these coefficients are odd, and zero
    otherwise. *)
Theorem normalize_and_caps_coefficients (node : Node) (coeffs : CoefficientsMap) :
  0 < bv_size (type node) ->
  let bvzero := BitVector.mk_zero (bv_size (type node)) in
  let bvone := BitVector.mk_one (bv_size (type node)) in
  let '(value, coeffs') := normalize_and node coeffs in
  coeffs'
  = map (fun '(cur, c) =>
           (cur, if is_value cur then bvzero
                 else if 1 <? BitVector.value c then bvone else c))
        coeffs
  /\ value
     = if forallb (fun '(cur, c) => negb (is_value cur) || Z.odd (BitVector.value c))
            coeffs
       then bvone else bvzero.
Proof.
  intros Hw bvzero bvone. unfold normalize_and. fold bvzero bvone.
  assert (H1 : BitVector.value bvone = 1).
  { cbn. apply Z.mod_small. split; [lia |]. apply (Z.pow_gt_1 2); lia. }
  assert (Hcmp : forall c, (0 <? BitVector.compare c bvone) = (1 <? BitVector.value c)).
  { intros c. unfold BitVector.compare. rewrite H1.
    destruct (Z.compare_spec (BitVector.value c) 1), (Z.ltb_spec 1 (BitVector.value c));
      cbn; try reflexivity; lia. }
  assert (Hgen : forall done b,
            fold_left
              (fun '(value, done) '(cur, c) =>
                 if is_value cur then (bvand value c, done ++ [(cur, bvzero)])
                 else if 0 <? BitVector.compare c bvone
                      then (value, done ++ [(cur, bvone)])
                      else (value, done ++ [(cur, c)]))
              coeffs (if b : bool then bvone else bvzero, done)
            = (if b && forallb (fun '(cur, c) =>
                                  negb (is_value cur) || Z.odd (BitVector.value c))
                         coeffs
               then bvone else bvzero,
               done ++ map (fun '(cur, c) =>
                              (cur, if is_value cur then bvzero
                                    else if 1 <? BitVector.value c then bvone else c))
                         coeffs)).
  { induction coeffs as [| [cur c] r IH]; intros done b; cbn [fold_left map forallb].
    - rewrite andb_true_r, app_nil_r. reflexivity.
    - destruct (is_value cur) eqn:V; cbn [negb orb].
      + assert (Hand : bvand (if b then bvone else bvzero) c
                       = if b && Z.odd (BitVector.value c) then bvone else bvzero).
        { unfold bvand. rewrite land_bit by (destruct b; [right; exact H1 | left; reflexivity]).
          destruct b; cbn [andb BitVector.size BitVector.value bvzero bvone].
          - fold bvone. rewrite H1. cbn [Z.eqb Pos.eqb andb].
            destruct (Z.odd (BitVector.value c)); reflexivity.
          - reflexivity. }
        rewrite Hand, (IH _ (b && Z.odd (BitVector.value c))), <- app_assoc, andb_assoc.
        reflexivity.
      + rewrite Hcmp. destruct (1 <? BitVector.value c);
          rewrite (IH _ b), <- app_assoc; reflexivity. }
  specialize (Hgen [] true). cbn [andb app] in Hgen. rewrite Hgen. auto.
Qed.

(** ** [rewrite_term], all of its cases *)

(** X11.  [rewrite_term] rewrites only equalities.  An equality of zero
    and a multiplication of [t] with the division of [n] by [t], on
    either side and with the operands in either order, is rewritten to
    [t = 0 \/ t >u n] when [t] is not a division itself. *)
Theorem rewrite_term_rewrites_division_identity (cur t n : Node) (w : Z) :
  let zero := nm.mk_value (BitVector.mk_zero w) in
  let udiv := nm.mk_node BV_UDIV [n; t] in
  let rewritten :=
    nm.mk_node OR [nm.mk_node EQUAL [t; zero]; nm.mk_node BV_UGT [t; n]] in
  (forall children, kind cur <> EQUAL -> rewrite_term cur children = Null)
  /\ (kind cur = EQUAL -> kind t <> BV_UDIV ->
      rewrite_term cur [nm.mk_node BV_MUL [udiv; t]; zero] = rewritten
      /\ rewrite_term cur [nm.mk_node BV_MUL [t; udiv]; zero] = rewritten
      /\ rewrite_term cur [zero; nm.mk_node BV_MUL [udiv; t]] = rewritten
      /\ rewrite_term cur [zero; nm.mk_node BV_MUL [t; udiv]] = rewritten).
Proof.
  intros zero udiv rewritten. split.
  - intros children Hk. apply kind_eqb_neq in Hk. unfold rewrite_term.
    rewrite Hk. reflexivity.
  - intros Hk Ht. apply kind_eqb_neq in Ht.
    unfold rewrite_term. rewrite Hk.
    cbn -[node_eqb]. rewrite Ht. cbn -[node_eqb]. rewrite node_eqb_refl.
    repeat split; reflexivity.
Qed.

(** ** [apply] and the assertions that were processed before *)

Section ApplyProcessed.

Context (node_id : Node -> Z) (NDEBUG : bool) (fuel : nat).
Context (d_share_aware default_keep_value default_push_neg : bool).
Context (unstable_sort : forall A : Type, (A -> A -> bool) -> list A -> list A).
Context (mk_nary : Kind -> list Node -> Node) (rewrite : Node -> Node).
Context (AigNodeRefSet : Type) (aig_empty : AigNodeRefSet).
Context (count_aig_ands : Node -> AigNodeRefSet -> Z * AigNodeRefSet).
Context (count_parents : Node -> ParentsMap -> NodeSet -> ParentsMap * NodeSet).
Context (substitute : Node -> NodeMap Node -> NodeMap Node -> Node * NodeMap Node).
Context (adder_results : NodeMap CoefficientsMap -> NodeMap Node).

#[local] Abbreviation apply_ :=
  (apply node_id NDEBUG fuel d_share_aware unstable_sort default_keep_value
     default_push_neg mk_nary rewrite AigNodeRefSet aig_empty count_aig_ands
     count_parents substitute adder_results).
#[local] Abbreviation apply_compute_ :=
  (apply_compute node_id NDEBUG fuel d_share_aware unstable_sort default_keep_value
     default_push_neg mk_nary rewrite AigNodeRefSet aig_empty count_aig_ands
     count_parents substitute adder_results).
#[local] Abbreviation first_pass_step_ :=
  (first_pass_step node_id NDEBUG fuel d_share_aware unstable_sort default_keep_value
     default_push_neg mk_nary rewrite AigNodeRefSet count_aig_ands).
#[local] Abbreviation process_ :=
  (process node_id NDEBUG fuel d_share_aware unstable_sort default_keep_value
     default_push_neg mk_nary rewrite).
#[local] Abbreviation add_ := (add_aig_size AigNodeRefSet count_aig_ands).
#[local] Abbreviation aig_size_ := (aig_size aig_empty count_aig_ands).
#[local] Abbreviation normalize_adders_ :=
  (normalize_adders node_id NDEBUG fuel d_share_aware substitute adder_results).

(** [process] does not touch the set of the processed assertions. *)
Lemma process_step_processed (s s' : process_state) :
  process_step node_id NDEBUG fuel d_share_aware unstable_sort default_keep_value
    default_push_neg mk_nary rewrite s = inr s' ->
  d_processed_assertions (snd s') = d_processed_assertions (snd s).
Proof.
  destruct s as [[visit normalized] st]. destruct visit as [| cur visit']; [discriminate |].
  unfold process_step.
  destruct (nmap_find (d_cache st) cur) as [d |].
  - destruct (is_null d).
    + intros H. inv_bind H as cs Hcs. inv_bind H as r Hr.
      destruct r as [[res norm] counted]. injection H as <-. reflexivity.
    + intros [= <-]. reflexivity.
  - intros [= <-]. reflexivity.
Qed.

Lemma process_processed (st st' : PassState) (node r : Node) :
  process_ st node = inr (r, st') ->
  d_processed_assertions st' = d_processed_assertions st.
Proof.
  unfold process. intros H. inv_bind H as s Hs. destruct s as [[_node normalized] st1].
  destruct (nmap_find (d_cache st1) _node); [| destruct NDEBUG; discriminate].
  injection H as _ <-.
  apply (do_while_invariant
           (fun s : Node * bool * PassState =>
              d_processed_assertions (snd s) = d_processed_assertions st)) in Hs;
    [exact Hs | | reflexivity].
  intros [[n0 b0] s0] [[n1 b1] s1] Hround Hs0. cbn [snd] in *.
  unfold process_round in Hround. inv_bind Hround as s2 Hs2.
  destruct s2 as [[visit2 normalized2] st2].
  apply (do_while_invariant
           (fun s : process_state =>
              d_processed_assertions (snd s) = d_processed_assertions st)) in Hs2.
  - cbn [snd] in Hs2. destruct normalized2.
    + destruct (nmap_find (d_cache st2) n0); [| discriminate].
      injection Hround as _ _ <-. exact Hs2.
    + injection Hround as _ _ <-. exact Hs2.
  - intros s s' Hstep Hs'. rewrite (process_step_processed s s' Hstep). exact Hs'.
  - exact Hs0.
Qed.

(** The first loop only adds to the set, and adds every assertion. *)
Lemma first_pass_marks (l : list Node) :
  forall acc fp,
    for_each l first_pass_step_ acc = inr fp ->
    forall a,
      In a l \/ ns_mem (d_processed_assertions (fp_state acc)) a = true ->
      ns_mem (d_processed_assertions (fp_state fp)) a = true.
Proof.
  induction l as [| x r IH]; cbn [for_each]; intros acc fp H a Ha.
  - injection H as <-. destruct Ha as [[] | Ha]. exact Ha.
  - inv_bind H as acc1 H1. apply (IH _ _ H a).
    assert (Hstep : forall b,
              b = x \/ ns_mem (d_processed_assertions (fp_state acc)) b = true ->
              ns_mem (d_processed_assertions (fp_state acc1)) b = true).
    { intros b Hb. unfold first_pass_step in H1.
      destruct (ns_mem (d_processed_assertions (fp_state acc)) x) eqn:Hx; cbn [negb] in H1.
      - injection H1 as <-. cbn. destruct Hb as [-> | Hb]; assumption.
      - inv_bind H1 as p Hp. destruct p as [processed st1]. injection H1 as <-.
        cbn [fp_state]. rewrite (process_processed _ _ _ _ Hp). cbn.
        unfold ns_insert. rewrite Hx. cbn.
        destruct Hb as [-> | Hb]; [rewrite node_eqb_refl; reflexivity |].
        unfold ns_mem in Hb. rewrite Hb. apply orb_true_r. }
    destruct Ha as [[<- | Ha] | Ha]; [right; apply Hstep; auto | left; exact Ha |].
    right. apply Hstep. right. exact Ha.
Qed.

(** The first loop over assertions that were all processed before. *)
Lemma first_pass_skips (l : list Node) :
  forall acc fp,
    Forall (fun a => ns_mem (d_processed_assertions (fp_state acc)) a = true) l ->
    for_each l first_pass_step_ acc = inr fp ->
    fp = FirstPass _ (fp_state acc)
           (fold_left (fun s n => add_ n s) l (fp_before acc))
           (fold_left (fun s n => add_ n s) l (fp_after1 acc))
           (fp_new_assertions acc ++ l).
Proof.
  induction l as [| x r IH]; cbn [for_each fold_left]; intros acc fp Hl H.
  - injection H as <-. rewrite app_nil_r. destruct acc; reflexivity.
  - rewrite Forall_cons in Hl. destruct Hl as (Hx & Hr).
    inv_bind H as acc1 H1. unfold first_pass_step in H1. cbn zeta in H1.
    rewrite Hx in H1. cbn [negb] in H1. injection H1 as <-.
    apply IH in H; [| exact Hr]. cbn in H. rewrite <- app_assoc in H. exact H.
Qed.

(** X12.  [apply] marks every assertion it is given as processed and
    keeps the marks it finds; it leaves the three caches of the pass
    empty, so that the assertion [d_parents.empty()] holds when it is
    called again. *)
Theorem apply_marks_assertions_processed (st st' : PassState)
  (assertions assertions' : AssertionVector) :
  apply_ st assertions = inr (assertions', st') ->
  d_parents st' = [] /\ d_parents_cache st' = [] /\ d_cache st' = []
  /\ forall a,
       In a assertions \/ ns_mem (d_processed_assertions st) a = true ->
       ns_mem (d_processed_assertions st') a = true.
Proof.
  unfold apply. intros H. inv_bind H as d Hd. inv_bind H as v Hv.
  injection H as _ <-. cbn. repeat split.
  intros a Ha. unfold apply_compute in Hd. inv_bind Hd as u Hu.
  destruct (if d_share_aware then _ else _) as [parents parents_cache].
  inv_bind Hd as fp Hfp. inv_bind Hd as norm Hnorm. injection Hd as <-.
  cbn [ad_state]. exact (first_pass_marks _ _ _ Hfp a Ha).
Qed.


(** The first loop pushes one assertion for every assertion it reads. *)
Lemma first_pass_length (l : list Node) :
  forall acc fp,
    for_each l first_pass_step_ acc = inr fp ->
    List.length (fp_new_assertions fp)
    = (List.length (fp_new_assertions acc) + List.length l)%nat.
Proof.
  induction l as [| x r IH]; cbn [for_each]; intros acc fp H.
  - injection H as <-. cbn. lia.
  - inv_bind H as acc1 H1. rewrite (IH _ _ H).
    unfold first_pass_step in H1.
    destruct (negb (ns_mem _ x)).
    + inv_bind H1 as p Hp. destruct p as [processed st1]. injection H1 as <-.
      cbn. rewrite length_app. cbn. lia.
    + injection H1 as <-. cbn. rewrite length_app. cbn. lia.
Qed.

(** So does the loop of [normalize_adders]. *)
Lemma normalize_adders_length (parents : ParentsMap) (l norm : list Node) :
  normalize_adders_ parents l = inr norm -> List.length norm = List.length l.
Proof.
  unfold normalize_adders. intros H. inv_bind H as adders Hadders.
  injection H as <-.
  match goal with |- context [fold_left ?f _ _] => set (step := f) end.
  assert (Hgen : forall (r : list Node) (acc : list Node * NodeMap Node),
            List.length (fst (fold_left step r acc))
            = (List.length (fst acc) + List.length r)%nat).
  { induction r as [| x r IH]; intros acc; cbn [fold_left]; [cbn; lia |].
    rewrite IH. destruct acc as [done cache]. unfold step.
    destruct (substitute x _ cache) as [n cache']. cbn. rewrite length_app. cbn. lia. }
  rewrite Hgen. reflexivity.
Qed.

(** The loop that replaces assertions returns when both vectors have the
    same length. *)
Lemma replace_all_returns (assertions : AssertionVector) (processed : list Node) :
  List.length processed = List.length assertions ->
  exists assertions', replace_all assertions processed = inr assertions'.
Proof.
  intros Hlen. unfold replace_all.
  assert (Hgen : forall (idx : list nat) (s : AssertionVector),
            List.length s = List.length assertions ->
            Forall (fun i => (i < List.length assertions)%nat) idx ->
            exists s',
              for_each idx
                (fun i (assertions0 : AssertionVector) =>
                   match assertions0 !! i, processed !! i with
                   | Some a, Some p =>
                       if negb (node_eqb a p) then ok (replace assertions0 i p)
                       else ok assertions0
                   | _, _ => fail Undefined
                   end) s = inr s').
  { induction idx as [| i r IH]; intros s Hs Hidx; cbn [for_each]; [eauto |].
    rewrite Forall_cons in Hidx. destruct Hidx as [Hi Hr].
    unfold AssertionVector in *.
    destruct (lookup_lt_is_Some_2 s i ltac:(lia)) as [a Ha].
    destruct (lookup_lt_is_Some_2 processed i ltac:(lia)) as [p Hp].
    cbn beta. rewrite Ha, Hp.
    destruct (negb (node_eqb a p)); cbn [mbind Res_bind ok]; apply IH;
      try assumption.
    unfold replace. rewrite length_insert. exact Hs. }
  apply Hgen; [reflexivity |].
  apply Forall_forall. intros i Hi. apply list_elem_of_In, in_seq in Hi. lia.
Qed.

(** X26.  The assertion [processed_assertions.size() == assertions.size()]
    of [apply] cannot fail, and its last loop stays in range: both passes
    push one assertion for every assertion of the vector, so [apply]
    returns whenever its two passes have returned. *)
Theorem apply_size_assertion_holds (st : PassState)
  (assertions : AssertionVector) (d : apply_data) :
  apply_compute_ st assertions = inr d ->
  List.length (ad_new_assertions d) = List.length assertions
  /\ List.length (ad_norm_assertions d) = List.length assertions
  /\ exists assertions',
       apply_ st assertions
       = inr (assertions',
              mkPassState [] [] [] (num_normalizations (ad_state d))
                (d_processed_assertions (ad_state d))).
Proof.
  intros Hd.
  assert (Hlen : List.length (ad_new_assertions d) = List.length assertions
                 /\ List.length (ad_norm_assertions d) = List.length assertions).
  { unfold apply_compute in Hd. inv_bind Hd as u Hu.
    destruct (if d_share_aware then _ else _) as [parents parents_cache].
    inv_bind Hd as fp Hfp. inv_bind Hd as norm Hnorm. injection Hd as <-.
    cbn [ad_new_assertions ad_norm_assertions].
    apply first_pass_length in Hfp. cbn in Hfp.
    apply normalize_adders_length in Hnorm. lia. }
  destruct Hlen as [Hnew Hnorm]. split; [exact Hnew |]. split; [exact Hnorm |].
  assert (Hp : List.length (processed_assertions d) = List.length assertions).
  { unfold processed_assertions. destruct (_ <? _); assumption. }
  unfold apply. rewrite Hd. cbn [mbind Res_bind].
  destruct (size_after d <? ad_size_before d).
  - rewrite Hp, Z.eqb_refl.
    replace (c_assert NDEBUG true) with (ok tt : Res unit) by (destruct NDEBUG; reflexivity).
    cbn [mbind Res_bind ok].
    destruct (replace_all_returns assertions (processed_assertions d) Hp) as [a' Ha'].
    rewrite Ha'. eauto.
  - eauto.
Qed.

(** X25.  [apply] does not return for an empty vector of assertions:
    [collect_adders] reads the back of its work list before it tests it
    for emptiness.  (In a build with assertions a pass whose [d_parents]
    is not empty fails the assertion before it.) *)
Theorem apply_needs_an_assertion (st : PassState) :
  (exists e, apply_ st [] = inl e)
  /\ (fuel <> O -> NDEBUG = true \/ d_parents st = [] ->
      apply_ st [] = inl Undefined).
Proof.
  assert (Hrun : forall parents parents_cache cache,
            NDEBUG = true \/ parents = [] ->
            apply_ (mkPassState parents parents_cache cache (num_normalizations st)
                      (d_processed_assertions st)) []
            = inl (match fuel with O => OutOfFuel | S _ => Undefined end)).
  { intros parents parents_cache cache Hp. unfold apply, apply_compute.
    cbn [d_parents d_parents_cache d_cache num_normalizations
         d_processed_assertions fold_left for_each].
    replace (c_assert NDEBUG (negb (nonempty parents))) with (ok tt : Res unit)
      by (destruct Hp as [-> | ->]; [| destruct NDEBUG]; reflexivity).
    cbn [mbind Res_bind ok].
    destruct d_share_aware; cbn [mbind Res_bind ok fp_state fp_new_assertions d_parents];
      unfold normalize_adders, collect_adders; destruct fuel; reflexivity. }
  destruct st as [parents parents_cache cache n processed].
  cbn [num_normalizations d_processed_assertions] in Hrun. split.
  - destruct NDEBUG eqn:En.
    + eexists. apply Hrun. left. reflexivity.
    + destruct parents as [| p r].
      * eexists. apply Hrun. right. reflexivity.
      * exists AssertionFailed. reflexivity.
  - intros Hf Hp. rewrite Hrun by exact Hp. destruct fuel; [contradiction | reflexivity].
Qed.

End ApplyProcessed.

(** ** The loop of [sat_quant_solver] *)

Section SolverLoop.

Context {Bzla : Type} (api : @BzlaApi Bzla) (NDEBUG : bool).
Context (synthesize_model :
  @BzlaGroundSolvers Bzla -> FlatModel -> Res (SynthModel * BzlaQuantStats)).
Context (instantiate_formula :
  @BzlaGroundSolvers Bzla -> option SynthModel -> Res (BzlaNode * BzlaNodeMap)).
Context (build_refinement : Bzla -> BzlaNode -> BzlaNodeMap -> Res BzlaNode).
Context (synthesize_quant_inst : @BzlaGroundSolvers Bzla -> Res (Bzla * BzlaNodeMap)).

#[local] Abbreviation find_model_ :=
  (find_model api NDEBUG synthesize_model instantiate_formula build_refinement
     synthesize_quant_inst).
#[local] Abbreviation loop_ :=
  (sat_quant_solver_loop api NDEBUG synthesize_model instantiate_formula
     build_refinement synthesize_quant_inst).
#[local] Abbreviation sat_quant_solver_ :=
  (sat_quant_solver api NDEBUG synthesize_model instantiate_formula
     build_refinement synthesize_quant_inst).

(** A call of [find_model] only adds to the counter-examples. *)
Lemma find_model_keeps_forall_ces (gslv gslv' : @BzlaGroundSolvers Bzla)
  (skip_exists : bool) (res : BzlaSolverResult) :
  find_model_ gslv skip_exists = inr (res, gslv') ->
  exists added, forall_ces gslv' = forall_ces gslv ++ added.
Proof.
  unfold find_model. intros H. inv_bind H as r He.
  pose proof (e_step_inv api NDEBUG synthesize_model _ _ _ He) as Hinv.
  destruct r as [res0 gslv0 | synth_model gslv1].
  - injection H as <- <-. destruct Hinv as (-> & _). exists []. symmetry. apply app_nil_r.
  - destruct Hinv as (Hces & _). rewrite <- Hces.
    unfold f_step in H. inv_bind H as [g evar_map] Hi.
    destruct (nodemap_count (forall_uvars gslv1) =? 0).
    + inv_bind H as ? H0. destruct (bzla_check_sat api _) as [r f].
      injection H as <- <-. exists []. symmetry. apply app_nil_r.
    + destruct (bzla_check_sat api _) as [r f].
      inv_bind H as ? H0. destruct r.
      * inv_bind H as gslv3 Href.
        apply (refine_exists_solver_inv api NDEBUG build_refinement) in Href
          as (ce & evar_tup & _ & _ & Hadd).
        rewrite update_formula_forall_ces in Hadd. cbn in Hadd.
        exists [(ce, evar_tup)]. rewrite <- Hadd.
        destruct (opt_quant_synth_qi api (forall_ gslv1) =? 1).
        -- inv_bind H as [e cur_qi] Hqi. injection H as <- <-. reflexivity.
        -- injection H as <- <-. reflexivity.
      * injection H as <- <-. rewrite update_formula_forall_ces. exists [].
        symmetry. apply app_nil_r.
      * inv_bind H as ? H1. injection H as <- <-.
        rewrite update_formula_forall_ces. exists []. symmetry. apply app_nil_r.
Qed.

Lemma sat_quant_solver_loop_inv (fuel : nat) :
  forall gslv gslv' skip_exists res,
    loop_ fuel gslv skip_exists = inr (res, gslv') ->
    res <> BZLA_RESULT_UNKNOWN
    /\ exists added, forall_ces gslv' = forall_ces gslv ++ added.
Proof.
  induction fuel as [| f IH]; intros gslv gslv' skip res H; [discriminate |].
  cbn [sat_quant_solver_loop] in H. inv_bind H as [r g1] Hfm.
  destruct (find_model_keeps_forall_ces _ _ _ _ Hfm) as (a1 & Ha1).
  destruct r; cbn [result_eqb negb] in H.
  - injection H as <- <-. split; [discriminate | eauto].
  - injection H as <- <-. split; [discriminate | eauto].
  - destruct (IH _ _ _ _ H) as (Hres & a2 & Ha2). split; [exact Hres |].
    exists (a1 ++ a2). rewrite Ha2, Ha1, app_assoc. reflexivity.
Qed.


End SolverLoop.

(** ** [flat_model_get_value] for a universal variable *)

(** X15.  For a universal variable [flat_model_get_value] returns the
    component of the counter-example it is given at the position of the
    variable in [forall_uvars], whatever the rows of the model hold;
    without a counter-example it fails (its assertion, or the read
    through the null pointer). *)
Theorem flat_model_universal_value {Bzla : Type} (api : @BzlaApi Bzla)
  (NDEBUG : bool) (uvars : BzlaNodeMap) (flat_model : FlatModel)
  (var const : BzlaNode) (j : nat) (ce : BzlaBitVectorTuple) :
  uvar_index_map flat_model = index_map uvars ->
  NoDup (map (fun p => bzla_id (fst p)) uvars) ->
  nodemap_count uvars <= 2 ^ 32 ->
  uvars !! j = Some (var, const) ->
  bzla_node_param_is_exists_var api var = false ->
  bzla_node_param_is_forall_var api var = true ->
  flat_model_get_value api NDEBUG flat_model var (Some ce)
  = tuple_get ce (Z.of_nat j)
  /\ flat_model_get_value api NDEBUG flat_model var None
     = inl (if NDEBUG then Undefined else AssertionFailed).
Proof.
  intros Hmap Hnd Hc Hj He Hf. unfold flat_model_get_value, assert_, hashint_get.
  rewrite He, Hf, Hmap, (index_map_lookup uvars j var const Hnd Hj Hc).
  split.
  - rewrite !c_assert_true. reflexivity.
  - destruct NDEBUG; reflexivity.
Qed.

(** ** [collect_consts] *)

Lemma while_do_invariant {S : Type} (P : S -> Prop) (cond : S -> bool)
  (body : S -> Res S) (fuel : nat) :
  (forall s s', body s = inr s' -> P s -> P s') ->
  forall s s', while_do fuel cond body s = inr s' -> P s -> P s'.
Proof.
  intros Hb. induction fuel as [| f IH]; intros s s' H Hs; cbn in H.
  - destruct (cond s); [discriminate |]. injection H as <-. exact Hs.
  - destruct (cond s); [| injection H as <-; exact Hs].
    inv_bind H as s1 H1. eauto.
Qed.

Section ConstsProperties.

Context (fuel : nat) (node_e : Z -> list BzlaNode).
Context (bzla_node_is_bv_const : Z -> bool) (bzla_node_get_id : BzlaNode -> Z).

(** X16.  [collect_consts] appends to [consts] references to bit-vector
    constants only, and no two of the references it appends have the
    same identifier. *)
Theorem collect_consts_appends_distinct_constants (root : BzlaNode)
  (consts consts' : list BzlaNode) :
  collect_consts fuel node_e bzla_node_is_bv_const bzla_node_get_id root consts
  = inr consts' ->
  exists found,
    consts' = consts ++ found
    /\ Forall (fun cur => bzla_node_is_bv_const (bzla_id cur) = true) found
    /\ NoDup (map bzla_node_get_id found).
Proof.
  unfold collect_consts. intros H. inv_bind H as st Hst.
  destruct st as [[visit cache] cs]. injection H as <-.
  apply (while_do_invariant
           (fun st : consts_state =>
              let '(_, cache, cs) := st in
              exists found,
                cs = consts ++ found
                /\ Forall (fun cur => bzla_node_is_bv_const (bzla_id cur) = true) found
                /\ NoDup (map bzla_node_get_id found)
                /\ forall cur, In cur found -> bzla_node_get_id cur ∈ cache)) in Hst.
  - destruct Hst as (found & H1 & H2 & H3 & _). eauto.
  - clear. intros [[visit cache] cs] [[visit' cache'] cs'] Hstep (found & -> & Hc & Hnd & Hin).
    destruct visit as [| cur rest]; [discriminate |]. cbn in Hstep.
    destruct (bzla_node_is_bv_const (bzla_id cur)) eqn:Ec.
    + destruct (bool_decide (bzla_node_get_id cur ∈ cache)) eqn:Em.
      * injection Hstep as <- <- <-. eauto.
      * injection Hstep as <- <- <-. apply bool_decide_eq_false in Em.
        exists (found ++ [cur]). rewrite app_assoc. split; [reflexivity |].
        split; [apply Forall_app; split; [exact Hc | repeat constructor; exact Ec] |].
        split.
        -- rewrite map_app. apply NoDup_app. split; [exact Hnd |].
           split; [| apply NoDup_singleton].
           intros x Hx Hx'. cbn in Hx'. apply list_elem_of_singleton in Hx'. subst x.
           apply list_elem_of_In, in_map_iff in Hx. destruct Hx as (c & Hc' & Hcin).
           apply Em. rewrite <- Hc'. apply Hin. exact Hcin.
        -- intros c Hcin. apply in_app_iff in Hcin. destruct Hcin as [Hcin | [<- | []]].
           ++ apply elem_of_union_r. apply Hin. exact Hcin.
           ++ apply elem_of_union_l, elem_of_singleton. reflexivity.
    + destruct (bool_decide (bzla_id cur ∈ cache)).
      * injection Hstep as <- <- <-. eauto.
      * injection Hstep as <- <- <-. exists found. repeat split; try assumption.
        intros c Hcin. apply elem_of_union_r. apply Hin. exact Hcin.
  - exists []. rewrite app_nil_r. repeat split; [constructor | constructor |].
    intros c [].
Qed.

End ConstsProperties.

(** ** The value generators of the unit tests *)

Lemma for_each_append {A B : Type} (body : A -> list B -> Res (list B))
  (f : A -> B) (l : list A) :
  (forall x acc, In x l -> body x acc = inr (acc ++ [f x])) ->
  forall acc, for_each l body acc = inr (acc ++ map f l).
Proof.
  induction l as [| x r IH]; intros Hb acc; cbn [for_each map].
  - rewrite app_nil_r. reflexivity.
  - rewrite (Hb x acc (or_introl eq_refl)). cbn [mbind Res_bind ok].
    rewrite IH by (intros; apply Hb; right; assumption).
    rewrite <- app_assoc. reflexivity.
Qed.

Import TestCommon.

Lemma in_upto (n i : Z) : In i (upto n) <-> 0 <= i < n.
Proof.
  unfold upto. rewrite in_map_iff. split.
  - intros (j & <- & Hj). apply in_seq in Hj. lia.
  - intros H. exists (Z.to_nat i). split; [lia |]. apply in_seq. lia.
Qed.

Lemma upto_lookup (n : Z) (j : nat) :
  (j < Z.to_nat n)%nat -> upto n !! j = Some (Z.of_nat j).
Proof.
  intros H. unfold upto. rewrite list_lookup_fmap, lookup_seq_lt by exact H.
  reflexivity.
Qed.

Lemma upto_length (n : Z) : List.length (upto n) = Z.to_nat n.
Proof. unfold upto. rewrite length_map, length_seq. reflexivity. Qed.

Lemma digit_of_nth (bits : list Ascii.ascii) (i : nat) (c : Ascii.ascii) :
  NoDup bits -> bits !! i = Some c -> digit_of bits c = Z.of_nat i.
Proof.
  revert i. induction bits as [| b r IH]; intros i Hnd Hi; [discriminate |].
  apply NoDup_cons in Hnd. destruct Hnd as (Hb & Hnd).
  destruct i as [| i]; cbn in Hi |- *.
  - injection Hi as ->. rewrite Ascii.eqb_refl. reflexivity.
  - destruct (Ascii.eqb_spec b c) as [-> | _].
    + exfalso. apply Hb. apply list_elem_of_lookup. eauto.
    + rewrite (IH i Hnd Hi). lia.
Qed.

Lemma at_index_upto {A : Type} (f : Z -> A) (k col : Z) :
  0 <= col < k -> at_index (map f (upto k)) col = inr (f col).
Proof.
  intros Hc. unfold at_index, size_of. rewrite length_map, upto_length.
  replace ((0 <=? col) && (col <? Z.of_nat (Z.to_nat k))) with true
    by (symmetry; apply andb_true_iff; split; [apply Z.leb_le | apply Z.ltb_lt]; lia).
  rewrite list_lookup_fmap, upto_lookup by lia. cbn. rewrite Z2Nat.id by lia.
  reflexivity.
Qed.

Lemma at_index_nth {A : Type} (v : list A) (i : Z) (d : A) :
  0 <= i < size_of v -> at_index v i = inr (nth (Z.to_nat i) v d).
Proof.
  intros Hi. unfold at_index.
  replace ((0 <=? i) && (i <? size_of v)) with true
    by (symmetry; apply andb_true_iff; split; [apply Z.leb_le | apply Z.ltb_lt]; lia).
  destruct (v !! Z.to_nat i) as [x |] eqn:E.
  - rewrite (nth_lookup_Some _ _ d _ E). reflexivity.
  - apply lookup_ge_None in E. unfold size_of in Hi. lia.
Qed.

Section Combinations.

Context (size : Z) (bits : list Ascii.ascii).
Context (Hsize : 0 <= size) (Hbits : bits <> []) (Hnd : NoDup bits).
Context (Hpow : size_of bits ^ size < 2 ^ 53).

#[local] Abbreviation base := (size_of bits).

(** The character in column [col] of row [row]. *)
#[local] Abbreviation char_at row col :=
  (nth (Z.to_nat ((row / base ^ (size - 1 - col)) mod base)) bits "000"%char).

Lemma alphabet_size_pos : 1 <= base.
Proof. unfold size_of. destruct bits; [congruence | cbn; lia]. Qed.

Lemma alphabet_pow_pos (e : Z) : 0 <= e -> 1 <= base ^ e.
Proof.
  intros He. pose proof alphabet_size_pos.
  assert (0 < base ^ e) by (apply Z.pow_pos_nonneg; lia). lia.
Qed.

Lemma pow_size_t_le (e : Z) : 0 <= e <= size -> pow_size_t base e = inr (base ^ e).
Proof.
  intros He. unfold pow_size_t.
  assert (base ^ e <= base ^ size) by (apply Z.pow_le_mono_r; [pose proof alphabet_size_pos |]; lia).
  destruct (Z.ltb_spec (base ^ e) (2 ^ 53)); [reflexivity | lia].
Qed.

Lemma psizes_entry (i : Z) :
  0 <= i < size -> base ^ size / base ^ (i + 1) = base ^ (size - 1 - i).
Proof.
  intros Hi. replace size with ((size - 1 - i) + (i + 1)) at 1 by lia.
  rewrite Z.pow_add_r by lia. apply Z.div_mul.
  pose proof (alphabet_pow_pos (i + 1)). lia.
Qed.

Lemma row_value (row : Z) (val : cstring) (col : Z) :
  0 <= col < size -> 0 <= row ->
  (p ← at_index (map (fun i => base ^ (size - 1 - i)) (upto size)) col;
   q ← div_size_t row p;
   i ← mod_size_t q base;
   c ← at_index bits i;
   ok (val ++ [c]))
  = inr (val ++ [char_at row col]).
Proof.
  intros Hc Hr. pose proof alphabet_size_pos as Hn.
  rewrite at_index_upto by lia. cbn [mbind Res_bind ok].
  pose proof (alphabet_pow_pos (size - 1 - col)) as Hp.
  unfold div_size_t. destruct (Z.eqb_spec (base ^ (size - 1 - col)) 0); [lia |].
  cbn [mbind Res_bind ok]. unfold mod_size_t. destruct (Z.eqb_spec base 0); [lia |].
  cbn [mbind Res_bind ok].
  pose proof (Z.mod_pos_bound (row / base ^ (size - 1 - col)) base ltac:(lia)) as Hm.
  rewrite (at_index_nth bits _ "000"%char) by lia. reflexivity.
Qed.

Lemma gen_all_combinations_rows (values : list cstring) :
  gen_all_combinations size bits values
  = inr (values
         ++ map (fun row => map (fun col => char_at row col) (upto size))
              (upto (base ^ size))).
Proof.
  unfold gen_all_combinations. rewrite pow_size_t_le by lia. cbn [mbind Res_bind ok].
  rewrite (for_each_append _ (fun i => base ^ (size - 1 - i))).
  2:{ intros i acc Hi. apply in_upto in Hi.
      rewrite pow_size_t_le by lia. cbn [mbind Res_bind ok].
      unfold div_size_t. pose proof (alphabet_pow_pos (i + 1)).
      destruct (Z.eqb_spec (base ^ (i + 1)) 0); [lia |].
      cbn [mbind Res_bind ok]. rewrite psizes_entry by lia. reflexivity. }
  cbn [mbind Res_bind ok app].
  apply for_each_append. intros row acc Hrow. apply in_upto in Hrow.
  rewrite (for_each_append _ (fun col => char_at row col)).
  - reflexivity.
  - intros col val Hcol. apply in_upto in Hcol. apply row_value; lia.
Qed.

Lemma row_numeral (row : Z) (k : nat) :
  0 <= row -> (k <= Z.to_nat size)%nat ->
  numeral_value bits (map (fun col => char_at row col) (map Z.of_nat (seq 0 k)))
  = row / base ^ (size - Z.of_nat k) mod base ^ Z.of_nat k.
Proof.
  intros Hr. pose proof alphabet_size_pos as Hn. unfold numeral_value.
  induction k as [| k IH]; intros Hk.
  - cbn [seq map fold_left]. rewrite Z.pow_0_r, Z.mod_1_r. reflexivity.
  - rewrite seq_S, !map_app, fold_left_app. cbn [plus map fold_left].
    rewrite IH by lia.
    assert (Hlt : (row / base ^ (size - 1 - Z.of_nat k)) mod base < base)
      by (apply Z.mod_pos_bound; lia).
    assert (Hge : 0 <= (row / base ^ (size - 1 - Z.of_nat k)) mod base)
      by (apply Z.mod_pos_bound; lia).
    destruct (bits !! Z.to_nat ((row / base ^ (size - 1 - Z.of_nat k)) mod base)) as [c |] eqn:E.
    2:{ apply lookup_ge_None in E.
        pose proof (eq_refl : size_of bits = Z.of_nat (List.length bits)). lia. }
    rewrite (nth_lookup_Some _ _ "000"%char _ E), (digit_of_nth _ _ _ Hnd E).
    rewrite Z2Nat.id by lia.
    set (m := base ^ (size - 1 - Z.of_nat k)).
    assert (Hm : 0 < m) by (pose proof (alphabet_pow_pos (size - 1 - Z.of_nat k)); lia).
    replace (size - Z.of_nat k) with ((size - 1 - Z.of_nat k) + 1) by lia.
    rewrite Z.pow_add_r, Z.pow_1_r by lia. fold m.
    rewrite <- Z.div_div by lia.
    replace (Z.of_nat (S k)) with (Z.of_nat k + 1) by lia.
    rewrite Z.pow_add_r, Z.pow_1_r by lia.
    replace (size - (Z.of_nat k + 1)) with (size - 1 - Z.of_nat k) by lia. fold m.
    set (q := row / m). set (b := base ^ Z.of_nat k).
    assert (Hb : 0 < b) by (unfold b; apply Z.pow_pos_nonneg; lia).
    rewrite (Z.mul_comm b base), Z.rem_mul_r by lia. lia.
Qed.

(** X17.  For an alphabet of distinct characters, [gen_all_combinations]
    appends to [values] the strings of [size] characters of the alphabet,
    all of them and each once, in the order of the numbers they denote:
    the string at index [row] reads as the numeral of [row] in the base
    of the alphabet.  (The number of strings is computed on doubles and
    has to be below [2 ^ 53].) *)
Theorem gen_all_combinations_enumerates (values : list cstring) :
  exists new,
    gen_all_combinations size bits values = inr (values ++ new)
    /\ size_of new = size_of bits ^ size
    /\ forall row s,
         new !! row = Some s ->
         size_of s = size /\ Forall (fun c => In c bits) s
         /\ numeral_value bits s = Z.of_nat row.
Proof.
  pose proof alphabet_size_pos as Hn.
  pose proof (alphabet_pow_pos size Hsize) as Hp.
  eexists. split; [apply gen_all_combinations_rows |]. split.
  - unfold size_of at 1. rewrite length_map, upto_length. lia.
  - intros row s Hs. rewrite list_lookup_fmap in Hs.
    destruct (upto (size_of bits ^ size) !! row) as [r |] eqn:E; [| discriminate].
    pose proof (lookup_lt_Some _ _ _ E) as Hlt. rewrite upto_length in Hlt.
    rewrite upto_lookup in E by exact Hlt. injection E as <-.
    cbn in Hs. injection Hs as <-. split; [| split].
    + unfold size_of at 1. rewrite length_map, upto_length. lia.
    + apply Forall_forall. intros c Hc. apply list_elem_of_In, in_map_iff in Hc.
      destruct Hc as (col & <- & Hcol).
      apply nth_In.
      pose proof (Z.mod_pos_bound (Z.of_nat row / size_of bits ^ (size - 1 - col))
                    (size_of bits) ltac:(lia)) as Hm.
      pose proof (eq_refl : size_of bits = Z.of_nat (List.length bits)). lia.
    + unfold upto. rewrite row_numeral by lia.
      rewrite Z2Nat.id, Z.sub_diag, Z.pow_0_r, Z.div_1_r by lia.
      apply Z.mod_small. lia.
Qed.

End Combinations.

(** X18.  At the edges: for the size zero [gen_all_combinations] appends
    the empty string and nothing else, whatever the alphabet; for an
    empty alphabet and a size above zero it divides by zero. *)
Theorem gen_all_combinations_edges (bits : list Ascii.ascii) (values : list cstring) :
  gen_all_combinations 0 bits values = inr (values ++ [[]])
  /\ forall size, 0 < size -> gen_all_combinations size [] values = inl Undefined.
Proof.
  split.
  - reflexivity.
  - intros size Hs. unfold gen_all_combinations, size_of.
    cbn [List.length]. change (Z.of_nat 0) with 0. unfold pow_size_t.
    rewrite Z.pow_0_l by lia. cbn [Z.ltb Z.compare mbind Res_bind ok].
    unfold upto. destruct (Z.to_nat size) as [| k] eqn:E; [lia |].
    reflexivity.
Qed.

(** ** The C API: the maps of the exported objects *)

Section ApiProperties.

Import CApi.

Context {CppSort CppTerm : Type}.
Context (sort_id : CppSort -> Z) (term_id : CppTerm -> Z).
Context (sort_is_null : CppSort -> bool) (term_is_null : CppTerm -> bool).
Context (sort_eq : CppSort -> CppSort -> bool) (term_eq : CppTerm -> CppTerm -> bool).
Context (fun_domain : CppSort -> list CppSort).
Context (term_sort : CppTerm -> CppSort).
Context (term_children : CppTerm -> list CppTerm).
Context (mk_fp_pos_inf mk_fp_neg_inf : CppSort -> CppTerm).
Context (mk_term : Z -> list CppTerm -> CppTerm).
Context (NDEBUG : bool) (BITWUZLA_KIND_NUM_KINDS : Z).

#[local] Abbreviation Maps_ := (@Maps CppSort CppTerm).
#[local] Abbreviation export_sort_ := (export_sort sort_id sort_is_null NDEBUG).
#[local] Abbreviation export_term_ := (export_term term_id term_is_null NDEBUG).
#[local] Abbreviation import_sort_ := (@import_sort CppSort CppTerm).
#[local] Abbreviation import_term_ := (@import_term CppSort CppTerm).
#[local] Abbreviation consistent := (maps_consistent sort_id term_id).

Lemma api_bind_inr {A B : Type} (x : Api A) (f : A -> Api B) (m m' : Maps_) (b : B) :
  @mbind _ (@Api_bind CppSort CppTerm) _ _ f x m = inr (b, m') ->
  exists a m1, x m = inr (a, m1) /\ f a m1 = inr (b, m').
Proof.
  unfold mbind, Api_bind. destruct (x m) as [e | [a m1]]; [discriminate | eauto].
Qed.

Lemma api_assert_inr (c : bool) (m m' : Maps_) (u : unit) :
  api_assert NDEBUG c m = inr (u, m') -> m' = m.
Proof. unfold api_assert. destruct (NDEBUG || c); congruence. Qed.

Lemma check_inr (c : bool) (what : Check) (m m' : Maps_) (u : unit) :
  BITWUZLA_CHECK c what m = inr (u, m') -> c = true /\ m' = m.
Proof. unfold BITWUZLA_CHECK. destruct c; [intros [= <-]; auto | discriminate]. Qed.

(** X19.  [export_sort] followed by [import_sort] gives the sort back:
    where the maps hold every object under its own identifier and sorts
    with one identifier are one sort, [export_sort] returns the
    identifier of the sort, counts one more external reference for it
    (on [uint64_t]), touches no other entry, and [import_sort] of that
    identifier is the sort. *)
Theorem export_sort_round_trip (sort : CppSort) (m m' : Maps_) (id : Z) :
  (forall a b, sort_id a = sort_id b -> a = b) ->
  consistent m ->
  export_sort_ sort m = inr (id, m') ->
  id = sort_id sort
  /\ import_sort_ id m' = inr (sort, m')
  /\ consistent m'
  /\ sort_refs m' id = u64 (sort_refs m id + 1)
  /\ (forall id', id' <> id -> sort_map m' !! id' = sort_map m !! id')
  /\ term_map m' = term_map m.
Proof.
  intros Hinj (Hs & Ht) H. unfold export_sort in H.
  apply api_bind_inr in H. destruct H as (u & m1 & Ha & H).
  apply api_assert_inr in Ha. subst m1.
  destruct (sort_map m !! sort_id sort) as [[s c] |] eqn:E.
  - injection H as <- <-. pose proof (Hs _ _ _ E) as Hid. apply Hinj in Hid. subst s.
    unfold import_sort, sort_refs, maps_consistent. cbn [sort_map term_map].
    rewrite lookup_insert_eq, E. repeat split; try reflexivity.
    + intros id' s' c'. destruct (decide (id' = sort_id sort)) as [-> | Hne].
      * rewrite lookup_insert_eq. intros [= <- <-]. reflexivity.
      * rewrite lookup_insert_ne by congruence. apply Hs.
    + exact Ht.
    + intros id' Hne. apply lookup_insert_ne. congruence.
  - injection H as <- <-. unfold import_sort, sort_refs, maps_consistent.
    cbn [sort_map term_map].
    rewrite lookup_insert_eq, E. repeat split; try reflexivity.
    + intros id' s' c'. destruct (decide (id' = sort_id sort)) as [-> | Hne].
      * rewrite lookup_insert_eq. intros [= <- <-]. reflexivity.
      * rewrite lookup_insert_ne by congruence. apply Hs.
    + exact Ht.
    + intros id' Hne. apply lookup_insert_ne. congruence.
Qed.

(** What a loop of exports returns and leaves in the maps. *)
Lemma push_all_export_sort (l : list CppSort) :
  forall (res res' : list Z) (m m' : Maps_),
    push_all export_sort_ l res m = inr (res', m') ->
    res' = res ++ map sort_id l /\ term_map m' = term_map m.
Proof.
  induction l as [| x r IH]; intros res res' m m' H; cbn [push_all] in H.
  - injection H as <- <-. rewrite app_nil_r. auto.
  - apply api_bind_inr in H. destruct H as (y & m1 & Hx & H).
    unfold export_sort in Hx. apply api_bind_inr in Hx.
    destruct Hx as (u & m0 & Ha & Hx). apply api_assert_inr in Ha. subst m0.
    assert (y = sort_id x /\ term_map m1 = term_map m) as [-> Hm1].
    { destruct (sort_map m !! sort_id x) as [[s c] |]; injection Hx as <- <-; auto. }
    destruct (IH _ _ _ _ H) as [-> Hm']. rewrite <- app_assoc. cbn. split; congruence.
Qed.

Lemma push_all_export_term (l : list CppTerm) :
  forall (res res' : list Z) (m m' : Maps_),
    push_all export_term_ l res m = inr (res', m') ->
    res' = res ++ map term_id l
    /\ sort_map m' = sort_map m
    /\ forall id, is_Some (term_map m !! id) \/ In id (map term_id l) ->
                  is_Some (term_map m' !! id).
Proof.
  induction l as [| x r IH]; intros res res' m m' H; cbn [push_all] in H.
  - injection H as <- <-. rewrite app_nil_r. repeat split. intros id [Hid | []]. exact Hid.
  - apply api_bind_inr in H. destruct H as (y & m1 & Hx & H).
    unfold export_term in Hx. apply api_bind_inr in Hx.
    destruct Hx as (u & m0 & Ha & Hx). apply api_assert_inr in Ha. subst m0.
    assert (y = term_id x /\ sort_map m1 = sort_map m
            /\ forall id, is_Some (term_map m !! id) \/ id = term_id x ->
                          is_Some (term_map m1 !! id)) as (-> & Hs1 & Hk1).
    { destruct (term_map m !! term_id x) as [[t c] |] eqn:E; injection Hx as <- <-;
        cbn [sort_map term_map]; repeat split; intros id Hid;
        (destruct (decide (id = term_id x)) as [-> | Hne];
         [rewrite lookup_insert_eq; eauto
         | rewrite lookup_insert_ne by congruence; destruct Hid; [assumption | contradiction]]). }
    destruct (IH _ _ _ _ H) as (-> & Hs' & Hk'). rewrite <- app_assoc. cbn.
    split; [reflexivity |]. split; [congruence |].
    intros id [Hid | [<- | Hid]]; apply Hk'; auto.
Qed.

(** X20.  [bitwuzla_sort_fun_get_domain_sorts] clears the vector of the
    domain sorts before it walks it: for every registered sort it returns
    an empty array, sets [*size] to zero and exports nothing.  The
    function of the same name on terms returns the identifier of every
    domain sort, in their order. *)
Theorem sort_fun_get_domain_sorts_returns_nothing (m : Maps_) (v : Z) :
  (forall sort s c,
     sort_map m !! sort = Some (s, c) ->
     bitwuzla_sort_fun_get_domain_sorts sort_id sort_is_null fun_domain NDEBUG
       sort (Some v) m
     = inr (([], 0), m))
  /\ (forall term t c res size m',
        term_map m !! term = Some (t, c) ->
        bitwuzla_term_fun_get_domain_sorts sort_id sort_is_null fun_domain term_sort
          NDEBUG term (Some v) m
        = inr ((res, size), m') ->
        res = map sort_id (fun_domain (term_sort t))
        /\ size = size_of (fun_domain (term_sort t))).
Proof.
  split.
  - intros sort s c E. unfold bitwuzla_sort_fun_get_domain_sorts.
    unfold BITWUZLA_CHECK_SORT_ID, sort_map_has, BITWUZLA_CHECK_NOT_NULL, BITWUZLA_CHECK,
      import_sort, mbind, Api_bind, mret, Api_ret.
    rewrite E. cbn. rewrite E. reflexivity.
  - intros term t c res size m' E H. unfold bitwuzla_term_fun_get_domain_sorts in H.
    apply api_bind_inr in H. destruct H as (u1 & m1 & H1 & H).
    unfold BITWUZLA_CHECK_TERM_ID in H1. apply api_bind_inr in H1.
    destruct H1 as (b & m0 & Hb & H1). injection Hb as <- <-.
    apply check_inr in H1. destruct H1 as (_ & ->).
    apply api_bind_inr in H. destruct H as (u2 & m2 & H2 & H).
    apply check_inr in H2. destruct H2 as (_ & ->).
    apply api_bind_inr in H. destruct H as (t' & m3 & H3 & H).
    unfold import_term in H3. rewrite E in H3. injection H3 as <- <-.
    apply api_bind_inr in H. destruct H as (r & m4 & H4 & H).
    injection H as <- <- <-.
    apply push_all_export_sort in H4. destruct H4 as (-> & _).
    cbn [app]. unfold size_of. rewrite length_map. auto.
Qed.

(** X21.  [bitwuzla_mk_fp_neg_inf] calls the constructor of the positive
    infinity: for a registered sort it returns the identifier of the
    positive infinity of that sort and registers that term.  For an
    identifier that is not registered its check fails. *)
Theorem mk_fp_neg_inf_is_pos_inf (sort : Z) (m : Maps_) :
  (forall s c id m',
     sort_map m !! sort = Some (s, c) ->
     bitwuzla_mk_fp_neg_inf term_id term_is_null mk_fp_pos_inf NDEBUG sort m
     = inr (id, m') ->
     id = term_id (mk_fp_pos_inf s)
     /\ is_Some (term_map m' !! id)
     /\ sort_map m' = sort_map m)
  /\ (sort_map m !! sort = None ->
      bitwuzla_mk_fp_neg_inf term_id term_is_null mk_fp_pos_inf NDEBUG sort m
      = inl (CheckFailed CheckSortId)).
Proof.
  split.
  - intros s c id m' E H. unfold bitwuzla_mk_fp_neg_inf in H.
    apply api_bind_inr in H. destruct H as (u1 & m1 & H1 & H).
    unfold BITWUZLA_CHECK_SORT_ID in H1. apply api_bind_inr in H1.
    destruct H1 as (b & m0 & Hb & H1). injection Hb as <- <-.
    apply check_inr in H1. destruct H1 as (_ & ->).
    apply api_bind_inr in H. destruct H as (s' & m3 & H3 & H).
    unfold import_sort in H3. rewrite E in H3. injection H3 as <- <-.
    destruct (push_all_export_term [mk_fp_pos_inf s] [] [id] m m') as (_ & Hs & Hk).
    { cbn [push_all]. unfold mbind at 1, Api_bind at 1. rewrite H. reflexivity. }
    assert (Hid : id = term_id (mk_fp_pos_inf s)).
    { unfold export_term in H. apply api_bind_inr in H.
      destruct H as (u & m4 & Ha & H). apply api_assert_inr in Ha. subst m4.
      destruct (term_map m !! term_id (mk_fp_pos_inf s)) as [[t c'] |];
        injection H as <- _; reflexivity. }
    split; [exact Hid |]. split; [| exact Hs].
    apply Hk. right. left. symmetry. exact Hid.
  - intros E. unfold bitwuzla_mk_fp_neg_inf, BITWUZLA_CHECK_SORT_ID, sort_map_has,
      BITWUZLA_CHECK, mbind, Api_bind.
    rewrite E. reflexivity.
Qed.

(** X24.  [bitwuzla_mk_term] checks the kind first and then the
    arguments from the first to the last: the call fails at the first
    identifier that is not registered, with the index of that argument;
    where all are registered it makes the term of the registered
    arguments and exports it. *)
Theorem mk_term_checks_arguments (kind : Z) (args : list Z) (m : Maps_) :
  (BITWUZLA_KIND_NUM_KINDS <= kind ->
   bitwuzla_mk_term term_id term_is_null mk_term NDEBUG BITWUZLA_KIND_NUM_KINDS
     kind args m
   = inl (CheckFailed CheckKind))
  /\ (kind < BITWUZLA_KIND_NUM_KINDS ->
      forall i a,
        args !! i = Some a -> term_map m !! a = None ->
        (forall j b, (j < i)%nat -> args !! j = Some b -> is_Some (term_map m !! b)) ->
        bitwuzla_mk_term term_id term_is_null mk_term NDEBUG BITWUZLA_KIND_NUM_KINDS
          kind args m
        = inl (CheckFailed (CheckTermIdAtIdx (Z.of_nat i))))
  /\ (kind < BITWUZLA_KIND_NUM_KINDS ->
      forall terms,
        Forall2 (fun a t => exists c, term_map m !! a = Some (t, c)) args terms ->
        bitwuzla_mk_term term_id term_is_null mk_term NDEBUG BITWUZLA_KIND_NUM_KINDS
          kind args m
        = export_term_ (mk_term kind terms) m).
Proof.
  set (step := fun '(i, arg) =>
                 @mbind _ (@Api_bind CppSort CppTerm) _ _
                   (fun b : bool =>
                      @mbind _ (@Api_bind CppSort CppTerm) _ _
                        (fun _ : unit => import_term_ arg)
                        (BITWUZLA_CHECK b (CheckTermIdAtIdx i)))
                   (term_map_has arg)).
  assert (Hok : forall args terms off res,
            Forall2 (fun a t => exists c, term_map m !! a = Some (t, c)) args terms ->
            push_all step (zip (map Z.of_nat (seq off (List.length args))) args) res m
            = inr (res ++ terms, m)).
  { clear. intros args terms off res H. revert off res.
    induction H as [| a t args terms (c & E) _ IH]; intros off res.
    - cbn. rewrite app_nil_r. reflexivity.
    - cbn [List.length seq map zip zip_with push_all].
      unfold mbind at 1, Api_bind at 1. unfold step at 1.
      unfold term_map_has, BITWUZLA_CHECK, import_term, mbind, Api_bind.
      rewrite E. cbn. rewrite E. fold (@mbind _ (@Api_bind CppSort CppTerm)).
      rewrite (IH (S off) (res ++ [t])), <- app_assoc. reflexivity. }
  assert (Hbad : forall args i a off res,
            args !! i = Some a -> term_map m !! a = None ->
            (forall j b, (j < i)%nat -> args !! j = Some b -> is_Some (term_map m !! b)) ->
            push_all step (zip (map Z.of_nat (seq off (List.length args))) args) res m
            = inl (CheckFailed (CheckTermIdAtIdx (Z.of_nat (off + i))))).
  { clear. induction args as [| x r IH]; intros i a off res Hi Ha Hbefore; [discriminate |].
    cbn [List.length seq map zip zip_with push_all].
    unfold mbind at 1, Api_bind at 1. unfold step at 1.
    unfold term_map_has, BITWUZLA_CHECK, import_term, mbind, Api_bind.
    destruct i as [| i]; cbn in Hi.
    - injection Hi as ->. rewrite Ha. cbn. rewrite Nat.add_0_r. reflexivity.
    - destruct (Hbefore 0%nat x ltac:(lia) eq_refl) as ([t c] & E).
      rewrite E. cbn. rewrite E. fold (@mbind _ (@Api_bind CppSort CppTerm)).
      rewrite (IH i a (S off) (res ++ [t]) Hi Ha).
      + do 3 f_equal. lia.
      + intros j b Hj Hb. apply (Hbefore (S j) b); [lia | exact Hb]. }
  unfold bitwuzla_mk_term. fold step. split; [| split].
  - intros Hk. unfold BITWUZLA_CHECK, mbind, Api_bind.
    destruct (Z.ltb_spec kind BITWUZLA_KIND_NUM_KINDS); [lia | reflexivity].
  - intros Hk i a Hi Ha Hbefore. unfold BITWUZLA_CHECK at 1, mbind at 1, Api_bind at 1.
    destruct (Z.ltb_spec kind BITWUZLA_KIND_NUM_KINDS); [| lia].
    unfold mbind at 1, Api_bind at 1.
    rewrite (Hbad args i a 0%nat [] Hi Ha Hbefore). reflexivity.
  - intros Hk terms Hall. unfold BITWUZLA_CHECK at 1, mbind at 1, Api_bind at 1.
    destruct (Z.ltb_spec kind BITWUZLA_KIND_NUM_KINDS); [| lia].
    unfold mbind at 1, Api_bind at 1.
    rewrite (Hok args terms 0%nat [] Hall). reflexivity.
Qed.

(** X22.  [bitwuzla_term_get_children] returns the identifiers of the
    children of the term in their order and registers every child in the
    term map, but it does not write [*size]: the cell holds after the
    call what it held before. *)
Theorem term_get_children_leaves_size (m m' : Maps_) (term v size : Z)
  (t : CppTerm) (c : Z) (res : list Z) :
  term_map m !! term = Some (t, c) ->
  bitwuzla_term_get_children term_id term_is_null term_children NDEBUG term (Some v) m
  = inr ((res, size), m') ->
  size = v
  /\ res = map term_id (term_children t)
  /\ (forall child, In child (term_children t) ->
        is_Some (term_map m' !! term_id child))
  /\ sort_map m' = sort_map m.
Proof.
  intros E H. unfold bitwuzla_term_get_children in H.
  apply api_bind_inr in H. destruct H as (u1 & m1 & H1 & H).
  unfold BITWUZLA_CHECK_TERM_ID in H1. apply api_bind_inr in H1.
  destruct H1 as (b & m0 & Hb & H1). injection Hb as <- <-.
  apply check_inr in H1. destruct H1 as (_ & ->).
  apply api_bind_inr in H. destruct H as (u2 & m2 & H2 & H).
  apply check_inr in H2. destruct H2 as (_ & ->).
  apply api_bind_inr in H. destruct H as (t' & m3 & H3 & H).
  unfold import_term in H3. rewrite E in H3. injection H3 as <- <-.
  apply api_bind_inr in H. destruct H as (r & m4 & H4 & H).
  injection H as <- <- <-.
  apply push_all_export_term in H4. destruct H4 as (-> & Hs & Hk).
  repeat split; try assumption.
  intros child Hc. apply Hk. right. apply in_map. exact Hc.
Qed.

(** X23.  [bitwuzla_term_is_equal_sort] compares the two terms, not their
    sorts: where the equality of the C++ API tells terms apart, it
    answers false for two different terms, also when they have the same
    sort, and it changes nothing. *)
Theorem term_is_equal_sort_compares_terms (m : Maps_) (term0 term1 : Z)
  (t0 t1 : CppTerm) (c0 c1 : Z) :
  (forall a b, term_eq a b = true <-> a = b) ->
  term_map m !! term0 = Some (t0, c0) ->
  term_map m !! term1 = Some (t1, c1) ->
  bitwuzla_term_is_equal_sort term_eq term0 term1 m = inr (term_eq t0 t1, m)
  /\ (t0 <> t1 -> term_sort t0 = term_sort t1 ->
      bitwuzla_term_is_equal_sort term_eq term0 term1 m = inr (false, m)).
Proof.
  intros Heq E0 E1.
  assert (H : bitwuzla_term_is_equal_sort term_eq term0 term1 m
              = inr (term_eq t0 t1, m)).
  { unfold bitwuzla_term_is_equal_sort, BITWUZLA_CHECK_TERM_ID, term_map_has,
      BITWUZLA_CHECK, import_term, mbind, Api_bind, mret, Api_ret.
    rewrite ?E0, ?E1. cbn. rewrite ?E0, ?E1. cbn. rewrite ?E0, ?E1. reflexivity. }
  split; [exact H |]. intros Hne _. rewrite H.
  destruct (term_eq t0 t1) eqn:E; [| reflexivity].
  apply Heq in E. contradiction.
Qed.

End ApiProperties.

(** * The further properties at examples *)

Lemma compute_coefficients_of_a_leaf_witness :
  let one := BitVector.mk_one 8 in
  compute_coefficients (id_of Examples.grow_created) false 1 false []
    Examples.x BV_ADD [] [(Examples.x, one); (Examples.y, one)]
  = inr [(Examples.x, BitVector.norm 8 2); (Examples.y, one)].
Proof.
  intros one.
  exact (compute_coefficients_of_a_leaf (id_of Examples.grow_created) false
           false 0 [] [] Examples.x BV_ADD
           [(Examples.x, one); (Examples.y, one)] ltac:(discriminate)).
Defined.

Lemma compute_common_coefficients_takes_minimum_witness :
  let node_id := id_of Examples.grow_created in
  let bv := BitVector.norm 8 in
  let lhs := [(Examples.x, bv 2); (Examples.y, bv 1)] in
  let rhs := [(Examples.x, bv 1); (Examples.y, bv 3); (Examples.z, bv 1)] in
  let lhs' := [(Examples.x, bv 1); (Examples.y, bv 0)] in
  let rhs' := [(Examples.x, bv 0); (Examples.y, bv 2); (Examples.z, bv 1)] in
  let common := [(Examples.x, bv 1); (Examples.y, bv 1)] in
  compute_common_coefficients node_id lhs rhs = (lhs', rhs', common)
  /\ multiplicity node_id common Examples.y
     = Z.min (multiplicity node_id lhs Examples.y)
         (multiplicity node_id rhs Examples.y)
  /\ (multiplicity node_id lhs' Examples.y = 0
      \/ multiplicity node_id rhs' Examples.y = 0).
Proof.
  intros node_id bv lhs rhs lhs' rhs' common.
  assert (E : compute_common_coefficients node_id lhs rhs = (lhs', rhs', common))
    by (vm_compute; reflexivity).
  split; [exact E |].
  pose proof (compute_common_coefficients_takes_minimum node_id lhs rhs
                ltac:(repeat constructor; vm_compute; congruence)
                ltac:(repeat constructor; vm_compute; congruence)
                ltac:(apply (bool_decide_unpack _); vm_compute; exact I)
                Examples.y) as H.
  rewrite E in H. destruct H as (Hmin & _ & _ & Hzero).
  split; [exact Hmin | exact Hzero].
Defined.

Lemma normalize_and_caps_coefficients_witness :
  let coeffs :=
    [(Examples.bv8 5, BitVector.norm 8 3); (Examples.x, BitVector.norm 8 7);
     (Examples.bv8 1, BitVector.norm 8 2)] in
  normalize_and Examples.x coeffs
  = (BitVector.mk_zero 8,
     [(Examples.bv8 5, BitVector.mk_zero 8); (Examples.x, BitVector.mk_one 8);
      (Examples.bv8 1, BitVector.mk_zero 8)]).
Proof.
  intros coeffs.
  pose proof (normalize_and_caps_coefficients Examples.x coeffs
                ltac:(vm_compute; reflexivity)) as H.
  cbv zeta in H. destruct (normalize_and Examples.x coeffs) as [value coeffs'].
  destruct H as [-> ->]. vm_compute. reflexivity.
Defined.

Lemma apply_marks_assertions_processed_witness :
  let assertions := [Examples.grow_term; ApplyExample.shrink_term] in
  exists assertions' st',
    ApplyExample.run assertions = inr (assertions', st')
    /\ d_parents st' = []
    /\ Forall (fun a => ns_mem (d_processed_assertions st') a = true) assertions.
Proof.
  intros assertions. eexists. eexists. split; [vm_compute; reflexivity |].
  destruct (apply_marks_assertions_processed (id_of ApplyExample.created)
              false 100 false false false (@std_sort) mk_nary_left (fun n => n) unit tt
              ApplyExample.count_tree (fun _ p c => (p, c))
              (fun n _ c => (n, c)) (fun _ => []) ApplyExample.initial _
              assertions _ ltac:(vm_compute; reflexivity))
    as (Hp & _ & _ & Hmarks).
  split; [exact Hp |].
  repeat constructor; apply Hmarks; left; cbn; tauto.
Defined.



Lemma flat_model_universal_value_witness :
  let sat := Script.solver [] BZLA_RESULT_SAT false in
  let gslv :=
    Script.bundle sat sat [(Script.uvar, Script.uvar_const)]
      [(Script.ce_of 7, Some (Script.ce_of 1));
       (Script.ce_of 9, Some (Script.ce_of 1))] in
  exists flat_model e_solver,
    flat_model_generate Script.api false gslv = inr (flat_model, e_solver)
    /\ flat_model_get_value Script.api false flat_model Script.uvar
         (Some (Script.ce_of 9))
       = inr (Some (BitVector.norm 8 9))
    /\ flat_model_get_value Script.api false flat_model Script.uvar None
       = inl AssertionFailed.
Proof.
  intros sat gslv. eexists. eexists. split; [vm_compute; reflexivity |].
  refine (flat_model_universal_value Script.api false
            [(Script.uvar, Script.uvar_const)] _ Script.uvar Script.uvar_const
            0 (Script.ce_of 9) _ _ _ _ _ _).
  - reflexivity.
  - cbn. apply NoDup_cons. split; [apply not_elem_of_nil | apply NoDup_nil_2].
  - vm_compute. discriminate.
  - reflexivity.
  - reflexivity.
  - reflexivity.
Defined.

Lemma collect_consts_appends_distinct_constants_witness :
  let c := mkBzlaNode 7 false in
  let node_e := fun id => if id =? 1 then [c; mkBzlaNode 2 false; c] else
                          if id =? 2 then [mkBzlaNode 7 true] else [] in
  let is_const := fun id => id =? 7 in
  let get_id := fun n => if bzla_inverted n then - bzla_id n else bzla_id n in
  collect_consts 10 node_e is_const get_id (mkBzlaNode 1 false) []
  = inr [c; mkBzlaNode 7 true]
  /\ NoDup (map get_id [c; mkBzlaNode 7 true]).
Proof.
  intros c node_e is_const get_id. split; [vm_compute; reflexivity |].
  destruct (collect_consts_appends_distinct_constants 10 node_e is_const get_id
              (mkBzlaNode 1 false) [] [c; mkBzlaNode 7 true]
              ltac:(vm_compute; reflexivity))
    as (found & Hf & _ & Hnd).
  cbn [app] in Hf. subst found. exact Hnd.
Defined.

Lemma gen_all_combinations_enumerates_witness :
  gen_values 2 [["x"%char]]
  = inr [["x"]; ["0"; "0"]; ["0"; "1"]; ["1"; "0"]; ["1"; "1"]]%char
  /\ numeral_value ["0"; "1"]%char ["1"; "0"]%char = 2.
Proof.
  split; [vm_compute; reflexivity |].
  destruct (gen_all_combinations_enumerates 2 ["0"; "1"]%char ltac:(lia)
              ltac:(discriminate)
              ltac:(apply (bool_decide_unpack _); vm_compute; exact I)
              ltac:(vm_compute; reflexivity) [["x"%char]])
    as (new & Hrun & _ & Hrows).
  vm_compute in Hrun. injection Hrun as <-.
  destruct (Hrows 2%nat ["1"; "0"]%char eq_refl) as (_ & _ & Hnum).
  exact Hnum.
Defined.

Lemma export_sort_round_trip_witness :
  let m := @CApi.mkMaps Z Z (<[7 := (7, 1)]> ∅) ∅ in
  exists m',
    CApi.export_sort (fun s => s) (fun _ => false) false 7 m = inr (7, m')
    /\ CApi.import_sort 7 m' = inr (7, m')
    /\ CApi.sort_refs m' 7 = 2.
Proof.
  intros m. eexists. split; [vm_compute; reflexivity |].
  assert (Hc : CApi.maps_consistent (fun s : Z => s) (fun t : Z => t) m).
  { split; intros id s c H; cbn in H.
    - apply lookup_insert_Some in H.
      destruct H as [[<- [= <- _]] | [_ H]]; [reflexivity |].
      rewrite lookup_empty in H. discriminate.
    - rewrite lookup_empty in H. discriminate. }
  destruct (export_sort_round_trip (CppTerm := Z) (fun s : Z => s)
              (fun t : Z => t) (fun _ => false) false 7 m _ 7
              (fun a b H => H) Hc ltac:(vm_compute; reflexivity))
    as (_ & Himp & _ & Hrefs & _).
  split; [exact Himp | exact Hrefs].
Defined.

Lemma term_get_children_leaves_size_witness :
  let m := @CApi.mkMaps Z Z ∅ (<[5 := (5, 1)]> ∅) in
  let term_children := fun t : Z => if t =? 5 then [3; 4] else [] in
  exists m',
    CApi.bitwuzla_term_get_children (fun t => t) (fun _ => false) term_children
      false 5 (Some 99) m
    = inr (([3; 4], 99), m')
    /\ is_Some (CApi.term_map m' !! 3)
    /\ is_Some (CApi.term_map m' !! 4).
Proof.
  intros m term_children. eexists. split; [vm_compute; reflexivity |].
  destruct (term_get_children_leaves_size (CppSort := Z) (fun t : Z => t)
              (fun _ => false) term_children false m _ 5 99 99 5 1 [3; 4]
              ltac:(vm_compute; reflexivity) ltac:(vm_compute; reflexivity))
    as (_ & _ & Hreg & _).
  split; [apply (Hreg 3) | apply (Hreg 4)]; cbn; tauto.
Defined.

Lemma term_is_equal_sort_compares_terms_witness :
  let m := @CApi.mkMaps Z Z ∅ (<[5 := (5, 1)]> (<[6 := (6, 1)]> ∅)) in
  CApi.bitwuzla_term_is_equal_sort Z.eqb 5 6 m = inr (false, m).
Proof.
  intros m.
  destruct (term_is_equal_sort_compares_terms Z.eqb (fun _ : Z => 0) m 5 6 5 6 1 1
              Z.eqb_eq ltac:(vm_compute; reflexivity)
              ltac:(vm_compute; reflexivity))
    as (_ & Hneq).
  apply Hneq; [discriminate | reflexivity].
Defined.

Lemma get_top_is_top_witness :
  let concat := nm.mk_node BV_CONCAT [Examples.x; Examples.y] in
  get_top (Examples.bvnot concat) = concat
  /\ is_value (child concat 0) = false /\ is_value (child concat 1) = false.
Proof.
  intros concat. split; [reflexivity |].
  destruct (get_top_is_top (Examples.bvnot concat)) as (_ & H & _).
  exact (H eq_refl).
Defined.

Lemma sort_cmp_strict_total_order_witness :
  let node_id := id_of Examples.grow_created in
  sort_cmp node_id Examples.x [1; 2] Examples.y [1; 3] = true
  /\ sort_cmp node_id Examples.y [1; 3] Examples.z [1] = true
  /\ sort_cmp node_id Examples.x [1; 2] Examples.z [1] = true.
Proof.
  intros node_id. split; [reflexivity |]. split; [reflexivity |].
  destruct (sort_cmp_strict_total_order node_id Examples.x Examples.y Examples.z
              [1; 2] [1; 3] [1]) as (_ & H & _).
  apply H; reflexivity.
Defined.

Lemma compute_coefficients_share_aware_without_parents_witness :
  compute_coefficients (id_of Examples.grow_created) false 10 true
    Examples.grow_parents Examples.grow_rhs BV_ADD [] []
  = inl AssertionFailed.
Proof.
  destruct (compute_coefficients_share_aware_without_parents
              (id_of Examples.grow_created) 9 Examples.grow_parents
              Examples.grow_rhs BV_ADD []) as [H _].
  apply H; reflexivity.
Defined.

Lemma collect_adders_maps_additions_witness :
  let node_id := id_of Examples.grow_created in
  exists adders cm,
    collect_adders node_id false 100 false [] [Examples.grow_term] []
    = inr adders
    /\ In (Examples.grow_rhs, cm) adders
    /\ kind Examples.grow_rhs = BV_ADD
    /\ compute_coefficients node_id false 100 false [] Examples.grow_rhs BV_ADD [] []
       = inr cm.
Proof.
  intros node_id.
  destruct (collect_adders_maps_additions node_id false 100 false []
              [Examples.grow_term]) as [H _].
  eexists. eexists. split; [vm_compute; reflexivity |].
  split; [left; reflexivity |].
  eapply H; [vm_compute; reflexivity | left; reflexivity].
Defined.


Lemma normalize_comm_assoc_node_flag_witness :
  let node_id := id_of ApplyExample.created in
  exists res,
    normalize_comm_assoc_node node_id false 100 false (@std_sort) [] Examples.grow_rhs
    = inr (res, true)
    /\ true = negb (node_eqb res Examples.grow_rhs)
    /\ normalize_comm_assoc_node node_id false 100 true (@std_sort) [] Examples.grow_rhs
       = inl AssertionFailed.
Proof.
  intros node_id.
  destruct (normalize_comm_assoc_node_flag node_id [] (@std_sort) Examples.grow_rhs)
    as [Hflag Hfail].
  eexists. split; [vm_compute; reflexivity |]. split.
  - apply (Hflag false 100%nat false). vm_compute. reflexivity.
  - apply (Hfail 99%nat).
Defined.

Lemma rewrite_term_rewrites_division_identity_witness :
  let udiv := Examples.bvudiv Examples.y Examples.x in
  let cur := Examples.equal (Examples.bvmul Examples.x udiv) (Examples.bv8 0) in
  rewrite_term cur [Examples.bvmul Examples.x udiv; Examples.bv8 0]
  = nm.mk_node OR
      [Examples.equal Examples.x (Examples.bv8 0);
       nm.mk_node BV_UGT [Examples.x; Examples.y]].
Proof.
  intros udiv cur.
  destruct (rewrite_term_rewrites_division_identity cur Examples.x Examples.y 8)
    as [_ H].
  destruct (H eq_refl ltac:(discriminate)) as (_ & H2 & _). exact H2.
Defined.

Lemma gen_all_combinations_edges_witness :
  gen_xvalues 0 [] = inr [[]]
  /\ gen_all_combinations 3 [] [] = inl Undefined.
Proof.
  destruct (gen_all_combinations_edges ["x"; "0"; "1"]%char []) as [H0 _].
  destruct (gen_all_combinations_edges ["x"; "0"; "1"]%char []) as [_ H].
  split; [exact H0 | apply H; lia].
Defined.

Lemma sort_fun_get_domain_sorts_returns_nothing_witness :
  let m := @CApi.mkMaps Z Z (<[7 := (7, 1)]> ∅) (<[5 := (5, 1)]> ∅) in
  let fun_domain := fun s : Z => if s =? 7 then [1; 2] else [] in
  let term_sort := fun t : Z => t + 2 in
  CApi.bitwuzla_sort_fun_get_domain_sorts (fun s => s) (fun _ => false)
    fun_domain false 7 (Some 9) m
  = inr (([], 0), m)
  /\ exists m',
       CApi.bitwuzla_term_fun_get_domain_sorts (fun s => s) (fun _ => false)
         fun_domain term_sort false 5 (Some 9) m
       = inr (([1; 2], 2), m').
Proof.
  intros m fun_domain term_sort.
  destruct (sort_fun_get_domain_sorts_returns_nothing (fun s : Z => s)
              (fun _ => false) fun_domain term_sort false m 9) as [H _].
  split; [apply (H 7 7 1); vm_compute; reflexivity |].
  eexists. vm_compute. reflexivity.
Defined.

Lemma mk_fp_neg_inf_is_pos_inf_witness :
  let m := @CApi.mkMaps Z Z (<[7 := (7, 1)]> ∅) ∅ in
  let pos_inf := fun s : Z => s + 100 in
  exists m',
    CApi.bitwuzla_mk_fp_neg_inf (fun t => t) (fun _ => false) pos_inf false 7 m
    = inr (pos_inf 7, m')
    /\ is_Some (CApi.term_map m' !! pos_inf 7)
    /\ CApi.bitwuzla_mk_fp_neg_inf (fun t => t) (fun _ => false) pos_inf false 8 m
       = inl (CApi.CheckFailed CApi.CheckSortId).
Proof.
  intros m pos_inf.
  destruct (mk_fp_neg_inf_is_pos_inf (fun t : Z => t) (fun _ => false) pos_inf
              false 7 m) as [H _].
  destruct (mk_fp_neg_inf_is_pos_inf (fun t : Z => t) (fun _ => false) pos_inf
              false 8 m) as [_ Hfail].
  eexists. split; [vm_compute; reflexivity |]. split.
  - eapply (H 7 1 (pos_inf 7)); vm_compute; reflexivity.
  - apply Hfail. vm_compute. reflexivity.
Defined.

Lemma mk_term_checks_arguments_witness :
  let m := @CApi.mkMaps Z Z ∅ (<[5 := (5, 1)]> (<[6 := (6, 1)]> ∅)) in
  let mk_term := fun (kind : Z) (terms : list Z) => kind + 10 in
  CApi.bitwuzla_mk_term (fun t => t) (fun _ => false) mk_term false 60 3 [5; 9; 6] m
  = inl (CApi.CheckFailed (CApi.CheckTermIdAtIdx 1))
  /\ CApi.bitwuzla_mk_term (fun t => t) (fun _ => false) mk_term false 60 60 [5; 6] m
     = inl (CApi.CheckFailed CApi.CheckKind).
Proof.
  intros m mk_term.
  destruct (mk_term_checks_arguments (CppSort := Z) (fun t : Z => t)
              (fun _ => false) mk_term false 60 3 [5; 9; 6] m) as (_ & H & _).
  destruct (mk_term_checks_arguments (CppSort := Z) (fun t : Z => t)
              (fun _ => false) mk_term false 60 60 [5; 6] m) as (Hkind & _).
  split; [| apply Hkind; lia].
  apply (H ltac:(lia) 1%nat 9); [reflexivity | vm_compute; reflexivity |].
  intros j b Hj Hb. destruct j as [| j]; [| lia].
  injection Hb as <-. exists (5, 1). vm_compute. reflexivity.
Defined.

Lemma apply_needs_an_assertion_witness : ApplyExample.run [] = inl Undefined.
Proof.
  destruct (apply_needs_an_assertion (id_of ApplyExample.created) false 100
              false false false (@std_sort) mk_nary_left (fun n => n) unit tt
              ApplyExample.count_tree (fun _ p c => (p, c))
              (fun n _ c => (n, c)) (fun _ => []) ApplyExample.initial)
    as [_ H].
  apply H; [discriminate | right; reflexivity].
Defined.

Lemma apply_size_assertion_holds_witness :
  let assertions := [Examples.grow_term; ApplyExample.shrink_term] in
  exists d,
    apply_compute (id_of ApplyExample.created) false 100 false (@std_sort)
      false false mk_nary_left (fun n => n) unit tt ApplyExample.count_tree
      (fun _ p c => (p, c)) (fun n _ c => (n, c)) (fun _ => [])
      ApplyExample.initial assertions
    = inr d
    /\ List.length (ad_new_assertions d) = 2%nat
    /\ List.length (ad_norm_assertions d) = 2%nat.
Proof.
  intros assertions. eexists. split; [vm_compute; reflexivity |].
  destruct (apply_size_assertion_holds (id_of ApplyExample.created) false 100
              false false false (@std_sort) mk_nary_left (fun n => n) unit tt
              ApplyExample.count_tree (fun _ p c => (p, c))
              (fun n _ c => (n, c)) (fun _ => []) ApplyExample.initial
              assertions _ ltac:(vm_compute; reflexivity))
    as (Hnew & Hnorm & _).
  split; [exact Hnew | exact Hnorm].
Defined.
